(** * RSyncBackup: the archive-trimming engine

    A shallow embedding of [libs/RSyncBackup.py] (class [RSyncBackup] with its
    helpers [pathWalker] and [pathRemover]) and the properties of its
    retention logic.

    Python's [str] is a sequence of characters compared by code point; it is
    modelled as [list ascii].  Python's unbounded [int] is [Z]. *)

From Stdlib Require Import Ascii String.
From Stdlib Require Import List ZArith Lia Bool Arith.
From Stdlib Require Import Sorting.Sorted Sorting.Permutation.
Import ListNotations.

Set Warnings "-register-all,-abstract-large-number".

(** ** Strings *)

Definition str := list ascii.

Definition s (x : string) : str := list_ascii_of_string x.

Definition chr_eqb (a b : ascii) : bool := Ascii.eqb a b.

Fixpoint str_eqb (a b : str) : bool :=
  match a, b with
  | [], [] => true
  | x :: a', y :: b' => chr_eqb x y && str_eqb a' b'
  | _, _ => false
  end.

(** [a < b] on [str]: lexicographic on code points, a proper prefix is
    smaller. *)
Fixpoint str_compare (a b : str) : comparison :=
  match a, b with
  | [], [] => Eq
  | [], _ :: _ => Lt
  | _ :: _, [] => Gt
  | x :: a', y :: b' =>
      match Ascii.compare x y with
      | Eq => str_compare a' b'
      | c => c
      end
  end.

Definition str_ltb (a b : str) : bool :=
  match str_compare a b with Lt => true | _ => false end.

Definition str_leb (a b : str) : bool :=
  match str_compare a b with Gt => false | _ => true end.

Definition str_lt (a b : str) : Prop := str_compare a b = Lt.
Definition str_le (a b : str) : Prop := str_compare a b <> Gt.

(** ** [list.sort()] and slicing *)

(** [list.sort()] arranges the list in ascending order of [<].  On [str] the
    order is total and two elements that compare equal are identical, so the
    ascending arrangement is unique; it is computed here by insertion. *)
Fixpoint insert (x : str) (l : list str) : list str :=
  match l with
  | [] => [x]
  | y :: l' => if str_leb x y then x :: l else y :: insert x l'
  end.

Fixpoint sort (l : list str) : list str :=
  match l with
  | [] => []
  | x :: l' => insert x (sort l')
  end.

(** [l[0:stop]]: a negative [stop] counts from the end, and both ends are
    clamped to the list. *)
Definition slice_to {A : Type} (l : list A) (stop : Z) : list A :=
  let n := Z.of_nat (length l) in
  let stop' := if (stop <? 0)%Z then Z.max 0 (stop + n) else Z.min stop n in
  firstn (Z.to_nat stop') l.

(** Lines 137-140 of [trimArchives]:
    [matchingPaths.sort(); pathsToTrim = matchingPaths[0:-1 * entriesToKeep]]. *)
Definition pathsToTrim (matchingPaths : list str) (entriesToKeep : Z) : list str :=
  slice_to (sort matchingPaths) (-1 * entriesToKeep).

(** The entries the slice leaves in place. *)
Definition pathsKept (matchingPaths : list str) (entriesToKeep : Z) : list str :=
  skipn (length (pathsToTrim matchingPaths entriesToKeep)) (sort matchingPaths).

(** ** Path strings: [os.path.join] and [os.path.split]

    The functions below follow [posixpath] of the Python 2 library, the one
    that still provides [os.path.walk]. *)

Definition slash : ascii := "/"%char.
Definition newline : ascii := "010"%char.

Definition is_slash (c : ascii) : bool := chr_eqb c slash.
Definition not_slash (c : ascii) : bool := negb (is_slash c).

Definition is_empty {A : Type} (l : list A) : bool :=
  match l with [] => true | _ :: _ => false end.

Definition startswith_slash (p : str) : bool :=
  match p with c :: _ => is_slash c | [] => false end.

Definition endswith_slash (p : str) : bool :=
  match rev p with c :: _ => is_slash c | [] => false end.

(** One round of the loop of [join(a, *p)]:
    [if b.startswith('/'): path = b
     elif path == '' or path.endswith('/'): path += b
     else: path += '/' + b]. *)
Definition join2 (path b : str) : str :=
  if startswith_slash b then b
  else if is_empty path || endswith_slash path then path ++ b
  else path ++ slash :: b.

Definition os_path_join (a : str) (p : list str) : str := fold_left join2 p a.

Fixpoint take_while {A : Type} (f : A -> bool) (l : list A) : list A :=
  match l with
  | [] => []
  | x :: l' => if f x then x :: take_while f l' else []
  end.

Fixpoint drop_while {A : Type} (f : A -> bool) (l : list A) : list A :=
  match l with
  | [] => []
  | x :: l' => if f x then drop_while f l' else l
  end.

(** [head.rstrip('/')]. *)
Definition rstrip_slash (h : str) : str := rev (drop_while is_slash (rev h)).

(** [split(p)]:
    [i = p.rfind('/') + 1
     head, tail = p[:i], p[i:]
     if head and head != '/'*len(head): head = head.rstrip('/')
     return head, tail].
    [i] is the length of [p] less its longest suffix free of ['/']. *)
Definition os_path_split (p : str) : str * str :=
  let i := length p - length (take_while not_slash (rev p)) in
  let head := firstn i p in
  let tail := skipn i p in
  let head := if negb (is_empty head) && negb (forallb is_slash head)
              then rstrip_slash head else head in
  (head, tail).

(** The names a path string walks through, left to right; runs of ['/'] and a
    trailing ['/'] separate nothing.  The special names ["."] and [".."] are
    not interpreted: the results below are about paths written without
    them. *)
Fixpoint tokens (cur : str) (p : str) : list str :=
  match p with
  | [] => match cur with [] => [] | _ :: _ => [cur] end
  | c :: p' =>
      if is_slash c
      then match cur with [] => tokens [] p' | _ :: _ => cur :: tokens [] p' end
      else tokens (cur ++ [c]) p'
  end.

Definition components (p : str) : list str := tokens [] p.

(** A name a directory can hold. *)
Definition valid_name (n : str) : bool :=
  negb (is_empty n) && forallb not_slash n
  && negb (str_eqb n (s ".")) && negb (str_eqb n (s "..")).

(** The directory as [os.path.join] leaves it in front of the next part. *)
Definition joined_dir (a : str) : str :=
  if is_empty a || endswith_slash a then a else a ++ [slash].

(** ** Timestamps and the archive path of [backup] *)

Record struct_time := {
  tm_year : nat; tm_mon : nat; tm_mday : nat;
  tm_hour : nat; tm_min : nat; tm_sec : nat
}.

Definition valid_tm (t : struct_time) : Prop :=
  1000 <= tm_year t < 10 * 1000 /\ 1 <= tm_mon t <= 12 /\ 1 <= tm_mday t <= 31 /\
  tm_hour t <= 23 /\ tm_min t <= 59 /\ tm_sec t <= 61.

Definition digit (d : nat) : ascii := ascii_of_nat (48 + d).
Arguments digit : simpl never.
Arguments Nat.div : simpl never.
Arguments Nat.modulo : simpl never.
Arguments Nat.pow : simpl never.

(** A number in decimal on [w] digits, padded with zeros ([%d], [%m], [%H],
    [%M], [%S] with [w = 2]; [%Y] with [w = 4] for a four-digit year). *)
Fixpoint zero_pad (w n : nat) : str :=
  match w with
  | 0 => []
  | S w' => zero_pad w' (n / 10) ++ [digit (n mod 10)]
  end.

(** [time.strftime ("%d%m%Y-%H%M%S")] at the broken-down time [t], for a
    four-digit year ([valid_tm]): [%Y] prints a longer year in full. *)
Definition strftime_dmY_HMS (t : struct_time) : str :=
  zero_pad 2 (tm_mday t) ++ zero_pad 2 (tm_mon t) ++ zero_pad 4 (tm_year t)
  ++ "-"%char :: zero_pad 2 (tm_hour t) ++ zero_pad 2 (tm_min t)
  ++ zero_pad 2 (tm_sec t).

(** [l[i:j]] for [0 <= i <= j]. *)
Definition slice {A : Type} (l : list A) (i j : nat) : list A :=
  firstn (j - i) (skipn i l).

(** Lines 94-96 of [backup], for [archive is not None]:
    [thisArchive = os.path.join (archive, dateTime[4:8], dateTime[2:4], dateTime)]. *)
Definition thisArchive (archive : str) (now : struct_time) : str :=
  let dateTime := strftime_dmY_HMS now in
  os_path_join archive [slice dateTime 4 8; slice dateTime 2 4; dateTime].

Definition lex (c1 c2 : comparison) : comparison :=
  match c1 with Eq => c2 | _ => c1 end.

(** Chronological order of broken-down times. *)
Definition tm_compare (t1 t2 : struct_time) : comparison :=
  lex (tm_year t1 ?= tm_year t2)
   (lex (tm_mon t1 ?= tm_mon t2)
    (lex (tm_mday t1 ?= tm_mday t2)
     (lex (tm_hour t1 ?= tm_hour t2)
      (lex (tm_min t1 ?= tm_min t2) (tm_sec t1 ?= tm_sec t2))))).

Definition tm_leb (t1 t2 : struct_time) : bool :=
  match tm_compare t1 t2 with Gt => false | _ => true end.

(** Timestamps put in chronological order, oldest first. *)
Fixpoint tm_insert (t : struct_time) (l : list struct_time) : list struct_time :=
  match l with
  | [] => [t]
  | u :: l' => if tm_leb t u then t :: l else u :: tm_insert t l'
  end.

Fixpoint tm_sort (l : list struct_time) : list struct_time :=
  match l with
  | [] => []
  | t :: l' => tm_insert t (tm_sort l')
  end.

(** ** The name filter

    [re.compile(...)] yields a pattern object; the patterns needed here are
    sequences of literal characters, character ranges and the anchor [$]. *)

Inductive atom :=
| Lit (c : ascii)            (* an escaped or ordinary character *)
| Range (lo hi : ascii)      (* [lo-hi] *)
| Eol.                       (* $ *)

Definition pattern := list atom.

(** [$] without [re.MULTILINE]: the end of the string, or just before a
    newline that ends the string. *)
Definition at_end (t : str) : bool :=
  match t with
  | [] => true
  | [c] => chr_eqb c newline
  | _ => false
  end.

Fixpoint match_here (p : pattern) (t : str) : bool :=
  match p with
  | [] => true
  | Lit c :: p' =>
      match t with x :: t' => chr_eqb x c && match_here p' t' | [] => false end
  | Range lo hi :: p' =>
      match t with
      | x :: t' => Ascii.leb lo x && Ascii.leb x hi && match_here p' t'
      | [] => false
      end
  | Eol :: p' => at_end t && match_here p' t
  end.

(** [pattern.search(t)] as a truth value: a match starting anywhere. *)
Fixpoint re_search (p : pattern) (t : str) : bool :=
  match_here p t ||
  match t with [] => false | _ :: t' => re_search p t' end.

(** [re.escape(archiveDir)]: every character stands for itself. *)
Definition re_escape (t : str) : pattern := map Lit t.

(** [[0-9]{n,n}]. *)
Definition digits (n : nat) : pattern := repeat (Range "0"%char "9"%char) n.

(** Line 131: [os.path.join (re.escape (archiveDir), '[0-9]{4,4}',
    '[0-9]{2,2}', '[0-9]{8,8}-[0-9]{6,6}$')], compiled.  [os.path.join] puts
    a ['/'] after the escaped directory unless it is empty or ends with one
    (escaping keeps a final ['/'] final). *)
Definition default_filter (archiveDir : str) : pattern :=
  re_escape archiveDir
  ++ (if is_empty archiveDir || endswith_slash archiveDir then [] else [Lit slash])
  ++ digits 4 ++ Lit slash :: digits 2 ++ Lit slash :: digits 8
  ++ Lit "-"%char :: digits 6 ++ [Eol].

Definition is_digit (c : ascii) : bool :=
  Ascii.leb "0"%char c && Ascii.leb c "9"%char.

(** The shape named in the comment of line 130:
    [archiveDir/yyyy/mm/ddmmyyyy-hhmmss], as a predicate on what follows the
    joined directory. *)
Definition snapshot_shape (t : str) : Prop :=
  exists y m d h : str,
    t = y ++ slash :: m ++ slash :: d ++ "-"%char :: h /\
    length y = 4 /\ length m = 2 /\ length d = 8 /\ length h = 6 /\
    forallb is_digit (y ++ m ++ d ++ h) = true.

(** [path] ends with [archiveDir/<4 digits>/<2 digits>/<8 digits>-<6 digits>]. *)
Definition ends_with_snapshot (archiveDir path : str) : Prop :=
  exists pre t : str,
    snapshot_shape t /\ path = pre ++ os_path_join archiveDir [t].
(** ** The file system

    A tree of directories and regular files; a directory lists its entries in
    the order [os.listdir] reports them.  Links, permissions and devices are
    outside the model, so removing a regular file that exists never fails;
    relative paths are taken from the root.  Symbolic links are added in
    [Links] below, for the removal step. *)

Inductive node :=
| File
| Dir (entries : list (str * node)).

Inductive exn := OSError.

Definition is_dir (n : node) : bool :=
  match n with Dir _ => true | File => false end.

Definition is_file (n : node) : bool :=
  match n with File => true | Dir _ => false end.

Definition is_empty_dir (n : node) : bool :=
  match n with Dir [] => true | _ => false end.

Fixpoint lookup (name : str) (es : list (str * node)) : option node :=
  match es with
  | [] => None
  | (n, x) :: es' => if str_eqb n name then Some x else lookup name es'
  end.

Definition remove_entry (name : str) (es : list (str * node)) : list (str * node) :=
  filter (fun e => negb (str_eqb (fst e) name)) es.

Definition set_entry (name : str) (x : node) (es : list (str * node)) : list (str * node) :=
  map (fun e => if str_eqb (fst e) name then (fst e, x) else e) es.

(** The node a list of names leads to. *)
Fixpoint find (cs : list str) (n : node) : option node :=
  match cs with
  | [] => Some n
  | c :: cs' =>
      match n with
      | Dir es => match lookup c es with Some x => find cs' x | None => None end
      | File => None
      end
  end.

(** Unlink the entry at [cs] when [ok] accepts it; the root has no entry. *)
Fixpoint delete (ok : node -> bool) (cs : list str) (n : node) : option node :=
  match cs, n with
  | c :: cs', Dir es =>
      match lookup c es with
      | None => None
      | Some x =>
          match cs' with
          | [] => if ok x then Some (Dir (remove_entry c es)) else None
          | _ :: _ =>
              match delete ok cs' x with
              | Some x' => Some (Dir (set_entry c x' es))
              | None => None
              end
          end
      end
  | _, _ => None
  end.

(** The empty string names nothing ([ENOENT]). *)
Definition resolve (p : str) : option (list str) :=
  match p with [] => None | _ :: _ => Some (components p) end.

Definition stat (p : str) (fs : node) : option node :=
  match resolve p with Some cs => find cs fs | None => None end.

(** [os.listdir(p)]; [None] stands for [OSError]. *)
Definition os_listdir (p : str) (fs : node) : option (list str) :=
  match stat p fs with
  | Some (Dir es) => Some (map fst es)
  | _ => None
  end.

(** [os.path.isdir(p)]. *)
Definition os_path_isdir (p : str) (fs : node) : bool :=
  match stat p fs with Some (Dir _) => true | _ => false end.

(** [os.remove(p)]: [p] must be a regular file. *)
Definition os_remove (p : str) (fs : node) : option node :=
  match resolve p with Some cs => delete is_file cs fs | None => None end.

(** [os.rmdir(p)]: [p] must be a directory without entries. *)
Definition os_rmdir (p : str) (fs : node) : option node :=
  match resolve p with Some cs => delete is_empty_dir cs fs | None => None end.

(** *** Measures and well-formedness of a tree *)

Fixpoint height (n : node) : nat :=
  match n with
  | File => 0
  | Dir es => S (list_max (map (fun e => height (snd e)) es))
  end.

Fixpoint nodupb (l : list str) : bool :=
  match l with
  | [] => true
  | x :: l' => negb (existsb (str_eqb x) l') && nodupb l'
  end.

(** Every name is valid and no directory lists a name twice. *)
Fixpoint wf (n : node) : bool :=
  match n with
  | File => true
  | Dir es =>
      forallb (fun e => valid_name (fst e)) es
      && nodupb (map fst es)
      && forallb (fun e => wf (snd e)) es
  end.

(** What [cs] is: nothing, a file or a directory. *)
Definition kind_at (cs : list str) (fs : node) : option bool :=
  option_map is_dir (find cs fs).

(** The tree with the node at [cs] replaced by [t]. *)
Fixpoint graft (cs : list str) (t : node) (n : node) : node :=
  match cs with
  | [] => t
  | c :: cs' =>
      match n with
      | Dir es =>
          match lookup c es with
          | Some x => Dir (set_entry c (graft cs' t x) es)
          | None => n
          end
      | File => n
      end
  end.

(** [l1] is an initial segment of [l2]. *)
Fixpoint is_prefix (l1 l2 : list str) : bool :=
  match l1, l2 with
  | [], _ => true
  | x :: l1', y :: l2' => str_eqb x y && is_prefix l1' l2'
  | _ :: _, [] => false
  end.

(** ** Computations on the file system

    A method runs on the file system and returns, raises, or (in the model
    only) runs out of fuel; what an exception leaves behind is kept. *)

Inductive outcome (A : Type) :=
| Done (a : A) (fs : node)
| Raised (e : exn) (fs : node)
| Timeout.

Arguments Done {A} a fs.
Arguments Raised {A} e fs.
Arguments Timeout {A}.

(** The file system a run leaves behind. *)
Definition final {A : Type} (o : outcome A) : option node :=
  match o with
  | Done _ fs => Some fs
  | Raised _ fs => Some fs
  | Timeout => None
  end.

Definition M (A : Type) : Type := node -> outcome A.

Definition ret {A : Type} (a : A) : M A := fun fs => Done a fs.

Definition bind {A B : Type} (m : M A) (k : A -> M B) : M B :=
  fun fs =>
    match m fs with
    | Done a fs' => k a fs'
    | Raised e fs' => Raised e fs'
    | Timeout => Timeout
    end.

Notation "x <- m ;; k" := (bind m (fun x => k))
  (at level 61, m at next level, right associativity).
Notation "m ;;; k" := (bind m (fun _ => k))
  (at level 61, right associativity).

(** A call that changes the file system or raises [OSError]. *)
Definition sys (op : node -> option node) : M unit :=
  fun fs => match op fs with Some fs' => Done tt fs' | None => Raised OSError fs end.

(** A call that reads the file system or raises [OSError]. *)
Definition ask {A : Type} (q : node -> option A) : M A :=
  fun fs => match q fs with Some a => Done a fs | None => Raised OSError fs end.

(** A call that reads the file system and cannot fail. *)
Definition peek {A : Type} (q : node -> A) : M A := fun fs => Done (q fs) fs.

(** [for x in l: v = body(x, v)]. *)
Fixpoint for_each {A V : Type} (l : list A) (body : A -> V -> M V) (v : V) : M V :=
  match l with
  | [] => ret v
  | x :: l' => v' <- body x v ;; for_each l' body v'
  end.

(** [os.path.walk(top, func, arg)] of Python 2:
    [try: names = os.listdir(top)
     except os.error: return
     func(arg, top, names)
     for name in names:
         name = join(top, name)
         try: st = os.lstat(name)
         except os.error: continue
         if stat.S_ISDIR(st.st_mode): walk(name, func, arg)].
    [v] is the state of the object whose method [func] is. *)
Fixpoint os_path_walk {V : Type} (fuel : nat) (top : str)
         (func : V -> str -> list str -> M V) (v : V) : M V :=
  match fuel with
  | 0 => fun _ => Timeout
  | S fuel' => fun fs =>
      match os_listdir top fs with
      | None => Done v fs
      | Some names =>
          (v1 <- func v top names ;;
           for_each names (fun name v fs =>
             let name := os_path_join top [name] in
             match stat name fs with
             | Some (Dir _) => os_path_walk fuel' name func v fs
             | _ => Done v fs
             end) v1) fs
      end
  end.

(** ** [pathWalker] *)

Record pathWalker := { regex : pattern; foundPaths : list str }.

(** [pathWalker(regex)]. *)
Definition new_pathWalker (regex : pattern) : pathWalker :=
  {| regex := regex; foundPaths := [] |}.

(** [pathWalker.walking]: keep every joined name the pattern finds a match in. *)
Definition pathWalker_walking (self : pathWalker) (dirname : str) (names : list str)
  : M pathWalker :=
  for_each names (fun name self =>
    if re_search (regex self) (os_path_join dirname [name])
    then ret {| regex := regex self;
                foundPaths := foundPaths self ++ [os_path_join dirname [name]] |}
    else ret self) self.

(** [pathWalker.walk]. *)
Definition pathWalker_walk (fuel : nat) (self : pathWalker) (path : str) : M (list str) :=
  self' <- os_path_walk fuel path pathWalker_walking self ;;
  ret (foundPaths self').

(** ** [pathRemover] *)

Record pathRemover := { dirsToRemove : list str }.

Definition new_pathRemover : pathRemover := {| dirsToRemove := [] |}.

(** [pathRemover.walking]: note the directories, remove everything else. *)
Definition pathRemover_walking (self : pathRemover) (dirname : str) (names : list str)
  : M pathRemover :=
  for_each names (fun name self =>
    let target := os_path_join dirname [name] in
    isdir <- peek (os_path_isdir target) ;;
    if (isdir : bool)
    then ret {| dirsToRemove := dirsToRemove self ++ [target] |}
    else sys (os_remove target) ;;; ret self) self.

(** The second half of [pathRemover.walk]:
    [for dir in self.dirsToRemove: os.rmdir (dir)]. *)
Definition rmdir_all (dirs : list str) : M unit :=
  for_each dirs (fun dir _ => sys (os_rmdir dir)) tt.

(** [pathRemover.walk]. *)
Definition pathRemover_walk (fuel : nat) (self : pathRemover) (path : str) : M pathRemover :=
  self <- os_path_walk fuel path pathRemover_walking self ;;
  let self := {| dirsToRemove := rev (dirsToRemove self) |} in
  rmdir_all (dirsToRemove self) ;;;
  ret {| dirsToRemove := [] |}.

(** ** [RSyncBackup.trimArchives] *)

Record RSyncBackup := { lastRunFile : str; rsync : str; testRun : bool }.

(** Lines 128-140: the filter, the walk, the sort and the slice. *)
Definition trim_select (fuel : nat) (self : RSyncBackup) (archiveDir : str)
           (filter : option pattern) (entriesToKeep : Z) : M (list str) :=
  let nameFilter :=
    match filter with
    | None => default_filter archiveDir
    | Some f => f
    end in
  let walker := new_pathWalker nameFilter in
  matchingPaths <- pathWalker_walk fuel walker archiveDir ;;
  ret (pathsToTrim matchingPaths entriesToKeep).

(** Lines 146-150: remove one selected path. *)
Definition remove_path (fuel : nat) (pathKiller : pathRemover) (pathToRemove : str)
  : M pathRemover :=
  isdir <- peek (os_path_isdir pathToRemove) ;;
  if (isdir : bool)
  then pathKiller <- pathRemover_walk fuel pathKiller pathToRemove ;;
       sys (os_rmdir pathToRemove) ;;;
       ret pathKiller
  else sys (os_remove pathToRemove) ;;; ret pathKiller.

(** Lines 152-167: the [while (looking)] loop, from [lastParent]. *)
Fixpoint prune_parents (fuel : nat) (self : RSyncBackup) (lastParent : str) : M unit :=
  match fuel with
  | 0 => fun _ => Timeout
  | S fuel' =>
      let parent := fst (os_path_split lastParent) in
      if str_eqb lastParent parent then ret tt
      else
        names <- ask (os_listdir parent) ;;
        if length names =? 0
        then (if testRun self then ret tt else sys (os_rmdir parent)) ;;;
             prune_parents fuel' self parent
        else ret tt
  end.

(** Lines 142-167: the body of [for pathToRemove in pathsToTrim]. *)
Definition trim_one (fuel : nat) (self : RSyncBackup) (removeParentIfEmpty : bool)
           (pathToRemove : str) (pathKiller : pathRemover) : M pathRemover :=
  pathKiller <- (if testRun self then ret pathKiller
                 else remove_path fuel pathKiller pathToRemove) ;;
  (if removeParentIfEmpty then prune_parents fuel self pathToRemove else ret tt) ;;;
  ret pathKiller.

(** [trimArchives (self, archiveDir, filter, entriesToKeep, removeParentIfEmpty)];
    it has no [return] statement, so it returns [None]. *)
Definition trimArchives (fuel : nat) (self : RSyncBackup) (archiveDir : str)
           (filter : option pattern) (entriesToKeep : Z) (removeParentIfEmpty : bool)
  : M unit :=
  pathsToTrim <- trim_select fuel self archiveDir filter entriesToKeep ;;
  let pathKiller := new_pathRemover in
  for_each pathsToTrim (trim_one fuel self removeParentIfEmpty) pathKiller ;;;
  ret tt.

(** ** Notions used to state the properties *)

(** Remove the directories [ds] one after the other, each only when it lists
    no entry at that moment. *)
Fixpoint remove_empties (ds : list str) (fs : node) : option node :=
  match ds with
  | [] => Some fs
  | d :: ds' =>
      match os_listdir d fs with
      | Some [] =>
          match os_rmdir d fs with
          | Some fs' => remove_empties ds' fs'
          | None => None
          end
      | _ => None
      end
  end.

(** [d] names a directory on the way from the root to [p]. *)
Definition on_the_way (p d : str) : Prop :=
  d <> [] /\ exists r, components p = components d ++ r.

(** [p] is a name some directory of [fs] lists, joined to that directory. *)
Definition listed (fs : node) (p : str) : Prop :=
  exists d n names,
    p = os_path_join d [n] /\ os_listdir d fs = Some names /\
    In n names /\ valid_name n = true.

(** A tree less its regular files. *)
Fixpoint strip_files (n : node) : node :=
  match n with
  | File => File
  | Dir es =>
      Dir (flat_map (fun e => match snd e with
                              | Dir _ => [(fst e, strip_files (snd e))]
                              | File => []
                              end) es)
  end.

(** The directories [top] lists, as joined paths. *)
Definition subdirs (top : str) (es : list (str * node)) : list str :=
  flat_map (fun e => match snd e with
                     | Dir _ => [os_path_join top [fst e]]
                     | File => []
                     end) es.

(** The directories below [top], whose tree is [t], in the order in which the
    walk of [pathRemover] notes them: the directories [top] lists, then those
    below each of them in turn. *)
Fixpoint walk_dirs (top : str) (t : node) : list str :=
  match t with
  | File => []
  | Dir es =>
      subdirs top es
      ++ flat_map (fun e => walk_dirs (os_path_join top [fst e]) (snd e)) es
  end.

(** The entries that are directories; the same with their files stripped;
    the same emptied. *)
Definition keep_dirs (es : list (str * node)) : list (str * node) :=
  flat_map (fun e => match snd e with Dir _ => [e] | File => [] end) es.

Definition strip_entries (es : list (str * node)) : list (str * node) :=
  flat_map (fun e => match snd e with
                     | Dir _ => [(fst e, strip_files (snd e))]
                     | File => []
                     end) es.

Definition empty_entries (es : list (str * node)) : list (str * node) :=
  flat_map (fun e => match snd e with Dir _ => [(fst e, Dir [])] | File => [] end) es.

(** What [q] is once the files under [cs] are gone. *)
Definition kind_without_files (cs q : list str) (fs : node) : option bool :=
  if is_prefix cs q
  then match kind_at q fs with Some true => Some true | _ => None end
  else kind_at q fs.

(** What [q] is once [cs] and all below it are gone. *)
Definition kind_without_tree (cs q : list str) (fs : node) : option bool :=
  if is_prefix cs q then None else kind_at q fs.

(** In [l] every path comes after all the paths of [l] below it. *)
Definition bottom_up (l : list (list str)) : Prop :=
  forall l1 d l2, l = l1 ++ d :: l2 ->
  forall d', In d' l2 -> is_prefix d d' = false.

(** ** Sample data *)

(** A directory given by its entries, with names written as string literals. *)
Definition dirOf (l : list (string * node)) : node :=
  Dir (map (fun e => (s (fst e), snd e)) l).

Definition live : RSyncBackup := {| lastRunFile := []; rsync := []; testRun := false |}.
Definition dry : RSyncBackup := {| lastRunFile := []; rsync := []; testRun := true |}.

(** The three snapshots of the scenario: [2021/01/01012021-120000],
    [2021/01/02012021-120000] and [2021/02/01022021-120000] under [/arch]. *)
Definition three_snapshots : list str :=
  [s "/arch/2021/02/01022021-120000";
   s "/arch/2021/01/01012021-120000";
   s "/arch/2021/01/02012021-120000"].

Definition three_fs : node :=
  dirOf [("arch", dirOf [("2021", dirOf
            [("01", dirOf [("01012021-120000", dirOf [("f", File); ("d", dirOf [("g", File)])]);
                           ("02012021-120000", dirOf [])]);
             ("02", dirOf [("01022021-120000", dirOf [("x", File)])])]);
                         ("README", File)]);
         ("keep", File)]%string.

Definition tm_a : struct_time :=
  {| tm_year := 2021; tm_mon := 1; tm_mday := 2; tm_hour := 12; tm_min := 0; tm_sec := 0 |}.
Definition tm_b : struct_time :=
  {| tm_year := 2021; tm_mon := 2; tm_mday := 1; tm_hour := 12; tm_min := 0; tm_sec := 0 |}.
Definition tm_c : struct_time :=
  {| tm_year := 2020; tm_mon := 12; tm_mday := 31; tm_hour := 23; tm_min := 59; tm_sec := 59 |}.

(** An archive in which one entry is named like a snapshot followed by a
    newline. *)
Definition newline_name : str := s "01012021-120000" ++ [newline].

Definition newline_fs : node :=
  dirOf [("arch", dirOf [("2021", dirOf
            [("01", Dir [(newline_name, dirOf [("f", File)]);
                         (s "02012021-120000", dirOf [])])])])]%string.

(** An archive whose only snapshot holds a copy of an archive tree: the
    nested path also ends like a snapshot of [/arch]. *)
Definition snapshot1 : str := s "/arch/2021/01/01012021-120000".
Definition snapshot2 : str := s "/arch/2021/01/02012021-120000".

Definition nested_tree : node :=
  dirOf [("arch", dirOf [("2021", dirOf [("01", dirOf
          [("01012021-120000", dirOf [])])])])]%string.

Definition nested_fs : node :=
  dirOf [("arch", dirOf [("2021", dirOf [("01", dirOf
          [("01012021-120000", nested_tree)])])]);
         ("keep", File)]%string.



(** A chain of directories left empty under [/arch], beside a file. *)
Definition chain_fs : node :=
  dirOf [("arch", dirOf [("2021", dirOf [("01", dirOf [])]); ("keep", File)])]%string.

Definition chain_fs_pruned : node :=
  dirOf [("arch", dirOf [("keep", File)])]%string.

(** The three snapshots in the order the walk finds them in [three_fs]. *)
Definition three_found : list str :=
  [s "/arch/2021/01/01012021-120000";
   s "/arch/2021/01/02012021-120000";
   s "/arch/2021/02/01022021-120000"].

(** ** What the walk of [pathWalker] finds, by recursion on the tree *)

Fixpoint found_in (regex0 : pattern) (top : str) (t : node) : list str :=
  match t with
  | File => []
  | Dir es =>
      filter (re_search regex0) (map (fun e => os_path_join top [fst e]) es)
      ++ flat_map (fun e => found_in regex0 (os_path_join top [fst e]) (snd e)) es
  end.

(** Neither of two paths lies at or below the other. *)
Definition apart (a b : list str) : bool :=
  negb (is_prefix a b) && negb (is_prefix b a).

(** [three_fs] once all but the newest snapshot are trimmed, with the parents
    left empty. *)
Definition three_fs_trimmed : node :=
  dirOf [("arch", dirOf [("2021", dirOf
            [("02", dirOf [("01022021-120000", dirOf [("x", File)])])]);
                         ("README", File)]);
         ("keep", File)]%string.

(** ** The file system with symbolic links

    The removal step reads the file system in two ways: [os.path.isdir],
    [os.listdir] and the path prefix of every call follow symbolic links, while
    the [os.lstat] of [os.path.walk], [os.remove] and [os.rmdir] look at the
    last name itself.  The tree below adds links to the model so that the two
    can differ; targets are paths written without ["."] and [".."]. *)

Module Links.

Inductive node :=
| File
| Dir (entries : list (str * node))
| Link (target : str).

Definition is_dir (n : node) : bool :=
  match n with Dir _ => true | _ => false end.

Definition not_dir (n : node) : bool := negb (is_dir n).

Definition is_empty_dir (n : node) : bool :=
  match n with Dir [] => true | _ => false end.

Fixpoint lookup (name : str) (es : list (str * node)) : option node :=
  match es with
  | [] => None
  | (n, x) :: es' => if str_eqb n name then Some x else lookup name es'
  end.

Definition remove_entry (name : str) (es : list (str * node)) : list (str * node) :=
  filter (fun e => negb (str_eqb (fst e) name)) es.

Definition set_entry (name : str) (x : node) (es : list (str * node)) : list (str * node) :=
  map (fun e => if str_eqb (fst e) name then (fst e, x) else e) es.

(** The node a list of names leads to, no link followed. *)
Fixpoint find (cs : list str) (n : node) : option node :=
  match cs with
  | [] => Some n
  | c :: cs' =>
      match n with
      | Dir es => match lookup c es with Some x => find cs' x | None => None end
      | _ => None
      end
  end.

(** Unlink the entry at [cs] when [ok] accepts it; the root has no entry. *)
Fixpoint delete (ok : node -> bool) (cs : list str) (n : node) : option node :=
  match cs, n with
  | c :: cs', Dir es =>
      match lookup c es with
      | None => None
      | Some x =>
          match cs' with
          | [] => if ok x then Some (Dir (remove_entry c es)) else None
          | _ :: _ =>
              match delete ok cs' x with
              | Some x' => Some (Dir (set_entry c x' es))
              | None => None
              end
          end
      end
  | _, _ => None
  end.

(** Path resolution: from the directory [at_], itself free of links, walk
    through the names [todo].  A link met on the way is replaced by its
    target, taken from the root when it starts with ['/'] and from [at_]
    otherwise; a link at the last name is followed only when [follow] is set.
    [links] bounds the number of links followed (the kernel gives up with
    [ELOOP]).  The result is the place, free of links, the path stands for. *)
Fixpoint locate (links : nat) (fs : node) (follow : bool)
  : list str -> list str -> option (list str) :=
  fix walk (at_ todo : list str) {struct todo} : option (list str) :=
    match todo with
    | [] => Some at_
    | c :: todo' =>
        match find (at_ ++ [c]) fs with
        | None => None
        | Some File => if is_empty todo' then Some (at_ ++ [c]) else None
        | Some (Dir _) => walk (at_ ++ [c]) todo'
        | Some (Link t) =>
            if is_empty todo' && negb follow then Some (at_ ++ [c])
            else match links with
                 | 0 => None
                 | S links' =>
                     locate links' fs follow
                            (if startswith_slash t then [] else at_)
                            (components t ++ todo')
                 end
        end
    end.

(** The number of links a resolution follows at most. *)
Definition MAXSYMLINKS : nat := 40.

(** Where [p] is, with the last name followed or not. *)
Definition place (follow : bool) (p : str) (fs : node) : option (list str) :=
  match p with
  | [] => None
  | _ :: _ => locate MAXSYMLINKS fs follow [] (components p)
  end.

(** [os.stat(p)]: links followed throughout. *)
Definition stat (p : str) (fs : node) : option node :=
  match place true p fs with Some cs => find cs fs | None => None end.

(** [os.lstat(p)]: the last name is not followed. *)
Definition lstat (p : str) (fs : node) : option node :=
  match place false p fs with Some cs => find cs fs | None => None end.

(** [os.listdir(p)]; [None] stands for [OSError]. *)
Definition os_listdir (p : str) (fs : node) : option (list str) :=
  match stat p fs with
  | Some (Dir es) => Some (map fst es)
  | _ => None
  end.

(** [os.path.isdir(p)]: true also for a link that leads to a directory. *)
Definition os_path_isdir (p : str) (fs : node) : bool :=
  match stat p fs with Some (Dir _) => true | _ => false end.

(** [os.remove(p)]: unlinks a regular file or a link, never a directory. *)
Definition os_remove (p : str) (fs : node) : option node :=
  match place false p fs with Some cs => delete not_dir cs fs | None => None end.

(** [os.rmdir(p)]: [p] itself must be a directory without entries; a link
    to a directory is refused. *)
Definition os_rmdir (p : str) (fs : node) : option node :=
  match place false p fs with Some cs => delete is_empty_dir cs fs | None => None end.

Inductive outcome (A : Type) :=
| Done (a : A) (fs : node)
| Raised (e : exn) (fs : node)
| Timeout.

Arguments Done {A} a fs.
Arguments Raised {A} e fs.
Arguments Timeout {A}.

Definition final {A : Type} (o : outcome A) : option node :=
  match o with
  | Done _ fs => Some fs
  | Raised _ fs => Some fs
  | Timeout => None
  end.

Definition M (A : Type) : Type := node -> outcome A.

Definition ret {A : Type} (a : A) : M A := fun fs => Done a fs.

Definition bind {A B : Type} (m : M A) (k : A -> M B) : M B :=
  fun fs =>
    match m fs with
    | Done a fs' => k a fs'
    | Raised e fs' => Raised e fs'
    | Timeout => Timeout
    end.

Definition sys (op : node -> option node) : M unit :=
  fun fs => match op fs with Some fs' => Done tt fs' | None => Raised OSError fs end.

Definition peek {A : Type} (q : node -> A) : M A := fun fs => Done (q fs) fs.

Fixpoint for_each {A V : Type} (l : list A) (body : A -> V -> M V) (v : V) : M V :=
  match l with
  | [] => ret v
  | x :: l' => bind (body x v) (fun v' => for_each l' body v')
  end.

(** [os.path.walk(top, func, arg)] of Python 2; the test before the
    recursive call is on [os.lstat], so a link to a directory is not
    entered. *)
Fixpoint os_path_walk {V : Type} (fuel : nat) (top : str)
         (func : V -> str -> list str -> M V) (v : V) : M V :=
  match fuel with
  | 0 => fun _ => Timeout
  | S fuel' => fun fs =>
      match os_listdir top fs with
      | None => Done v fs
      | Some names =>
          bind (func v top names) (fun v1 =>
           for_each names (fun name v fs =>
             let name := os_path_join top [name] in
             match lstat name fs with
             | Some (Dir _) => os_path_walk fuel' name func v fs
             | _ => Done v fs
             end) v1) fs
      end
  end.

(** [pathRemover.walking]. *)
Definition pathRemover_walking (self : pathRemover) (dirname : str) (names : list str)
  : M pathRemover :=
  for_each names (fun name self =>
    let target := os_path_join dirname [name] in
    bind (peek (os_path_isdir target)) (fun isdir =>
    if (isdir : bool)
    then ret {| dirsToRemove := dirsToRemove self ++ [target] |}
    else bind (sys (os_remove target)) (fun _ => ret self))) self.

Definition rmdir_all (dirs : list str) : M unit :=
  for_each dirs (fun dir _ => sys (os_rmdir dir)) tt.

(** [pathRemover.walk]. *)
Definition pathRemover_walk (fuel : nat) (self : pathRemover) (path : str) : M pathRemover :=
  bind (os_path_walk fuel path pathRemover_walking self) (fun self =>
  let self := {| dirsToRemove := rev (dirsToRemove self) |} in
  bind (rmdir_all (dirsToRemove self)) (fun _ =>
  ret {| dirsToRemove := [] |})).

(** Lines 146-150 of [trimArchives]. *)
Definition remove_path (fuel : nat) (pathKiller : pathRemover) (pathToRemove : str)
  : M pathRemover :=
  bind (peek (os_path_isdir pathToRemove)) (fun isdir =>
  if (isdir : bool)
  then bind (pathRemover_walk fuel pathKiller pathToRemove) (fun pathKiller =>
       bind (sys (os_rmdir pathToRemove)) (fun _ =>
       ret pathKiller))
  else bind (sys (os_remove pathToRemove)) (fun _ => ret pathKiller)).

(** A directory given by its entries, with names written as string literals. *)
Definition dirOf (l : list (string * node)) : node :=
  Dir (map (fun e => (s (fst e), snd e)) l).

(** A snapshot that holds a regular file and a link to a directory outside
    the archive. *)
Definition link_fs : node :=
  dirOf [("arch", dirOf [("2021", dirOf [("01", dirOf
          [("01012021-120000", dirOf [("f", File); ("current", Link (s "/data"))]);
           ("02012021-120000", dirOf [])])])]);
         ("data", dirOf [("x", File)])]%string.

(** [link_fs] as the removal of the first snapshot leaves it. *)
Definition link_fs_left : node :=
  dirOf [("arch", dirOf [("2021", dirOf [("01", dirOf
          [("01012021-120000", dirOf [("current", Link (s "/data"))]);
           ("02012021-120000", dirOf [])])])]);
         ("data", dirOf [("x", File)])]%string.

End Links.

(** ** File systems without links, seen with the calls that know links *)

(** A tree of directories and regular files as a tree that may hold links. *)
Fixpoint inject (n : node) : Links.node :=
  match n with
  | File => Links.File
  | Dir es => Links.Dir (map (fun e => (fst e, inject (snd e))) es)
  end.

Definition inject_outcome {A : Type} (o : outcome A) : Links.outcome A :=
  match o with
  | Done a fs => Links.Done a (inject fs)
  | Raised e fs => Links.Raised e (inject fs)
  | Timeout => Links.Timeout
  end.

(** [m'] does on a tree without links what [m] does. *)
Definition agree {A : Type} (m : M A) (m' : Links.M A) : Prop :=
  forall fs, m' (inject fs) = inject_outcome (m fs).
(** ** Order lemmas *)

Lemma chr_compare_refl (a : ascii) : Ascii.compare a a = Eq.
Proof. unfold Ascii.compare. apply N.compare_refl. Qed.

Lemma chr_compare_eq (a b : ascii) : Ascii.compare a b = Eq -> a = b.
Proof.
  unfold Ascii.compare. intros H. apply N.compare_eq in H.
  rewrite <- (ascii_N_embedding a), <- (ascii_N_embedding b). now rewrite H.
Qed.

Lemma chr_compare_antisym (a b : ascii) :
  Ascii.compare b a = CompOpp (Ascii.compare a b).
Proof. unfold Ascii.compare. apply N.compare_antisym. Qed.

Lemma chr_compare_lt_trans (a b c : ascii) :
  Ascii.compare a b = Lt -> Ascii.compare b c = Lt -> Ascii.compare a c = Lt.
Proof.
  unfold Ascii.compare. rewrite !N.compare_lt_iff. apply N.lt_trans.
Qed.

Lemma str_compare_refl (a : str) : str_compare a a = Eq.
Proof. induction a; simpl; [|rewrite chr_compare_refl]; auto. Qed.

Lemma str_compare_eq (a b : str) : str_compare a b = Eq -> a = b.
Proof.
  revert b; induction a as [|x a IH]; intros [|y b]; simpl; try discriminate; auto.
  destruct (Ascii.compare x y) eqn:E; try discriminate.
  intros H. apply chr_compare_eq in E. subst. f_equal. auto.
Qed.

Lemma str_compare_antisym (a b : str) :
  str_compare b a = CompOpp (str_compare a b).
Proof.
  revert b; induction a as [|x a IH]; intros [|y b]; simpl; auto.
  rewrite (chr_compare_antisym x y).
  destruct (Ascii.compare x y); simpl; auto.
Qed.

Lemma str_lt_trans (a b c : str) : str_lt a b -> str_lt b c -> str_lt a c.
Proof.
  unfold str_lt. revert b c.
  induction a as [|x a IH]; intros [|y b] [|z c]; simpl; try discriminate; auto.
  destruct (Ascii.compare x y) eqn:Exy; try discriminate;
    destruct (Ascii.compare y z) eqn:Eyz; try discriminate; intros H1 H2.
  - apply chr_compare_eq in Exy, Eyz. subst. rewrite chr_compare_refl. eauto.
  - apply chr_compare_eq in Exy. subst. now rewrite Eyz.
  - apply chr_compare_eq in Eyz. subst. now rewrite Exy.
  - now rewrite (chr_compare_lt_trans _ _ _ Exy Eyz).
Qed.

Lemma str_lt_irrefl (a : str) : ~ str_lt a a.
Proof. unfold str_lt. rewrite str_compare_refl. discriminate. Qed.

Lemma str_le_lt_or_eq (a b : str) : str_le a b <-> str_lt a b \/ a = b.
Proof.
  unfold str_le, str_lt. split.
  - destruct (str_compare a b) eqn:E; intros H; auto.
    + right. now apply str_compare_eq.
    + now elim H.
  - intros [H | ->]; [rewrite H | rewrite str_compare_refl]; discriminate.
Qed.

Lemma str_le_trans (a b c : str) : str_le a b -> str_le b c -> str_le a c.
Proof.
  rewrite !str_le_lt_or_eq. intros [H1 | ->] [H2 | ->]; auto.
  left. eapply str_lt_trans; eauto.
Qed.

Lemma str_leb_le (a b : str) : str_leb a b = true <-> str_le a b.
Proof.
  unfold str_leb, str_le. destruct (str_compare a b); split; congruence.
Qed.

Lemma str_leb_false (a b : str) : str_leb a b = false -> str_le b a.
Proof.
  unfold str_leb, str_le. rewrite (str_compare_antisym a b).
  destruct (str_compare a b); simpl; congruence.
Qed.

Lemma str_ltb_lt (a b : str) : str_ltb a b = true <-> str_lt a b.
Proof.
  unfold str_ltb, str_lt. destruct (str_compare a b); split; congruence.
Qed.

Lemma str_eqb_eq (a b : str) : str_eqb a b = true <-> a = b.
Proof.
  revert b; induction a as [|x a IH]; intros [|y b]; simpl;
    try (split; congruence).
  unfold chr_eqb. rewrite andb_true_iff, Ascii.eqb_eq, IH.
  split; [intros [-> ->]|intros [= -> ->]]; auto.
Qed.

(** ** The sort yields the ascending arrangement *)

Lemma insert_perm (x : str) (l : list str) : Permutation (x :: l) (insert x l).
Proof.
  induction l as [|y l IH]; simpl; auto.
  destruct (str_leb x y); auto.
  rewrite perm_swap. now constructor.
Qed.

Lemma sort_perm (l : list str) : Permutation l (sort l).
Proof.
  induction l as [|x l IH]; simpl; auto.
  rewrite <- insert_perm. now constructor.
Qed.

Lemma insert_sorted (x : str) (l : list str) :
  StronglySorted str_le l -> StronglySorted str_le (insert x l).
Proof.
  induction 1 as [|y l Hl IH Hy]; simpl.
  - constructor; constructor.
  - destruct (str_leb x y) eqn:E.
    + apply str_leb_le in E. constructor; [constructor; auto|].
      constructor; auto.
      rewrite Forall_forall in *. intros z Hz. eapply str_le_trans; eauto.
    + apply str_leb_false in E. constructor; auto.
      rewrite Forall_forall in *. intros z Hz.
      apply (Permutation_in _ (Permutation_sym (insert_perm x l))) in Hz.
      destruct Hz as [<- | Hz]; auto.
Qed.

Lemma sort_sorted (l : list str) : StronglySorted str_le (sort l).
Proof.
  induction l; simpl; [constructor | now apply insert_sorted].
Qed.

Lemma sort_length (l : list str) : length (sort l) = length l.
Proof. symmetry. apply Permutation_length, sort_perm. Qed.

Lemma sorted_app_le (l1 l2 : list str) :
  StronglySorted str_le (l1 ++ l2) ->
  forall x y, In x l1 -> In y l2 -> str_le x y.
Proof.
  induction l1 as [|a l1 IH]; simpl; intros H x y Hx Hy; [easy|].
  inversion H as [|? ? Hs Hall]; subst.
  destruct Hx as [<- | Hx]; eauto.
  rewrite Forall_forall in Hall. apply Hall, in_or_app. now right.
Qed.

Lemma nodup_app_neq {A : Type} (l1 l2 : list A) :
  NoDup (l1 ++ l2) -> forall x y, In x l1 -> In y l2 -> x <> y.
Proof.
  induction l1 as [|a l1 IH]; simpl; intros H x y Hx Hy; [easy|].
  inversion H as [|? ? Hn Hd]; subst.
  destruct Hx as [<- | Hx]; eauto.
  intros ->. apply Hn, in_or_app. now right.
Qed.

(** ** Selection: the sort and the slice *)

Lemma slice_to_firstn {A : Type} (l : list A) (stop : Z) :
  exists n, slice_to l stop = firstn n l /\ n <= length l /\
    Z.of_nat n = (if (stop <? 0)%Z
                  then Z.max 0 (stop + Z.of_nat (length l))
                  else Z.min stop (Z.of_nat (length l))).
Proof.
  unfold slice_to.
  set (z := if (stop <? 0)%Z then _ else _).
  exists (Z.to_nat z). split; [reflexivity|].
  assert (0 <= z <= Z.of_nat (length l))%Z by (subst z; destruct (stop <? 0)%Z eqn:E; lia).
  lia.
Qed.

(** With [entriesToKeep >= 1] the slice is the sorted list less its last
    [entriesToKeep] entries, and what it takes is strictly below what it
    leaves. *)
Lemma pathsToTrim_positive (l : list str) (k : Z) :
  (1 <= k)%Z -> NoDup l ->
  Z.of_nat (length (pathsToTrim l k)) = Z.max 0 (Z.of_nat (length l) - k) /\
  pathsToTrim l k = firstn (length l - Z.to_nat k) (sort l) /\
  sort l = pathsToTrim l k ++ pathsKept l k /\
  StronglySorted str_le (pathsToTrim l k) /\
  (forall x y, In x (pathsToTrim l k) -> In y (pathsKept l k) -> str_lt x y).
Proof.
  intros Hk Hnd.
  assert (Hsel : pathsToTrim l k = firstn (length l - Z.to_nat k) (sort l)).
  { unfold pathsToTrim, slice_to. rewrite sort_length.
    replace (-1 * k <? 0)%Z with true by (symmetry; apply Z.ltb_lt; lia).
    f_equal. lia. }
  assert (Happ : sort l = pathsToTrim l k ++ pathsKept l k).
  { unfold pathsKept. rewrite Hsel at 2. rewrite length_firstn, sort_length.
    rewrite Hsel.
    replace (Nat.min (length l - Z.to_nat k) (length l)) with (length l - Z.to_nat k) by lia.
    now rewrite firstn_skipn. }
  split; [|split; [|split; [|split]]]; auto.
  - rewrite Hsel, length_firstn, sort_length. lia.
  - pose proof (sort_sorted l) as Hs. rewrite Happ in Hs.
    clear - Hs. induction (pathsToTrim l k) as [|a t IH]; [constructor|].
    simpl in Hs. inversion Hs; subst. constructor; auto.
    rewrite Forall_forall in *. intros z Hz. apply H2, in_or_app. now left.
  - intros x y Hx Hy.
    pose proof (sort_sorted l) as Hs. rewrite Happ in Hs.
    pose proof (sorted_app_le _ _ Hs x y Hx Hy) as Hle.
    apply str_le_lt_or_eq in Hle. destruct Hle as [Hlt | ->]; auto.
    exfalso.
    assert (Hnd' : NoDup (pathsToTrim l k ++ pathsKept l k)).
    { rewrite <- Happ. eapply Permutation_NoDup; [apply sort_perm | exact Hnd]. }
    now apply (nodup_app_neq _ _ Hnd' y y Hx Hy).
Qed.

(** C1, at the failing input.  With [entriesToKeep = 0] the slice is
    [matchingPaths[0:0]]: of the three snapshots of the scenario none is
    selected, where the claim counts [max(0, 3 - 0) = 3]. *)
Theorem keep_zero_count_three_snapshots :
  pathsToTrim three_snapshots 0 = [] /\
  Z.of_nat (length (pathsToTrim three_snapshots 0))
    <> Z.max 0 (Z.of_nat (length three_snapshots) - 0).
Proof. split; [reflexivity | discriminate]. Qed.

(** C2, on the code.  With [entriesToKeep = 0] the slice [[0:-0]] is [[0:0]]:
    nothing is selected and every matched entry is retained, whatever the
    list. *)
Theorem keep_zero_selects_nothing (l : list str) :
  pathsToTrim l 0 = [] /\ pathsKept l 0 = sort l.
Proof.
  assert (H : pathsToTrim l 0 = []).
  { unfold pathsToTrim, slice_to. simpl.
    replace (Z.min 0 (Z.of_nat (length (sort l)))) with 0%Z by lia.
    reflexivity. }
  split; [exact H|]. unfold pathsKept. now rewrite H.
Qed.

(** C7, counterexample.  With [entriesToKeep = -1] nothing is raised:
    [trimArchives] returns, and it has removed the oldest snapshot. *)
Lemma negative_keep_not_rejected :
  exists fs',
    trimArchives 10 live (s "/arch") None (-1) true three_fs = Done tt fs' /\
    stat (s "/arch/2021/01/01012021-120000") three_fs <> None /\
    stat (s "/arch/2021/01/01012021-120000") fs' = None.
Proof.
  eexists. split; [vm_compute; reflexivity|].
  split; vm_compute; [discriminate | reflexivity].
Qed.

(** C7, amended.  A negative [entriesToKeep = -j] is not rejected: the slice
    is [[0:j]], the first [min(j, count)] entries of the sorted list. *)
Theorem negative_keep_selects_oldest (l : list str) (k : Z) :
  (k < 0)%Z ->
  pathsToTrim l k = firstn (Z.to_nat (- k)) (sort l) /\
  length (pathsToTrim l k) = Nat.min (Z.to_nat (- k)) (length l).
Proof.
  intros Hk.
  assert (H : pathsToTrim l k = firstn (Z.to_nat (- k)) (sort l)).
  { unfold pathsToTrim, slice_to. rewrite sort_length.
    replace (-1 * k <? 0)%Z with false by (symmetry; apply Z.ltb_ge; lia).
    destruct (Z.min_spec (-1 * k) (Z.of_nat (length l))) as [[Hlt Hm] | [Hge Hm]];
      rewrite Hm.
    - f_equal; try lia.
    - rewrite Nat2Z.id.
      rewrite <- (sort_length l) at 1. rewrite firstn_all.
      symmetry. apply firstn_all2. rewrite sort_length. lia. }
  split; [exact H|].
  rewrite H, length_firstn, sort_length. reflexivity.
Qed.

Lemma negative_keep_selects_oldest_witness :
  pathsToTrim three_snapshots (-2) = firstn (Z.to_nat (- (-2))) (sort three_snapshots) /\
  length (pathsToTrim three_snapshots (-2)) = Nat.min (Z.to_nat (- (-2))) (length three_snapshots).
Proof. apply (negative_keep_selects_oldest three_snapshots (-2)). lia. Defined.

(** ** Archive paths and chronological order *)

Lemma lex_assoc (a b c : comparison) : lex (lex a b) c = lex a (lex b c).
Proof. now destruct a. Qed.

Lemma str_compare_app (a b c d : str) :
  length a = length b ->
  str_compare (a ++ c) (b ++ d) = lex (str_compare a b) (str_compare c d).
Proof.
  revert b; induction a as [|x a IH]; intros [|y b]; simpl; try discriminate; auto.
  intros [= H]. destruct (Ascii.compare x y); simpl; auto.
Qed.

Lemma str_compare_same_prefix (p a b : str) :
  str_compare (p ++ a) (p ++ b) = str_compare a b.
Proof. rewrite str_compare_app, str_compare_refl; auto. Qed.

Lemma digit_compare (a b : nat) :
  a < 10 -> b < 10 -> Ascii.compare (digit a) (digit b) = (a ?= b).
Proof.
  intros Ha Hb.
  do 10 (destruct a as [|a]; [do 10 (destruct b as [|b]; [reflexivity|]); lia|]).
  lia.
Qed.

Lemma digit_is_digit (a : nat) : a < 10 -> is_digit (digit a) = true.
Proof.
  intros Ha. do 10 (destruct a as [|a]; [reflexivity|]). lia.
Qed.

Lemma zero_pad_length (w n : nat) : length (zero_pad w n) = w.
Proof.
  revert n; induction w as [|w IH]; intros n; simpl; auto.
  rewrite length_app, IH. simpl. lia.
Qed.

Lemma zero_pad_digits (w n : nat) : forallb is_digit (zero_pad w n) = true.
Proof.
  revert n; induction w as [|w IH]; intros n; cbn [zero_pad forallb]; auto.
  rewrite forallb_app, IH. cbn [forallb andb].
  rewrite digit_is_digit; auto.
  apply Nat.mod_upper_bound. discriminate.
Qed.

Lemma nat_compare_base10 (n m : nat) :
  (n ?= m) = lex (n / 10 ?= m / 10) (n mod 10 ?= m mod 10).
Proof.
  pose proof (Nat.div_mod_eq n 10) as Hn. pose proof (Nat.div_mod_eq m 10) as Hm.
  pose proof (Nat.mod_upper_bound n 10) as Bn. pose proof (Nat.mod_upper_bound m 10) as Bm.
  destruct (Nat.compare_spec (n / 10) (m / 10)) as [E | L | G]; simpl.
  - destruct (Nat.compare_spec (n mod 10) (m mod 10));
      [apply Nat.compare_eq_iff | apply Nat.compare_lt_iff | apply Nat.compare_gt_iff]; lia.
  - apply Nat.compare_lt_iff. lia.
  - apply Nat.compare_gt_iff. lia.
Qed.

Lemma zero_pad_compare (w n m : nat) :
  n < 10 ^ w -> m < 10 ^ w ->
  str_compare (zero_pad w n) (zero_pad w m) = (n ?= m).
Proof.
  revert n m; induction w as [|w IH]; intros n m Hn Hm.
  - rewrite Nat.pow_0_r in *. assert (n = 0) by lia. assert (m = 0) by lia.
    subst. reflexivity.
  - cbn [zero_pad]. rewrite str_compare_app by (now rewrite !zero_pad_length).
    rewrite IH.
    + cbn [str_compare]. rewrite digit_compare by (apply Nat.mod_upper_bound; discriminate).
      rewrite (nat_compare_base10 n m).
      destruct (n / 10 ?= m / 10); simpl; auto.
      now destruct (n mod 10 ?= m mod 10).
    + rewrite Nat.pow_succ_r' in Hn. apply Nat.Div0.div_lt_upper_bound. lia.
    + rewrite Nat.pow_succ_r' in Hm. apply Nat.Div0.div_lt_upper_bound. lia.
Qed.

Lemma digit_string_not_slash (t : str) :
  forallb is_digit t = true -> forallb not_slash t = true.
Proof.
  induction t as [|c t IH]; simpl; auto.
  rewrite !andb_true_iff. intros [Hc Ht]. split; auto.
  unfold not_slash, is_slash, chr_eqb.
  destruct (Ascii.eqb_spec c slash) as [-> | Hne]; auto; discriminate.
Qed.

Lemma startswith_slash_not (t : str) :
  forallb not_slash t = true -> startswith_slash t = false.
Proof.
  destruct t as [|c t]; simpl; auto.
  rewrite andb_true_iff. unfold not_slash. intros [Hc _].
  now apply negb_true_iff in Hc.
Qed.

Lemma endswith_slash_last (p : str) (c : ascii) :
  endswith_slash (p ++ [c]) = is_slash c.
Proof. unfold endswith_slash. now rewrite rev_app_distr. Qed.

(** What [os.path.join] leaves of its first argument: the directory with the
    separator that follows it. *)
Lemma join2_noslash (a b : str) :
  startswith_slash b = false ->
  join2 a b = (if is_empty a || endswith_slash a then a else a ++ [slash]) ++ b.
Proof.
  intros Hb. unfold join2. rewrite Hb.
  destruct (is_empty a || endswith_slash a); auto.
  now rewrite <- app_assoc.
Qed.

Lemma endswith_slash_app_digits (a t : str) :
  t <> [] -> forallb not_slash t = true -> endswith_slash (a ++ t) = false.
Proof.
  intros Hne Ht. destruct (exists_last Hne) as (t' & c & ->).
  rewrite app_assoc, endswith_slash_last.
  rewrite forallb_app in Ht. simpl in Ht.
  apply andb_true_iff in Ht. destruct Ht as [_ Hc].
  rewrite andb_true_r in Hc. now apply negb_true_iff in Hc.
Qed.

Lemma is_empty_app_nonempty {A : Type} (a t : list A) :
  t <> [] -> is_empty (a ++ t) = false.
Proof. destruct a, t; simpl; auto. congruence. Qed.

Lemma skipn_app_exact {A : Type} (n : nat) (a b : list A) :
  length a = n -> skipn n (a ++ b) = b.
Proof.
  intros <-. rewrite skipn_app, skipn_all, Nat.sub_diag. reflexivity.
Qed.

Lemma firstn_app_exact {A : Type} (n : nat) (a b : list A) :
  length a = n -> firstn n (a ++ b) = a.
Proof.
  intros <-. rewrite firstn_app, firstn_all, Nat.sub_diag. simpl.
  now rewrite app_nil_r.
Qed.

Lemma zero_pad_nonempty (w n : nat) : zero_pad (S w) n <> [].
Proof.
  intros E. apply (f_equal (@length _)) in E.
  rewrite zero_pad_length in E. discriminate.
Qed.

Lemma zero_pad_not_slash (w n : nat) : forallb not_slash (zero_pad w n) = true.
Proof. apply digit_string_not_slash, zero_pad_digits. Qed.

(** The path [backup] builds, spelled out. *)
Lemma thisArchive_spelled (archive : str) (t : struct_time) :
  thisArchive archive t =
  joined_dir archive
  ++ zero_pad 4 (tm_year t) ++ [slash] ++ zero_pad 2 (tm_mon t) ++ [slash]
  ++ strftime_dmY_HMS t.
Proof.
  unfold thisArchive, os_path_join. cbn [fold_left].
  set (dt := strftime_dmY_HMS t).
  assert (Hy : slice dt 4 8 = zero_pad 4 (tm_year t)).
  { unfold slice, dt, strftime_dmY_HMS.
    rewrite (app_assoc (zero_pad 2 _) (zero_pad 2 _)).
    rewrite skipn_app_exact by (rewrite length_app, !zero_pad_length; reflexivity).
    apply firstn_app_exact, zero_pad_length. }
  assert (Hm : slice dt 2 4 = zero_pad 2 (tm_mon t)).
  { unfold slice, dt, strftime_dmY_HMS.
    rewrite skipn_app_exact by apply zero_pad_length.
    apply firstn_app_exact, zero_pad_length. }
  assert (Hd : forallb not_slash dt = true).
  { unfold dt, strftime_dmY_HMS.
    rewrite !forallb_app. cbn [forallb]. rewrite !forallb_app.
    rewrite !zero_pad_not_slash. reflexivity. }
  rewrite Hy, Hm.
  rewrite (join2_noslash archive)
    by apply startswith_slash_not, zero_pad_not_slash.
  fold (joined_dir archive).
  rewrite (join2_noslash (joined_dir archive ++ _))
    by apply startswith_slash_not, zero_pad_not_slash.
  rewrite is_empty_app_nonempty by apply zero_pad_nonempty.
  rewrite endswith_slash_app_digits
    by (try apply zero_pad_nonempty; apply zero_pad_not_slash).
  cbn [orb].
  rewrite (join2_noslash _ dt) by (now apply startswith_slash_not).
  rewrite is_empty_app_nonempty by apply zero_pad_nonempty.
  rewrite endswith_slash_app_digits
    by (try apply zero_pad_nonempty; apply zero_pad_not_slash).
  cbn [orb].
  now rewrite <- !app_assoc.
Qed.

Lemma thisArchive_compare (archive : str) (t1 t2 : struct_time) :
  valid_tm t1 -> valid_tm t2 ->
  str_compare (thisArchive archive t1) (thisArchive archive t2) = tm_compare t1 t2.
Proof.
  intros V1 V2. unfold valid_tm in V1, V2.
  rewrite !thisArchive_spelled, str_compare_same_prefix.
  unfold strftime_dmY_HMS.
  change ("-"%char :: ?x) with (["-"%char] ++ x).
  repeat (rewrite str_compare_app by (now rewrite ?zero_pad_length)).
  rewrite !str_compare_refl.
  assert (P4 : 10 ^ 4 = 10 * 1000) by reflexivity.
  assert (P2 : 10 ^ 2 = 100) by reflexivity.
  rewrite !zero_pad_compare by (rewrite ?P4, ?P2; lia).
  unfold tm_compare. cbn [lex].
  destruct (tm_year t1 ?= tm_year t2); cbn [lex]; auto.
  destruct (tm_mon t1 ?= tm_mon t2); cbn [lex]; auto.
Qed.

Lemma tm_insert_valid (t : struct_time) (l : list struct_time) :
  valid_tm t -> Forall valid_tm l -> Forall valid_tm (tm_insert t l).
Proof.
  intros Ht Hl. induction Hl as [|u l Hu Hl IH]; cbn [tm_insert].
  - apply Forall_cons; auto.
  - destruct (tm_leb t u).
    + apply Forall_cons; auto.
    + apply Forall_cons; auto.
Qed.

Lemma tm_sort_valid (l : list struct_time) :
  Forall valid_tm l -> Forall valid_tm (tm_sort l).
Proof.
  induction 1; cbn [tm_sort]; [apply Forall_nil | now apply tm_insert_valid].
Qed.

Lemma insert_thisArchive (archive : str) (t : struct_time) (l : list struct_time) :
  valid_tm t -> Forall valid_tm l ->
  insert (thisArchive archive t) (map (thisArchive archive) l)
  = map (thisArchive archive) (tm_insert t l).
Proof.
  intros Ht Hl. induction Hl as [|u l Hu Hl IH]; cbn [map insert tm_insert]; auto.
  unfold str_leb, tm_leb. rewrite thisArchive_compare by auto.
  destruct (tm_compare t u); cbn [map]; auto. now rewrite IH.
Qed.

(** C10.  The archive paths [backup] builds from two timestamps compare as
    strings the way the timestamps compare in time, so the ascending sort of
    [trimArchives] lists the snapshots of a set of backups oldest first. *)
Theorem archive_paths_sort_chronologically
        (archive : str) (t1 t2 : struct_time) (ts : list struct_time) :
  valid_tm t1 -> valid_tm t2 -> Forall valid_tm ts ->
  str_compare (thisArchive archive t1) (thisArchive archive t2) = tm_compare t1 t2 /\
  sort (map (thisArchive archive) ts) = map (thisArchive archive) (tm_sort ts).
Proof.
  intros V1 V2 Vs. split; [now apply thisArchive_compare|].
  induction Vs as [|t l Ht Hl IH]; cbn [map sort tm_sort]; auto.
  rewrite IH. apply insert_thisArchive; auto. now apply tm_sort_valid.
Qed.

Lemma archive_paths_sort_chronologically_witness :
  str_compare (thisArchive (s "/arch") tm_a) (thisArchive (s "/arch") tm_b)
    = tm_compare tm_a tm_b /\
  sort (map (thisArchive (s "/arch")) [tm_b; tm_a; tm_c])
    = map (thisArchive (s "/arch")) (tm_sort [tm_b; tm_a; tm_c]).
Proof.
  apply (archive_paths_sort_chronologically (s "/arch") tm_a tm_b [tm_b; tm_a; tm_c]).
  - unfold valid_tm, tm_a; cbn; lia.
  - unfold valid_tm, tm_b; cbn; lia.
  - repeat (apply Forall_cons; [unfold valid_tm; cbn; lia|]). apply Forall_nil.
Defined.

Example thisArchive_tm_a :
  thisArchive (s "/arch") tm_a = s "/arch/2021/01/02012021-120000".
Proof. vm_compute. reflexivity. Qed.

(** ** The default filter *)

Lemma match_here_lits (l : str) (p : pattern) (t : str) :
  match_here (map Lit l ++ p) t = true <->
  exists t', t = l ++ t' /\ match_here p t' = true.
Proof.
  revert t; induction l as [|c l IH]; intros t; simpl.
  - split; [intros H; now exists t | intros (t' & -> & H); auto].
  - destruct t as [|x t].
    + split; [discriminate | intros (t' & [=] & _)].
    + rewrite andb_true_iff, IH. unfold chr_eqb. rewrite Ascii.eqb_eq. split.
      * intros (-> & t' & -> & H). now exists t'.
      * intros (t' & [= -> ->] & H). split; auto. now exists t'.
Qed.

Lemma match_here_digits (n : nat) (p : pattern) (t : str) :
  match_here (digits n ++ p) t = true <->
  exists d t', t = d ++ t' /\ length d = n /\ forallb is_digit d = true /\
               match_here p t' = true.
Proof.
  revert t; induction n as [|n IH]; intros t; simpl.
  - split.
    + intros H. now exists [], t.
    + intros (d & t' & -> & Hl & _ & H). now destruct d.
  - destruct t as [|x t].
    + split; [discriminate|]. intros (d & t' & E & Hl & _). now destruct d.
    + fold (digits n). rewrite andb_true_iff, IH. fold (is_digit x). split.
      * intros (Hx & d & t' & -> & Hl & Hd & H).
        exists (x :: d), t'. simpl. rewrite Hx, Hd, Hl. auto.
      * intros (d & t' & E & Hl & Hd & H).
        destruct d as [|y d]; [discriminate|]. simpl in *.
        injection E as -> ->. injection Hl as Hl.
        apply andb_true_iff in Hd. destruct Hd as [Hy Hd].
        split; auto. now exists d, t'.
Qed.

Lemma at_end_iff (t : str) : at_end t = true <-> t = [] \/ t = [newline].
Proof.
  destruct t as [|c [|c' t]]; simpl.
  - split; auto.
  - unfold chr_eqb. rewrite Ascii.eqb_eq. split.
    + intros ->. now right.
    + intros [H | [= ->]]; [discriminate | reflexivity].
  - split; [discriminate | intros [H | H]; discriminate].
Qed.

Lemma re_search_iff (p : pattern) (t : str) :
  re_search p t = true <-> exists pre suf, t = pre ++ suf /\ match_here p suf = true.
Proof.
  induction t as [|c t IH]; simpl; rewrite orb_true_iff.
  - split.
    + intros [H | H]; [now exists [], [] | discriminate].
    + intros (pre & suf & E & H). symmetry in E. apply app_eq_nil in E.
      destruct E as [-> ->]. auto.
  - rewrite IH. split.
    + intros [H | (pre & suf & -> & H)].
      * now exists [], (c :: t).
      * now exists (c :: pre), suf.
    + intros (pre & suf & E & H). destruct pre as [|x pre]; simpl in E.
      * subst. auto.
      * injection E as -> ->. right. now exists pre, suf.
Qed.

Lemma join2_joined_dir (a b : str) :
  startswith_slash b = false -> join2 a b = joined_dir a ++ b.
Proof. apply join2_noslash. Qed.

Lemma default_filter_spelled (a : str) :
  default_filter a =
  map Lit (joined_dir a) ++ digits 4 ++ map Lit [slash] ++ digits 2
  ++ map Lit [slash] ++ digits 8 ++ map Lit ["-"%char] ++ digits 6 ++ [Eol].
Proof.
  unfold default_filter, re_escape, joined_dir.
  destruct (is_empty a || endswith_slash a); simpl.
  - reflexivity.
  - rewrite map_app. simpl. now rewrite <- app_assoc.
Qed.

(** What the default pattern matches at a given position. *)
Lemma default_filter_here (a t : str) :
  match_here (default_filter a) t = true <->
  exists u, snapshot_shape u /\
            (t = joined_dir a ++ u \/ t = joined_dir a ++ u ++ [newline]).
Proof.
  rewrite default_filter_spelled. split.
  - intros H.
    apply match_here_lits in H. destruct H as (t1 & -> & H).
    apply match_here_digits in H. destruct H as (y & t2 & -> & Ly & Dy & H).
    apply match_here_lits in H. destruct H as (t3 & -> & H).
    apply match_here_digits in H. destruct H as (m & t4 & -> & Lm & Dm & H).
    apply match_here_lits in H. destruct H as (t5 & -> & H).
    apply match_here_digits in H. destruct H as (d & t6 & -> & Ld & Dd & H).
    apply match_here_lits in H. destruct H as (t7 & -> & H).
    apply (match_here_digits 6 [Eol]) in H. destruct H as (h & t8 & -> & Lh & Dh & H).
    simpl in H. rewrite andb_true_r in H. apply at_end_iff in H.
    exists (y ++ slash :: m ++ slash :: d ++ "-"%char :: h). split.
    + exists y, m, d, h. repeat split; auto.
      rewrite !forallb_app, Dy, Dm, Dd, Dh. reflexivity.
    + destruct H as [-> | ->]; [left | right]; cbn [app];
        rewrite ?app_nil_r;
        repeat (rewrite <- app_assoc || rewrite <- app_comm_cons); reflexivity.
  - intros (u & (y & m & d & h & -> & Ly & Lm & Ld & Lh & Hd) & Ht).
    rewrite !forallb_app, !andb_true_iff in Hd. destruct Hd as (Dy & Dm & Dd & Dh).
    assert (G : forall e, at_end e = true ->
      match_here
        (map Lit (joined_dir a) ++ digits 4 ++ map Lit [slash] ++ digits 2
         ++ map Lit [slash] ++ digits 8 ++ map Lit ["-"%char] ++ digits 6 ++ [Eol])
        (joined_dir a ++ y ++ [slash] ++ m ++ [slash] ++ d ++ ["-"%char] ++ h ++ e)
      = true).
    { intros e He.
      apply match_here_lits. eexists; split; [reflexivity|].
      apply match_here_digits. exists y; eexists; repeat split; eauto.
      apply match_here_lits. eexists; split; [reflexivity|].
      apply match_here_digits. exists m; eexists; repeat split; eauto.
      apply match_here_lits. eexists; split; [reflexivity|].
      apply match_here_digits. exists d; eexists; repeat split; eauto.
      apply match_here_lits. eexists; split; [reflexivity|].
      apply (match_here_digits 6 [Eol]). exists h, e; repeat split; auto.
      cbn [match_here]. now rewrite He. }
    destruct Ht as [-> | ->].
    + specialize (G [] eq_refl). rewrite app_nil_r in G.
      cbn [app] in G |- *.
      repeat (rewrite <- app_assoc || rewrite <- app_comm_cons).
      exact G.
    + specialize (G [newline] eq_refl).
      cbn [app] in G |- *.
      repeat (rewrite <- app_assoc || rewrite <- app_comm_cons).
      exact G.
Qed.

Lemma snapshot_shape_not_slash_start (u : str) :
  snapshot_shape u -> startswith_slash u = false.
Proof.
  intros (y & m & d & h & -> & Ly & _ & _ & _ & Hd).
  destruct y as [|c y]; [discriminate|]. simpl in *.
  apply andb_true_iff in Hd. destruct Hd as [Hc _].
  unfold is_slash, chr_eqb.
  destruct (Ascii.eqb_spec c slash) as [-> | ]; auto; discriminate.
Qed.

Lemma snapshot_shape_last_digit (u : str) :
  snapshot_shape u -> exists u' c, u = u' ++ [c] /\ is_digit c = true.
Proof.
  intros (y & m & d & h & -> & _ & _ & _ & Lh & Hd).
  assert (Hne : h <> []) by (intros ->; discriminate).
  destruct (exists_last Hne) as (h' & c & ->).
  exists (y ++ slash :: m ++ slash :: d ++ "-"%char :: h'), c. split.
  - rewrite <- !app_assoc. simpl. rewrite <- !app_assoc. simpl.
    now rewrite <- !app_assoc.
  - rewrite !forallb_app in Hd. simpl in Hd.
    rewrite !andb_true_iff in Hd. tauto.
Qed.

(** The default pattern finds a match in [path] exactly when [path], or
    [path] less one final newline, ends with
    [archiveDir/<4 digits>/<2 digits>/<8 digits>-<6 digits>]. *)
Lemma default_filter_search (a path : str) :
  re_search (default_filter a) path = true <->
  ends_with_snapshot a path \/
  (exists path', path = path' ++ [newline] /\ ends_with_snapshot a path').
Proof.
  rewrite re_search_iff. split.
  - intros (pre & suf & -> & H). apply default_filter_here in H.
    destruct H as (u & Hu & [-> | ->]).
    + left. exists pre, u. split; auto.
      unfold os_path_join. simpl.
      now rewrite join2_joined_dir by (now apply snapshot_shape_not_slash_start).
    + right. exists (pre ++ joined_dir a ++ u). split.
      * now rewrite <- !app_assoc.
      * exists pre, u. split; auto.
        unfold os_path_join. simpl.
        now rewrite join2_joined_dir by (now apply snapshot_shape_not_slash_start).
  - unfold ends_with_snapshot, os_path_join. simpl.
    intros [(pre & u & Hu & ->) | (path' & -> & pre & u & Hu & ->)];
      rewrite join2_joined_dir by (now apply snapshot_shape_not_slash_start).
    + exists pre, (joined_dir a ++ u). split; auto.
      apply default_filter_here. exists u. auto.
    + exists pre, (joined_dir a ++ u ++ [newline]). split.
      * now rewrite <- !app_assoc.
      * apply default_filter_here. exists u. auto.
Qed.

Lemma ends_with_snapshot_last_digit (a path : str) :
  ends_with_snapshot a path -> exists p' c, path = p' ++ [c] /\ is_digit c = true.
Proof.
  intros (pre & u & Hu & ->).
  unfold os_path_join. simpl.
  rewrite join2_joined_dir by (now apply snapshot_shape_not_slash_start).
  destruct (snapshot_shape_last_digit u Hu) as (u' & c & -> & Hc).
  exists (pre ++ joined_dir a ++ u'), c. split; auto.
  now rewrite <- !app_assoc.
Qed.

(** C8, at the failing input.  The entry named ["01012021-120000\n"] is not
    of the snapshot form, yet the default pattern finds a match in its path
    ([$] also matches before a final newline): the walk lists it and, being
    the smallest candidate, it is selected for removal. *)
Theorem newline_name_passes_default_filter :
  let p := s "/arch/2021/01/01012021-120000" ++ [newline] in
  ~ ends_with_snapshot (s "/arch") p /\
  re_search (default_filter (s "/arch")) p = true /\
  trim_select 10 live (s "/arch") None 1 newline_fs = Done [p] newline_fs.
Proof.
  split; [|split; vm_compute; reflexivity].
  intros H. apply ends_with_snapshot_last_digit in H.
  destruct H as (p' & c & E & Hc).
  apply app_inj_tail in E. destruct E as [_ <-]. discriminate.
Qed.

(** ** Path strings and the names they walk through *)

Lemma tokens_app_slash (a b cur : str) :
  tokens cur (a ++ slash :: b) = tokens cur a ++ tokens [] b.
Proof.
  revert cur; induction a as [|c a IH]; intros cur; simpl.
  - now destruct cur.
  - destruct (is_slash c); [destruct cur|]; simpl; now rewrite IH.
Qed.

Lemma tokens_noslash (t cur : str) :
  forallb not_slash t = true ->
  tokens cur t = if is_empty (cur ++ t) then [] else [cur ++ t].
Proof.
  revert cur; induction t as [|c t IH]; intros cur; simpl.
  - intros _. rewrite app_nil_r. now destruct cur.
  - rewrite andb_true_iff. unfold not_slash at 1. intros [Hc Ht].
    apply negb_true_iff in Hc. rewrite Hc, IH by auto.
    now rewrite <- app_assoc.
Qed.

Lemma components_app_slash (a b : str) :
  components (a ++ slash :: b) = components a ++ components b.
Proof. apply tokens_app_slash. Qed.

Lemma components_name (n : str) :
  n <> [] -> forallb not_slash n = true -> components n = [n].
Proof.
  intros Hn Hs. unfold components. rewrite tokens_noslash by auto.
  simpl. now destruct n.
Qed.

Lemma components_slashes (k : nat) : components (repeat slash k) = [].
Proof. induction k; simpl; auto. Qed.

Lemma components_app_slashes (a : str) (k : nat) :
  components (a ++ repeat slash k) = components a.
Proof.
  destruct k as [|k]; simpl.
  - now rewrite app_nil_r.
  - now rewrite components_app_slash, components_slashes, app_nil_r.
Qed.

Lemma valid_name_inv (n : str) :
  valid_name n = true -> n <> [] /\ forallb not_slash n = true.
Proof.
  unfold valid_name. rewrite !andb_true_iff. intros [[[H1 H2] _] _].
  split; auto. now destruct n.
Qed.

Lemma endswith_slash_inv (p : str) :
  endswith_slash p = true -> exists p', p = p' ++ [slash].
Proof.
  unfold endswith_slash. destruct (rev p) as [|c r] eqn:E; [discriminate|].
  intros Hc. unfold is_slash, chr_eqb in Hc. apply Ascii.eqb_eq in Hc. subst c.
  exists (rev r). rewrite <- (rev_involutive p), E. reflexivity.
Qed.

Lemma components_joined_dir (a : str) : components (joined_dir a) = components a.
Proof.
  unfold joined_dir. destruct (is_empty a || endswith_slash a); auto.
  change [slash] with (slash :: []).
  now rewrite components_app_slash, app_nil_r.
Qed.

Lemma joined_dir_slash (a : str) :
  a <> [] -> exists a', joined_dir a = a' ++ [slash] /\ components a' = components a.
Proof.
  intros Ha. unfold joined_dir.
  destruct a as [|c a]; [congruence|]. simpl is_empty. simpl orb.
  destruct (endswith_slash (c :: a)) eqn:E.
  - destruct (endswith_slash_inv _ E) as (a' & ->). exists a'. split; auto.
    change [slash] with (slash :: []).
    now rewrite components_app_slash, app_nil_r.
  - now exists (c :: a).
Qed.

Lemma join_name (top n : str) :
  valid_name n = true -> os_path_join top [n] = joined_dir top ++ n.
Proof.
  intros Hn. apply valid_name_inv in Hn. destruct Hn as [_ Hn].
  unfold os_path_join. simpl. apply join2_joined_dir.
  now apply startswith_slash_not.
Qed.

(** Joining a name to a directory walks one name further. *)
Lemma resolve_join (top n : str) (cs : list str) :
  resolve top = Some cs -> valid_name n = true ->
  resolve (os_path_join top [n]) = Some (cs ++ [n]).
Proof.
  intros Ht Hn. rewrite join_name by auto.
  apply valid_name_inv in Hn. destruct Hn as [Hne Hns].
  destruct top as [|c top]; [discriminate|]. injection Ht as <-.
  destruct (joined_dir_slash (c :: top)) as (a' & E & Ha'); [discriminate|].
  rewrite E, <- app_assoc. simpl app at 2.
  unfold resolve. destruct (a' ++ slash :: n) eqn:E2.
  - destruct a'; discriminate.
  - rewrite <- E2, components_app_slash, Ha', (components_name n); auto.
Qed.

Lemma take_drop_while {A : Type} (f : A -> bool) (l : list A) :
  take_while f l ++ drop_while f l = l.
Proof.
  induction l as [|x l IH]; simpl; auto.
  destruct (f x); simpl; now rewrite ?IH.
Qed.

Lemma take_while_all {A : Type} (f : A -> bool) (l : list A) :
  forallb f (take_while f l) = true.
Proof.
  induction l as [|x l IH]; simpl; auto.
  destruct (f x) eqn:E; simpl; auto. now rewrite E.
Qed.

Lemma drop_while_head {A : Type} (f : A -> bool) (l : list A) :
  match drop_while f l with [] => True | x :: _ => f x = false end.
Proof.
  induction l as [|x l IH]; simpl; auto.
  destruct (f x) eqn:E; auto.
Qed.

Lemma take_while_app_stop {A : Type} (f : A -> bool) (l1 l2 : list A) (x : A) :
  forallb f l1 = true -> f x = false -> take_while f (l1 ++ x :: l2) = l1.
Proof.
  intros H1 Hx. induction l1 as [|y l1 IH]; simpl in *.
  - now rewrite Hx.
  - apply andb_true_iff in H1. destruct H1 as [Hy H1]. rewrite Hy. f_equal. auto.
Qed.

Lemma forallb_rev {A : Type} (f : A -> bool) (l : list A) :
  forallb f (rev l) = forallb f l.
Proof.
  induction l as [|x l IH]; simpl; auto.
  rewrite forallb_app, IH. simpl. rewrite andb_true_r. apply andb_comm.
Qed.

Lemma all_slash_repeat (l : str) :
  forallb is_slash l = true -> l = repeat slash (length l).
Proof.
  induction l as [|c l IH]; simpl; auto.
  rewrite andb_true_iff. intros [Hc Hl].
  unfold is_slash, chr_eqb in Hc. apply Ascii.eqb_eq in Hc. subst. f_equal. auto.
Qed.

Lemma rstrip_slash_spec (h : str) :
  exists k, h = rstrip_slash h ++ repeat slash k.
Proof.
  unfold rstrip_slash.
  pose proof (take_drop_while is_slash (rev h)) as E.
  pose proof (take_while_all is_slash (rev h)) as Hall.
  exists (length (take_while is_slash (rev h))).
  rewrite <- (rev_involutive h) at 1. rewrite <- E at 1.
  rewrite rev_app_distr. f_equal.
  rewrite <- forallb_rev in Hall. apply all_slash_repeat in Hall.
  now rewrite length_rev in Hall.
Qed.

Lemma components_rstrip (h : str) : components (rstrip_slash h) = components h.
Proof.
  destruct (rstrip_slash_spec h) as (k & E).
  rewrite E at 2. now rewrite components_app_slashes.
Qed.

(** [os.path.split], characterised: the tail is the longest suffix without
    ['/'], the head is what precedes it, less its final slashes unless it is
    made of slashes only. *)
Lemma os_path_split_spec (p : str) :
  exists h0 t,
    p = h0 ++ t /\ forallb not_slash t = true /\
    (h0 = [] \/ exists h1, h0 = h1 ++ [slash]) /\
    os_path_split p =
      (if negb (is_empty h0) && negb (forallb is_slash h0) then rstrip_slash h0 else h0, t).
Proof.
  pose proof (take_drop_while not_slash (rev p)) as E.
  pose proof (take_while_all not_slash (rev p)) as Htw.
  pose proof (drop_while_head not_slash (rev p)) as Hh.
  unfold os_path_split.
  remember (take_while not_slash (rev p)) as tw eqn:Etw.
  remember (drop_while not_slash (rev p)) as dw eqn:Edw.
  clear Etw Edw.
  assert (Ep : p = rev dw ++ rev tw).
  { rewrite <- rev_app_distr, E. now rewrite rev_involutive. }
  exists (rev dw), (rev tw). split; [exact Ep|]. split; [|split].
  - now rewrite forallb_rev.
  - destruct dw as [|c dw']; [now left|]. right.
    exists (rev dw'). cbn [rev]. f_equal.
    unfold not_slash in Hh. apply negb_false_iff in Hh.
    unfold is_slash, chr_eqb in Hh. apply Ascii.eqb_eq in Hh. now rewrite Hh.
  - assert (Hi : length p - length tw = length (rev dw)).
    { rewrite Ep. rewrite length_app, !length_rev. lia. }
    rewrite Hi.
    assert (F : firstn (length (rev dw)) p = rev dw).
    { rewrite Ep at 1. apply firstn_app_exact. reflexivity. }
    assert (S : skipn (length (rev dw)) p = rev tw).
    { rewrite Ep at 1. apply skipn_app_exact. reflexivity. }
    now rewrite F, S.
Qed.

Lemma os_path_split_join (top n : str) :
  top <> [] -> valid_name n = true ->
  exists h, os_path_split (os_path_join top [n]) = (h, n) /\
            h <> [] /\ components h = components top /\
            h <> os_path_join top [n].
Proof.
  intros Ht Hn. rewrite join_name by auto.
  apply valid_name_inv in Hn. destruct Hn as [Hne Hns].
  destruct (joined_dir_slash top Ht) as (a' & E & Ha').
  pose proof (components_joined_dir top) as Hcj.
  remember (joined_dir top) as h0 eqn:Eh0. clear Eh0.
  assert (Htw : take_while not_slash (rev (h0 ++ n)) = rev n).
  { rewrite rev_app_distr, E, rev_app_distr. cbn [rev app].
    apply take_while_app_stop; [now rewrite forallb_rev | reflexivity]. }
  assert (Hi : length (h0 ++ n) - length (rev n) = length h0).
  { rewrite length_app, length_rev. lia. }
  assert (Hh0 : h0 <> []) by (rewrite E; now destruct a').
  unfold os_path_split. rewrite Htw, Hi.
  rewrite firstn_app_exact, skipn_app_exact by reflexivity.
  eexists. split; [reflexivity|].
  assert (Hlen : forall h, (exists k, h0 = h ++ repeat slash k) ->
                           h <> h0 ++ n).
  { intros h (k & Ek) Eh. apply (f_equal (@length _)) in Eh.
    rewrite Ek, !length_app, repeat_length in Eh.
    destruct n; [congruence | cbn [length] in Eh; lia]. }
  destruct (rstrip_slash_spec h0) as (k & Ek).
  destruct (negb (is_empty h0) && negb (forallb is_slash h0)) eqn:B.
  - split; [|split].
    + apply andb_true_iff in B. destruct B as [_ B]. apply negb_true_iff in B.
      intros Er. rewrite Er in Ek. cbn [app] in Ek.
      enough (forallb is_slash h0 = true) by congruence.
      rewrite Ek. apply forallb_forall. intros x Hx.
      apply repeat_spec in Hx. now subst.
    + now rewrite components_rstrip.
    + apply Hlen. now exists k.
  - split; [auto|split]; auto.
    apply Hlen. exists 0. cbn. now rewrite app_nil_r.
Qed.

(** The head [os.path.split] returns walks through an initial part of the
    names of the path. *)
Lemma os_path_split_prefix (p : str) :
  fst (os_path_split p) <> [] ->
  exists r, components p = components (fst (os_path_split p)) ++ r.
Proof.
  destruct (os_path_split_spec p) as (h0 & t & Ep & Ht & Hh0 & ->). cbn [fst].
  intros Hne.
  assert (Hc : components (if negb (is_empty h0) && negb (forallb is_slash h0)
                           then rstrip_slash h0 else h0) = components h0).
  { destruct (negb (is_empty h0) && negb (forallb is_slash h0)); auto.
    apply components_rstrip. }
  rewrite Hc. destruct Hh0 as [-> | (h1 & ->)].
  - now elim Hne.
  - exists (components t). rewrite Ep, <- app_assoc. cbn [app].
    rewrite !components_app_slash. now rewrite app_nil_r.
Qed.

(** Unless it returns the path itself, the head is shorter than the path. *)
Lemma os_path_split_shorter (p : str) :
  fst (os_path_split p) <> p ->
  length (fst (os_path_split p)) < length p.
Proof.
  destruct (os_path_split_spec p) as (h0 & t & Ep & Ht & Hh0 & ->). cbn [fst].
  destruct (rstrip_slash_spec h0) as (k & Ek).
  assert (L0 : length h0 = length (rstrip_slash h0) + k).
  { rewrite Ek at 1. now rewrite length_app, repeat_length. }
  assert (Lp : length p = length h0 + length t) by (rewrite Ep; apply length_app).
  destruct (negb (is_empty h0) && negb (forallb is_slash h0)); intros Hne.
  - destruct k as [|k]; [|lia]. destruct t as [|c t]; [|cbn [length] in Lp; lia].
    exfalso. apply Hne. rewrite Ep, app_nil_r. rewrite Ek at 2. cbn.
    now rewrite app_nil_r.
  - destruct t as [|c t]; [|cbn [length] in Lp; lia].
    exfalso. apply Hne. now rewrite Ep, app_nil_r.
Qed.

(** ** Trees *)

Lemma node_induction (P : node -> Prop) :
  P File -> (forall es, Forall (fun e => P (snd e)) es -> P (Dir es)) ->
  forall n, P n.
Proof.
  intros HF HD. fix IH 1. intros [|es]; [exact HF|]. apply HD.
  induction es as [|[c x] es IHes]; constructor; [apply IH | exact IHes].
Qed.

Lemma str_eqb_refl (a : str) : str_eqb a a = true.
Proof. now apply str_eqb_eq. Qed.

Lemma str_eqb_neq (a b : str) : str_eqb a b = false <-> a <> b.
Proof.
  destruct (str_eqb a b) eqn:E.
  - apply str_eqb_eq in E. split; congruence.
  - split; auto. intros _ H. apply str_eqb_eq in H. congruence.
Qed.

Lemma is_prefix_iff (l1 l2 : list str) :
  is_prefix l1 l2 = true <-> exists r, l2 = l1 ++ r.
Proof.
  revert l2; induction l1 as [|x l1 IH]; intros l2; cbn [is_prefix].
  - split; [intros _; now exists l2 | reflexivity].
  - destruct l2 as [|y l2].
    + split; [discriminate | intros (r & [=])].
    + rewrite andb_true_iff, str_eqb_eq, IH. split.
      * intros (-> & r & ->). now exists r.
      * intros (r & [= -> ->]). eauto.
Qed.

Lemma is_prefix_refl (l : list str) : is_prefix l l = true.
Proof. apply is_prefix_iff. exists []. now rewrite app_nil_r. Qed.

Lemma is_prefix_trans (l1 l2 l3 : list str) :
  is_prefix l1 l2 = true -> is_prefix l2 l3 = true -> is_prefix l1 l3 = true.
Proof.
  rewrite !is_prefix_iff. intros (r & ->) (r' & ->).
  exists (r ++ r'). now rewrite app_assoc.
Qed.

Lemma lookup_In (name : str) (es : list (str * node)) (x : node) :
  lookup name es = Some x -> In (name, x) es.
Proof.
  induction es as [|[n y] es IH]; cbn [lookup]; [discriminate|].
  destruct (str_eqb n name) eqn:E.
  - apply str_eqb_eq in E. intros [= ->]. left. now subst.
  - intros H. right. auto.
Qed.

Lemma lookup_names (name : str) (es : list (str * node)) :
  lookup name es = None <-> ~ In name (map fst es).
Proof.
  induction es as [|[n y] es IH]; cbn [lookup map fst In].
  - tauto.
  - destruct (str_eqb n name) eqn:E.
    + apply str_eqb_eq in E. split; [discriminate | intros H; elim H; auto].
    + apply str_eqb_neq in E. rewrite IH. tauto.
Qed.

Lemma lookup_remove_same (c : str) (es : list (str * node)) :
  lookup c (remove_entry c es) = None.
Proof.
  unfold remove_entry. induction es as [|[n y] es IH]; cbn; auto.
  destruct (str_eqb n c) eqn:E; cbn; auto. now rewrite E.
Qed.

Lemma lookup_remove_other (c c' : str) (es : list (str * node)) :
  c <> c' -> lookup c' (remove_entry c es) = lookup c' es.
Proof.
  intros Hne. unfold remove_entry. induction es as [|[n y] es IH]; cbn; auto.
  destruct (str_eqb n c) eqn:E; cbn.
  - apply str_eqb_eq in E. subst n.
    apply str_eqb_neq in Hne. now rewrite Hne.
  - now rewrite IH.
Qed.

Lemma lookup_set_same (c : str) (x y : node) (es : list (str * node)) :
  lookup c es = Some x -> lookup c (set_entry c y es) = Some y.
Proof.
  unfold set_entry. induction es as [|[n z] es IH]; cbn; [discriminate|].
  destruct (str_eqb n c) eqn:E; cbn; rewrite E; auto.
Qed.

Lemma lookup_set_other (c c' : str) (y : node) (es : list (str * node)) :
  c <> c' -> lookup c' (set_entry c y es) = lookup c' es.
Proof.
  intros Hne. unfold set_entry. induction es as [|[n z] es IH]; cbn; auto.
  destruct (str_eqb n c) eqn:E; cbn.
  - apply str_eqb_eq in E. subst n.
    apply str_eqb_neq in Hne. now rewrite Hne.
  - now rewrite IH.
Qed.

Lemma nodupb_NoDup (l : list str) : nodupb l = true -> NoDup l.
Proof.
  induction l as [|x l IH]; cbn [nodupb]; [constructor|].
  rewrite andb_true_iff, negb_true_iff. intros [Hx Hl]. constructor; auto.
  intros Hin. enough (existsb (str_eqb x) l = true) by congruence.
  apply existsb_exists. exists x. split; auto. apply str_eqb_refl.
Qed.

Lemma wf_Dir (es : list (str * node)) :
  wf (Dir es) = true ->
  NoDup (map fst es) /\
  forall n x, In (n, x) es -> valid_name n = true /\ wf x = true.
Proof.
  cbn [wf]. rewrite !andb_true_iff, !forallb_forall.
  intros [[Hv Hn] Hw]. split; [now apply nodupb_NoDup|].
  intros n x Hin. split; [apply (Hv _ Hin) | apply (Hw _ Hin)].
Qed.

Lemma height_entry (es : list (str * node)) (n : str) (x : node) :
  In (n, x) es -> height x < height (Dir es).
Proof.
  intros Hin. cbn [height].
  assert (H : In (height x) (map (fun e => height (snd e)) es)).
  { apply in_map_iff. now exists (n, x). }
  pose proof (proj1 (list_max_le (map (fun e => height (snd e)) es) _)
                     (Nat.le_refl _)) as Hall.
  rewrite Forall_forall in Hall. specialize (Hall _ H). lia.
Qed.

Lemma find_app (cs q : list str) (fs : node) :
  find (cs ++ q) fs =
  match find cs fs with Some t => find q t | None => None end.
Proof.
  revert fs; induction cs as [|c cs IH]; intros fs; cbn [app find]; auto.
  destruct fs as [|es]; auto. destruct (lookup c es); auto.
Qed.

Lemma wf_find (cs : list str) (fs t : node) :
  wf fs = true -> find cs fs = Some t -> wf t = true.
Proof.
  revert fs; induction cs as [|c cs IH]; intros fs Hwf; cbn [find].
  - now intros [= <-].
  - destruct fs as [|es]; [discriminate|].
    destruct (lookup c es) as [x|] eqn:E; [|discriminate].
    apply lookup_In in E. apply (proj2 (wf_Dir _ Hwf)) in E. now apply IH.
Qed.

Lemma height_find (cs : list str) (fs t : node) :
  find cs fs = Some t -> height t <= height fs.
Proof.
  revert fs; induction cs as [|c cs IH]; intros fs; cbn [find].
  - now intros [= <-].
  - destruct fs as [|es]; [discriminate|].
    destruct (lookup c es) as [x|] eqn:E; [|discriminate].
    apply lookup_In, height_entry in E. intros H. apply IH in H. lia.
Qed.

Lemma delete_find (ok : node -> bool) (cs : list str) (fs fs' : node) :
  delete ok cs fs = Some fs' -> exists x, find cs fs = Some x /\ ok x = true.
Proof.
  revert fs fs'; induction cs as [|c cs IH]; intros fs fs'; cbn [delete find].
  - discriminate.
  - destruct fs as [|es]; [discriminate|].
    destruct (lookup c es) as [x|]; [|discriminate].
    destruct cs as [|c2 cs].
    + destruct (ok x) eqn:E; [|discriminate]. intros _. now exists x.
    + destruct (delete ok (c2 :: cs) x) as [x'|] eqn:D; [|discriminate].
      intros _. eapply IH; eauto.
Qed.

Lemma delete_is_dir (ok : node -> bool) (cs : list str) (fs fs' : node) :
  delete ok cs fs = Some fs' -> is_dir fs = true /\ is_dir fs' = true.
Proof.
  destruct cs as [|c cs]; cbn [delete]; [discriminate|].
  destruct fs as [|es]; [discriminate|].
  destruct (lookup c es) as [x|]; [|discriminate].
  destruct cs; [destruct (ok x)|destruct (delete ok _ x)]; try discriminate;
    intros [= <-]; auto.
Qed.

(** Unlinking an entry changes nothing outside what lies under it. *)
Lemma delete_kind_other (ok : node -> bool) (d : list str) (fs fs' : node) :
  delete ok d fs = Some fs' ->
  forall a, is_prefix d a = false -> kind_at a fs' = kind_at a fs.
Proof.
  revert fs fs'; induction d as [|c d IH]; intros fs fs' Hd a Ha.
  - discriminate.
  - destruct a as [|c' a].
    + destruct (delete_is_dir _ _ _ _ Hd) as [H1 H2].
      unfold kind_at. cbn [find option_map]. now rewrite H1, H2.
    + cbn [delete] in Hd. destruct fs as [|es]; [discriminate|].
      destruct (lookup c es) as [x|] eqn:E; [|discriminate].
      cbn [is_prefix] in Ha. unfold kind_at. cbn [find].
      destruct (str_eqb c c') eqn:Ec.
      * apply str_eqb_eq in Ec. subst c'. cbn [andb] in Ha.
        destruct d as [|c2 d]; [discriminate|].
        destruct (delete ok (c2 :: d) x) as [x'|] eqn:D; [|discriminate].
        injection Hd as <-. rewrite (lookup_set_same _ _ x' _ E), E.
        apply (IH _ _ D _ Ha).
      * apply str_eqb_neq in Ec.
        destruct d as [|c2 d].
        -- destruct (ok x); [|discriminate]. injection Hd as <-.
           now rewrite lookup_remove_other.
        -- destruct (delete ok (c2 :: d) x) as [x'|]; [|discriminate].
           injection Hd as <-. now rewrite lookup_set_other.
Qed.

(** What lay under an unlinked entry is gone with it. *)
Lemma delete_gone (ok : node -> bool) (d : list str) (fs fs' : node) :
  delete ok d fs = Some fs' ->
  forall a, is_prefix d a = true -> find a fs' = None.
Proof.
  revert fs fs'; induction d as [|c d IH]; intros fs fs' Hd a Ha.
  - discriminate.
  - destruct a as [|c' a]; [discriminate|].
    cbn [is_prefix] in Ha. apply andb_true_iff in Ha. destruct Ha as [Ec Ha].
    apply str_eqb_eq in Ec. subst c'.
    cbn [delete] in Hd. destruct fs as [|es]; [discriminate|].
    destruct (lookup c es) as [x|] eqn:E; [|discriminate].
    destruct d as [|c2 d].
    + destruct (ok x); [|discriminate]. injection Hd as <-.
      cbn [find]. now rewrite lookup_remove_same.
    + destruct (delete ok (c2 :: d) x) as [x'|] eqn:D; [|discriminate].
      injection Hd as <-. cbn [find]. rewrite (lookup_set_same _ _ x' _ E).
      apply (IH _ _ D _ Ha).
Qed.

(** A directory that [os.rmdir] accepts has nothing under it. *)
Lemma delete_empty_below (d : list str) (fs fs' : node) :
  delete is_empty_dir d fs = Some fs' ->
  forall a, is_prefix d a = true -> a <> d -> find a fs = None.
Proof.
  intros Hd a Ha Hne. apply delete_find in Hd. destruct Hd as (x & Hx & Hok).
  apply is_prefix_iff in Ha. destruct Ha as (r & ->).
  rewrite find_app, Hx. destruct x as [|[|e es]]; try discriminate.
  destruct r as [|c r]; [now rewrite app_nil_r in Hne|]. reflexivity.
Qed.

(** ** The pruning of empty parents *)

Lemma resolve_some (p : str) (cs : list str) :
  resolve p = Some cs -> p <> [] /\ cs = components p.
Proof. destruct p; cbn [resolve]; [discriminate|]. intros [= <-]. now split. Qed.

Lemma os_listdir_nonempty_path (p : str) (fs : node) (names : list str) :
  os_listdir p fs = Some names -> p <> [].
Proof. intros H ->. discriminate. Qed.

Lemma on_the_way_up (p d : str) :
  fst (os_path_split p) <> [] ->
  on_the_way (fst (os_path_split p)) d -> on_the_way p d.
Proof.
  intros Hne [Hd (r & Hr)]. split; auto.
  destruct (os_path_split_prefix p Hne) as (r' & Hr').
  exists (r ++ r'). now rewrite Hr', Hr, app_assoc.
Qed.

Lemma on_the_way_parent (p : str) :
  fst (os_path_split p) <> [] -> on_the_way p (fst (os_path_split p)).
Proof. intros Hne. split; auto. now apply os_path_split_prefix. Qed.

(** What a run of the loop leaves is what removing, in turn, directories on
    the way to [p] that listed nothing gives. *)
Lemma prune_parents_sequence (fuel : nat) (self : RSyncBackup) (p : str) (fs fs' : node) :
  final (prune_parents fuel self p fs) = Some fs' ->
  exists ds, remove_empties ds fs = Some fs' /\ Forall (on_the_way p) ds.
Proof.
  revert p fs; induction fuel as [|fuel IH]; intros p fs; cbn [prune_parents].
  - discriminate.
  - destruct (str_eqb p (fst (os_path_split p))).
    + cbn. intros [= <-]. now exists [].
    + unfold bind at 1. unfold ask.
      destruct (os_listdir (fst (os_path_split p)) fs) as [names|] eqn:L.
      2:{ cbn. intros [= <-]. now exists []. }
      assert (Hne : fst (os_path_split p) <> []) by (intros E; rewrite E in L; discriminate).
      destruct names as [|n names]; cbn [length Nat.eqb].
      2:{ cbn. intros [= <-]. now exists []. }
      unfold bind. destruct (testRun self).
      * cbn [ret]. intros H. apply IH in H. destruct H as (ds & H1 & H2).
        exists ds. split; auto.
        eapply Forall_impl; [|exact H2]. intros d. now apply on_the_way_up.
      * unfold sys. destruct (os_rmdir (fst (os_path_split p)) fs) as [fs1|] eqn:R.
        2:{ cbn. intros [= <-]. now exists []. }
        intros H. apply IH in H. destruct H as (ds & H1 & H2).
        exists (fst (os_path_split p) :: ds). split.
        -- cbn [remove_empties]. now rewrite L, R.
        -- constructor; [now apply on_the_way_parent|].
           eapply Forall_impl; [|exact H2]. intros d. now apply on_the_way_up.
Qed.

(** A parent that lists an entry ends the loop where it stands. *)
Lemma prune_parents_stops (fuel : nat) (self : RSyncBackup) (p : str) (fs : node)
      (names : list str) :
  fst (os_path_split p) <> p ->
  os_listdir (fst (os_path_split p)) fs = Some names -> names <> [] ->
  prune_parents (S fuel) self p fs = Done tt fs.
Proof.
  intros Hne L Hn. cbn [prune_parents].
  destruct (str_eqb p (fst (os_path_split p))) eqn:E.
  - apply str_eqb_eq in E. congruence.
  - unfold bind, ask. rewrite L. destruct names; [congruence|]. reflexivity.
Qed.

(** The loop ends: every round goes to a shorter path. *)
Lemma prune_parents_terminates (fuel : nat) (self : RSyncBackup) (p : str) (fs : node) :
  length p < fuel -> prune_parents fuel self p fs <> Timeout.
Proof.
  revert p fs; induction fuel as [|fuel IH]; intros p fs Hf; [lia|].
  cbn [prune_parents].
  destruct (str_eqb p (fst (os_path_split p))) eqn:E; [discriminate|].
  apply str_eqb_neq in E.
  assert (Hs : length (fst (os_path_split p)) < fuel).
  { pose proof (os_path_split_shorter p (fun H => E (eq_sym H))). lia. }
  unfold bind at 1. unfold ask.
  destruct (os_listdir (fst (os_path_split p)) fs) as [names|]; [|discriminate].
  destruct (length names =? 0); [|discriminate].
  unfold bind. destruct (testRun self).
  - cbn [ret]. now apply IH.
  - unfold sys. destruct (os_rmdir (fst (os_path_split p)) fs); [|discriminate].
    now apply IH.
Qed.

(** C4.  Whatever the pruning loop leaves behind comes from removing, one
    after the other, directories on the way to the removed path, each
    listing no entry at the moment it was removed; and a parent that lists
    any entry is left alone and ends the loop there, without an error. *)
Theorem prune_removes_only_empty_dirs
        (fuel : nat) (self : RSyncBackup) (p : str) (fs fs' : node) :
  final (prune_parents fuel self p fs) = Some fs' ->
  (exists ds, remove_empties ds fs = Some fs' /\ Forall (on_the_way p) ds) /\
  (forall names,
      fst (os_path_split p) <> p ->
      os_listdir (fst (os_path_split p)) fs = Some names -> names <> [] ->
      prune_parents fuel self p fs = Done tt fs /\ fs' = fs).
Proof.
  intros H. split; [exact (prune_parents_sequence fuel self p fs fs' H)|].
  intros names Hne L Hn. destruct fuel as [|fuel]; [discriminate|].
  rewrite (prune_parents_stops fuel self p fs names Hne L Hn) in *.
  cbn in H. injection H as <-. auto.
Qed.

Lemma prune_removes_only_empty_dirs_witness :
  (exists ds, remove_empties ds chain_fs = Some chain_fs_pruned /\
              Forall (on_the_way (s "/arch/2021/01/01012021-120000")) ds) /\
  (forall names,
      fst (os_path_split (s "/arch/2021/01/01012021-120000"))
        <> s "/arch/2021/01/01012021-120000" ->
      os_listdir (fst (os_path_split (s "/arch/2021/01/01012021-120000"))) chain_fs
        = Some names -> names <> [] ->
      prune_parents 40 live (s "/arch/2021/01/01012021-120000") chain_fs
        = Done tt chain_fs /\ chain_fs_pruned = chain_fs).
Proof.
  apply (prune_removes_only_empty_dirs 40 live (s "/arch/2021/01/01012021-120000")
           chain_fs chain_fs_pruned).
  vm_compute. reflexivity.
Defined.

Lemma find_prefix_exists (a r : list str) (fs : node) :
  find (a ++ r) fs <> None -> find a fs <> None.
Proof. rewrite find_app. now destruct (find a fs). Qed.

Lemma kind_at_find (a : list str) (fs : node) :
  kind_at a fs = None <-> find a fs = None.
Proof. unfold kind_at. destruct (find a fs); cbn; split; congruence. Qed.

(** Removing empty directories on the way to [p] leaves alone whatever is
    not on that way, and everything above it. *)
Lemma remove_empties_keeps (p : str) (ds : list str) (fs fs' : node) (q : list str) :
  remove_empties ds fs = Some fs' -> Forall (on_the_way p) ds ->
  find q fs <> None -> is_prefix q (components p) = false ->
  forall a, is_prefix a q = true -> kind_at a fs' = kind_at a fs.
Proof.
  revert fs; induction ds as [|d ds IH]; intros fs Hr Hall Hq Hoff a Ha;
    cbn [remove_empties] in Hr.
  - now injection Hr as <-.
  - destruct (os_listdir d fs) as [[|n names]|]; try discriminate.
    destruct (os_rmdir d fs) as [fs1|] eqn:R; [|discriminate].
    inversion Hall as [|? ? [Hd (r & Hdr)] Hall']; subst.
    unfold os_rmdir in R. destruct (resolve d) as [cd|] eqn:Rd; [|discriminate].
    apply resolve_some in Rd. destruct Rd as [_ ->].
    assert (Hoffd : forall a', is_prefix a' q = true ->
                               is_prefix (components d) a' = false).
    { intros a' Ha'. destruct (is_prefix (components d) a') eqn:P; auto.
      exfalso. pose proof (is_prefix_trans _ _ _ P Ha') as Pq.
      destruct (list_eq_dec (list_eq_dec Ascii.ascii_dec) q (components d)) as [E | Hne].
      - rewrite E in Hoff. rewrite Hdr in Hoff.
        enough (is_prefix (components d) (components d ++ r) = true) by congruence.
        apply is_prefix_iff. now exists r.
      - apply Hq. eapply delete_empty_below; eauto. }
    assert (K : forall a', is_prefix a' q = true -> kind_at a' fs1 = kind_at a' fs).
    { intros a' Ha'. eapply delete_kind_other; eauto. }
    rewrite <- (K a Ha). apply (IH fs1); auto.
    rewrite <- kind_at_find, (K q (is_prefix_refl q)), kind_at_find. exact Hq.
Qed.

(** C3, counterexample.  The only snapshot of [/arch] holds a copy of an
    archive tree, whose path also matches the default pattern; with one entry
    to keep the outer snapshot is removed, the archive is left empty, and the
    loop removes [/arch/2021/01], [/arch/2021] and then [/arch] itself. *)
Lemma boundary_removed_when_left_empty :
  exists fs',
    trimArchives 80 live (s "/arch") None 1 true nested_fs = Done tt fs' /\
    os_path_isdir (s "/arch") nested_fs = true /\
    stat (s "/arch") fs' = None.
Proof.
  eexists. split; [vm_compute; reflexivity|]. split; vm_compute; reflexivity.
Qed.

(** C3, amended.  The loop knows no boundary: it stops at the first parent
    that lists an entry (or at the root).  So a directory [b], and every
    directory above it, is still there after the loop whenever some entry [q]
    under [b] exists that is not on the way to the removed path [p]. *)
Theorem prune_keeps_occupied_boundary
        (fuel : nat) (self : RSyncBackup) (p : str) (fs fs' : node) (b q : list str) :
  final (prune_parents fuel self p fs) = Some fs' ->
  is_prefix b q = true -> find q fs <> None ->
  is_prefix q (components p) = false ->
  forall a, is_prefix a b = true ->
            kind_at a fs' = kind_at a fs /\ find a fs' <> None.
Proof.
  intros H Hb Hq Hoff a Ha.
  apply prune_parents_sequence in H. destruct H as (ds & Hr & Hall).
  pose proof (is_prefix_trans _ _ _ Ha Hb) as Haq.
  assert (K : kind_at a fs' = kind_at a fs)
    by (eapply remove_empties_keeps; eauto).
  split; auto.
  rewrite <- kind_at_find, K, kind_at_find.
  apply is_prefix_iff in Haq. destruct Haq as (r & ->).
  now apply find_prefix_exists in Hq.
Qed.

Lemma prune_keeps_occupied_boundary_witness :
  kind_at (components (s "/arch")) chain_fs_pruned
    = kind_at (components (s "/arch")) chain_fs /\
  find (components (s "/arch")) chain_fs_pruned <> None.
Proof.
  apply (prune_keeps_occupied_boundary 40 live (s "/arch/2021/01/01012021-120000")
           chain_fs chain_fs_pruned (components (s "/arch"))
           (components (s "/arch/keep"))).
  - vm_compute. reflexivity.
  - vm_compute. reflexivity.
  - vm_compute. discriminate.
  - vm_compute. reflexivity.
  - vm_compute. reflexivity.
Defined.

(** ** Errors in the removal loop *)

Lemma for_each_app {A V : Type} (l1 l2 : list A) (body : A -> V -> M V) (v : V) (fs : node) :
  for_each (l1 ++ l2) body v fs =
  match for_each l1 body v fs with
  | Done v' fs' => for_each l2 body v' fs'
  | Raised e fs' => Raised e fs'
  | Timeout => Timeout
  end.
Proof.
  revert v fs; induction l1 as [|x l1 IH]; intros v fs; cbn [app for_each].
  - reflexivity.
  - unfold bind. destruct (body x v fs); auto.
Qed.

Lemma os_remove_missing (p : str) (fs : node) :
  stat p fs = None -> os_remove p fs = None.
Proof.
  unfold stat, os_remove. destruct (resolve p) as [cs|]; auto.
  intros H. destruct (delete is_file cs fs) as [fs'|] eqn:D; auto.
  apply delete_find in D. destruct D as (x & Hx & _). congruence.
Qed.

(** Removing a path that is not there raises at once. *)
Lemma remove_path_missing (fuel : nat) (pk : pathRemover) (p : str) (fs : node) :
  stat p fs = None -> remove_path fuel pk p fs = Raised OSError fs.
Proof.
  intros H. unfold remove_path, bind, peek, os_path_isdir. rewrite H.
  unfold sys. now rewrite os_remove_missing.
Qed.




(** ** The walk of [pathWalker] and the dry run *)

Lemma os_listdir_inv (d : str) (fs : node) (names : list str) :
  os_listdir d fs = Some names ->
  d <> [] /\ exists es, find (components d) fs = Some (Dir es) /\ names = map fst es.
Proof.
  unfold os_listdir, stat. destruct d as [|c d]; [discriminate|]. cbn [resolve].
  destruct (find (components (c :: d)) fs) as [[|es]|]; try discriminate.
  intros [= <-]. split; [discriminate|]. now exists es.
Qed.

Lemma os_listdir_valid (d : str) (fs : node) (names : list str) :
  wf fs = true -> os_listdir d fs = Some names ->
  Forall (fun n => valid_name n = true) names.
Proof.
  intros Hwf L. apply os_listdir_inv in L. destruct L as (_ & es & Hf & ->).
  apply (wf_find _ _ _ Hwf) in Hf. apply wf_Dir in Hf. destruct Hf as [_ Hv].
  apply Forall_forall. intros n Hn. apply in_map_iff in Hn.
  destruct Hn as ([n' x] & <- & Hin). now apply (Hv n' x).
Qed.

Lemma pathWalker_eta (self : pathWalker) :
  {| regex := regex self; foundPaths := foundPaths self ++ [] |} = self.
Proof. destruct self. cbn. now rewrite app_nil_r. Qed.

(** [pathWalker.walking] only reads: it leaves the file system alone and
    adds joined names of the directory to the found paths. *)
Lemma pathWalker_walking_spec (dirname : str) (names : list str) (self : pathWalker) (fs : node) :
  exists new,
    pathWalker_walking self dirname names fs
    = Done {| regex := regex self; foundPaths := foundPaths self ++ new |} fs /\
    forall p, In p new ->
      exists n, In n names /\ p = os_path_join dirname [n] /\
                re_search (regex self) p = true.
Proof.
  unfold pathWalker_walking.
  revert self; induction names as [|n names IH]; intros self; cbn [for_each].
  - exists []. rewrite pathWalker_eta. split; [reflexivity | intros p []].
  - unfold bind.
    destruct (re_search (regex self) (os_path_join dirname [n])) eqn:E; cbn [ret].
    + destruct (IH {| regex := regex self;
                      foundPaths := foundPaths self ++ [os_path_join dirname [n]] |})
        as (new & Hrun & Hnew).
      cbn [regex foundPaths] in *.
      exists (os_path_join dirname [n] :: new). split.
      * rewrite Hrun. now rewrite <- app_assoc.
      * intros p [<- | Hp].
        -- exists n. cbn. auto.
        -- destruct (Hnew p Hp) as (n' & H1 & H2 & H3). exists n'. cbn. auto.
    + destruct (IH self) as (new & Hrun & Hnew).
      exists new. split; auto.
      intros p Hp. destruct (Hnew p Hp) as (n' & H1 & H2 & H3). exists n'. cbn. auto.
Qed.

(** The walk of [pathWalker] returns, leaves the file system as it is, and
    finds only listed names that the pattern matches. *)
Lemma pathWalker_os_path_walk (fuel : nat) (top : str) (self : pathWalker) (fs : node) :
  wf fs = true -> 1 <= fuel ->
  (forall t, stat top fs = Some t -> height t < fuel) ->
  exists new,
    os_path_walk fuel top pathWalker_walking self fs
    = Done {| regex := regex self; foundPaths := foundPaths self ++ new |} fs /\
    Forall (fun p => listed fs p /\ re_search (regex self) p = true) new.
Proof.
  intros Hwf. revert top self.
  induction fuel as [|fuel IH]; intros top self Hf Hh; [lia|].
  cbn [os_path_walk].
  destruct (os_listdir top fs) as [names|] eqn:L.
  2:{ exists []. now rewrite pathWalker_eta. }
  pose proof (os_listdir_valid _ _ _ Hwf L) as Hvalid.
  destruct (os_listdir_inv _ _ _ L) as (Htop & es & Hfind & Enames).
  assert (Hstat : stat top fs = Some (Dir es)).
  { unfold stat. destruct top; [congruence|]. exact Hfind. }
  specialize (Hh _ Hstat).
  unfold bind at 1.
  destruct (pathWalker_walking_spec top names self fs) as (new0 & Hrun0 & Hnew0).
  rewrite Hrun0.
  assert (Hlisted0 : Forall (fun p => listed fs p /\ re_search (regex self) p = true) new0).
  { apply Forall_forall. intros p Hp. destruct (Hnew0 p Hp) as (n & Hn & -> & Hre).
    split; auto. exists top, n, names. repeat split; auto.
    rewrite Forall_forall in Hvalid. auto. }
  (* the loop over the names *)
  assert (Loop : forall l, incl l names -> forall acc,
    Forall (fun p => listed fs p /\ re_search (regex self) p = true) acc ->
    exists new,
      for_each l (fun name v fs0 =>
        match stat (os_path_join top [name]) fs0 with
        | Some (Dir _) => os_path_walk fuel (os_path_join top [name]) pathWalker_walking v fs0
        | _ => Done v fs0
        end) {| regex := regex self; foundPaths := foundPaths self ++ acc |} fs
      = Done {| regex := regex self; foundPaths := foundPaths self ++ new |} fs /\
      Forall (fun p => listed fs p /\ re_search (regex self) p = true) new).
  { induction l as [|n l IHl]; intros Hincl acc Hacc; cbn [for_each].
    - exists acc. split; auto.
    - assert (Hn : In n names) by (apply Hincl; now left).
      assert (Hl : incl l names) by (intros x Hx; apply Hincl; now right).
      assert (Hvn : valid_name n = true) by (rewrite Forall_forall in Hvalid; auto).
      unfold bind.
      destruct (stat (os_path_join top [n]) fs) as [[|es']|] eqn:S; try (now apply IHl).
      assert (Hsub : height (Dir es') < fuel).
      { unfold stat in S.
        rewrite (resolve_join top n (components top)) in S by (auto; now destruct top).
        rewrite find_app, Hfind in S. cbn [find] in S.
        destruct (lookup n es) as [x|] eqn:Lk; [|discriminate]. injection S as ->.
        apply lookup_In, height_entry in Lk. lia. }
      destruct (IH (os_path_join top [n])
                   {| regex := regex self; foundPaths := foundPaths self ++ acc |})
        as (new1 & Hrun1 & Hnew1).
      + cbn [height] in Hsub. lia.
      + intros t Ht. rewrite S in Ht. now injection Ht as <-.
      + cbn [regex foundPaths] in Hrun1, Hnew1. rewrite Hrun1.
        rewrite <- app_assoc. apply IHl; auto.
        apply Forall_app. split; auto. }
  destruct (Loop names (incl_refl _) new0 Hlisted0) as (new & Hrun & Hnew).
  exists new. split; auto.
Qed.

Lemma pathWalker_walk_spec (fuel : nat) (regex0 : pattern) (path : str) (fs : node) :
  wf fs = true -> height fs < fuel ->
  exists found,
    pathWalker_walk fuel (new_pathWalker regex0) path fs = Done found fs /\
    Forall (fun p => listed fs p /\ re_search regex0 p = true) found.
Proof.
  intros Hwf Hf.
  destruct (pathWalker_os_path_walk fuel path (new_pathWalker regex0) fs Hwf)
    as (new & Hrun & Hnew).
  - lia.
  - intros t Ht. unfold stat in Ht. destruct (resolve path); [|discriminate].
    apply height_find in Ht. lia.
  - exists new. unfold pathWalker_walk, bind. rewrite Hrun. cbn. auto.
Qed.

Lemma pathsToTrim_incl (l : list str) (k : Z) (x : str) :
  In x (pathsToTrim l k) -> In x l.
Proof.
  unfold pathsToTrim, slice_to. intros H.
  eapply Permutation_in; [apply Permutation_sym, sort_perm|].
  match type of H with In _ (firstn ?n _) =>
    rewrite <- (firstn_skipn n (sort l)); apply in_or_app; now left end.
Qed.

Lemma trim_select_spec (fuel : nat) (self : RSyncBackup) (archiveDir : str)
      (filter : option pattern) (k : Z) (fs : node) :
  wf fs = true -> height fs < fuel ->
  exists sel,
    trim_select fuel self archiveDir filter k fs = Done sel fs /\
    Forall (listed fs) sel.
Proof.
  intros Hwf Hf. unfold trim_select.
  destruct (pathWalker_walk_spec fuel
              (match filter with None => default_filter archiveDir | Some f => f end)
              archiveDir fs Hwf Hf) as (found & Hrun & Hfound).
  exists (pathsToTrim found k). unfold bind. rewrite Hrun. split; [reflexivity|].
  apply Forall_forall. intros x Hx. apply pathsToTrim_incl in Hx.
  rewrite Forall_forall in Hfound. now apply Hfound.
Qed.

(** In a dry run the loop stops at the first parent: the path is still
    there. *)
Lemma prune_parents_dry (fuel : nat) (self : RSyncBackup) (p : str) (fs : node) :
  listed fs p -> prune_parents (S fuel) self p fs = Done tt fs.
Proof.
  intros (d & n & names & -> & L & Hn & Hv).
  destruct (os_listdir_inv _ _ _ L) as (Hd & es & Hfind & Enames).
  destruct (os_path_split_join d n Hd Hv) as (h & Hs & Hh & Hc & Hne).
  apply (prune_parents_stops fuel self _ fs names).
  - rewrite Hs. exact Hne.
  - rewrite Hs. cbn [fst]. rewrite <- L.
    unfold os_listdir, stat. destruct h; [congruence|]. destruct d; [congruence|].
    cbn [resolve]. now rewrite Hc.
  - intros ->. exact Hn.
Qed.

Lemma trim_one_dry (fuel : nat) (self : RSyncBackup) (rp : bool) (p : str)
      (pk : pathRemover) (fs : node) :
  testRun self = true -> listed fs p ->
  trim_one (S fuel) self rp p pk fs = Done pk fs.
Proof.
  intros Hdry Hp. unfold trim_one. rewrite Hdry. unfold bind. cbn [ret].
  destruct rp; [rewrite prune_parents_dry by auto|]; reflexivity.
Qed.

Lemma trim_loop_dry (fuel : nat) (self : RSyncBackup) (rp : bool) (sel : list str)
      (pk : pathRemover) (fs : node) :
  testRun self = true -> Forall (listed fs) sel ->
  for_each sel (trim_one (S fuel) self rp) pk fs = Done pk fs.
Proof.
  intros Hdry Hsel. induction Hsel as [|p sel Hp Hsel IH]; cbn [for_each]; auto.
  unfold bind. now rewrite trim_one_dry.
Qed.

(** C6.  In a dry run [trimArchives] selects what a real run from the same
    file system selects (the selection does not look at [testRun]), it
    returns without an error, and it leaves the file system exactly as it
    was. *)
Theorem dry_run_selects_the_same_and_removes_nothing
        (fuel : nat) (self other : RSyncBackup) (archiveDir : str)
        (filter : option pattern) (entriesToKeep : Z) (removeParentIfEmpty : bool)
        (fs : node) :
  testRun self = true -> wf fs = true -> height fs < fuel ->
  (exists sel,
      trim_select fuel self archiveDir filter entriesToKeep fs = Done sel fs /\
      trim_select fuel other archiveDir filter entriesToKeep fs = Done sel fs) /\
  trimArchives fuel self archiveDir filter entriesToKeep removeParentIfEmpty fs
  = Done tt fs.
Proof.
  intros Hdry Hwf Hf.
  destruct (trim_select_spec fuel self archiveDir filter entriesToKeep fs Hwf Hf)
    as (sel & Hsel & Hlisted).
  split.
  - exists sel. split; [exact Hsel | exact Hsel].
  - unfold trimArchives, bind. rewrite Hsel.
    destruct fuel as [|fuel]; [lia|].
    now rewrite trim_loop_dry.
Qed.

Lemma dry_run_selects_the_same_and_removes_nothing_witness :
  (exists sel,
      trim_select 10 dry (s "/arch") None 2 three_fs = Done sel three_fs /\
      trim_select 10 live (s "/arch") None 2 three_fs = Done sel three_fs) /\
  trimArchives 10 dry (s "/arch") None 2 true three_fs = Done tt three_fs.
Proof.
  apply (dry_run_selects_the_same_and_removes_nothing 10 dry live (s "/arch") None 2 true
           three_fs).
  - reflexivity.
  - vm_compute. reflexivity.
  - vm_compute. lia.
Defined.

(** ** Replacing a subtree *)

Lemma set_entry_set_entry (c : str) (a b : node) (es : list (str * node)) :
  set_entry c a (set_entry c b es) = set_entry c a es.
Proof.
  unfold set_entry. rewrite map_map. apply map_ext. intros [n x]. cbn [fst].
  destruct (str_eqb n c) eqn:E; cbn [fst]; now rewrite ?E.
Qed.

Lemma remove_entry_set_entry (c : str) (a : node) (es : list (str * node)) :
  remove_entry c (set_entry c a es) = remove_entry c es.
Proof.
  unfold remove_entry, set_entry. induction es as [|[n x] es IH]; cbn; auto.
  destruct (str_eqb n c) eqn:E; cbn; rewrite E; cbn; now rewrite IH.
Qed.

Lemma find_graft (cs q : list str) (t t0 fs : node) :
  find cs fs = Some t0 -> find (cs ++ q) (graft cs t fs) = find q t.
Proof.
  revert fs; induction cs as [|c cs IH]; intros fs; cbn [find graft app]; auto.
  destruct fs as [|es]; [discriminate|].
  destruct (lookup c es) as [x|] eqn:E; [|discriminate]. intros H.
  cbn [find]. rewrite (lookup_set_same _ _ (graft cs t x) _ E). now apply IH.
Qed.

Lemma graft_graft (cs : list str) (t t' t0 fs : node) :
  find cs fs = Some t0 -> graft cs t' (graft cs t fs) = graft cs t' fs.
Proof.
  revert fs; induction cs as [|c cs IH]; intros fs; cbn [find graft]; auto.
  destruct fs as [|es]; [discriminate|].
  destruct (lookup c es) as [x|] eqn:E; [|discriminate]. intros H.
  cbn [graft]. rewrite (lookup_set_same _ _ (graft cs t x) _ E).
  now rewrite set_entry_set_entry, IH.
Qed.

Lemma graft_app (cs q : list str) (t u t0 fs : node) :
  find cs fs = Some t0 ->
  graft (cs ++ q) u (graft cs t fs) = graft cs (graft q u t) fs.
Proof.
  revert fs; induction cs as [|c cs IH]; intros fs; cbn [find graft app]; auto.
  destruct fs as [|es]; [discriminate|].
  destruct (lookup c es) as [x|] eqn:E; [|discriminate]. intros H.
  cbn [graft]. rewrite (lookup_set_same _ _ (graft cs t x) _ E).
  now rewrite set_entry_set_entry, IH.
Qed.

Lemma delete_graft (ok : node -> bool) (cs q : list str) (t t0 fs : node) :
  find cs fs = Some t0 -> q <> [] ->
  delete ok (cs ++ q) (graft cs t fs)
  = option_map (fun t' => graft cs t' fs) (delete ok q t).
Proof.
  intros H Hq. revert fs H; induction cs as [|c cs IH]; intros fs; cbn [find graft app].
  - intros _. now destruct (delete ok q t).
  - destruct fs as [|es]; [discriminate|].
    destruct (lookup c es) as [x|] eqn:E; [|discriminate]. intros H.
    cbn [delete]. rewrite (lookup_set_same _ _ (graft cs t x) _ E).
    destruct (cs ++ q) as [|c2 r] eqn:Ecq.
    { apply app_eq_nil in Ecq. now destruct Ecq. }
    rewrite (IH x H).
    destruct (delete ok q t); cbn [option_map]; auto.
    now rewrite set_entry_set_entry.
Qed.

Lemma delete_at_graft (ok : node -> bool) (cs : list str) (t t0 fs : node) :
  find cs fs = Some t0 -> ok t = true ->
  delete ok cs (graft cs t fs) = delete (fun _ => true) cs fs.
Proof.
  intros H Hok. revert fs H; induction cs as [|c cs IH]; intros fs; cbn [find graft].
  - intros _. reflexivity.
  - destruct fs as [|es]; [discriminate|].
    destruct (lookup c es) as [x|] eqn:E; [|discriminate]. intros H.
    cbn [delete]. rewrite (lookup_set_same _ _ (graft cs t x) _ E), E.
    destruct cs as [|c2 cs].
    + cbn [graft]. rewrite Hok. now rewrite remove_entry_set_entry.
    + rewrite (IH x H).
      destruct (delete (fun _ => true) (c2 :: cs) x); auto.
      now rewrite set_entry_set_entry.
Qed.

Lemma delete_any_total (cs : list str) (t0 fs : node) :
  find cs fs = Some t0 -> cs <> [] ->
  exists fs', delete (fun _ => true) cs fs = Some fs'.
Proof.
  revert fs; induction cs as [|c cs IH]; intros fs H Hne; [congruence|].
  cbn [find] in H. destruct fs as [|es]; [discriminate|].
  destruct (lookup c es) as [x|] eqn:E; [|discriminate].
  cbn [delete]. rewrite E. destruct cs as [|c2 cs].
  - eauto.
  - destruct (IH x H) as (x' & ->); [discriminate|]. eauto.
Qed.

Lemma kind_at_graft_other (cs q : list str) (t t0 fs : node) :
  find cs fs = Some t0 -> is_prefix cs q = false ->
  kind_at q (graft cs t fs) = kind_at q fs.
Proof.
  revert q fs; induction cs as [|c cs IH]; intros q fs H Hq; [discriminate|].
  cbn [find] in H. destruct fs as [|es]; [discriminate|].
  destruct (lookup c es) as [x|] eqn:E; [|discriminate].
  cbn [graft]. rewrite E. destruct q as [|c' q]; [reflexivity|].
  unfold kind_at. cbn [find]. cbn [is_prefix] in Hq.
  destruct (str_eqb c c') eqn:Ec.
  - apply str_eqb_eq in Ec. subst c'.
    rewrite (lookup_set_same _ _ (graft cs t x) _ E), E. now apply IH.
  - apply str_eqb_neq in Ec. now rewrite lookup_set_other.
Qed.

Lemma set_entry_absent (c : str) (y : node) (es : list (str * node)) :
  ~ In c (map fst es) -> set_entry c y es = es.
Proof.
  unfold set_entry. induction es as [|[n x] es IH]; cbn; auto.
  intros H. destruct (str_eqb n c) eqn:E.
  - apply str_eqb_eq in E. tauto.
  - rewrite IH; auto.
Qed.

Lemma remove_entry_absent (c : str) (es : list (str * node)) :
  ~ In c (map fst es) -> remove_entry c es = es.
Proof.
  unfold remove_entry. induction es as [|[n x] es IH]; cbn; auto.
  intros H. destruct (str_eqb n c) eqn:E.
  - apply str_eqb_eq in E. tauto.
  - cbn. rewrite IH; auto.
Qed.

Lemma lookup_middle (c : str) (x : node) (pre post : list (str * node)) :
  ~ In c (map fst pre) -> lookup c (pre ++ (c, x) :: post) = Some x.
Proof.
  induction pre as [|[n z] pre IH]; cbn; intros H.
  - now rewrite str_eqb_refl.
  - destruct (str_eqb n c) eqn:E.
    + apply str_eqb_eq in E. tauto.
    + apply IH. tauto.
Qed.

Lemma lookup_absent (c : str) (es : list (str * node)) :
  ~ In c (map fst es) -> lookup c es = None.
Proof. apply lookup_names. Qed.

Lemma set_entry_middle (c : str) (x y : node) (pre post : list (str * node)) :
  ~ In c (map fst pre) -> ~ In c (map fst post) ->
  set_entry c y (pre ++ (c, x) :: post) = pre ++ (c, y) :: post.
Proof.
  intros H1 H2. unfold set_entry. rewrite map_app. cbn [map fst].
  rewrite str_eqb_refl.
  fold (set_entry c y pre). fold (set_entry c y post).
  now rewrite !set_entry_absent.
Qed.

Lemma remove_entry_middle (c : str) (x : node) (pre post : list (str * node)) :
  ~ In c (map fst pre) -> ~ In c (map fst post) ->
  remove_entry c (pre ++ (c, x) :: post) = pre ++ post.
Proof.
  intros H1 H2. unfold remove_entry. rewrite filter_app. cbn [filter fst].
  rewrite str_eqb_refl. cbn [negb].
  fold (remove_entry c pre). fold (remove_entry c post).
  now rewrite !remove_entry_absent.
Qed.

Lemma graft_same (cs : list str) (t fs : node) :
  wf fs = true -> find cs fs = Some t -> graft cs t fs = fs.
Proof.
  revert fs; induction cs as [|c cs IH]; intros fs Hwf; cbn [find graft].
  - now intros [= ->].
  - destruct fs as [|es]; [discriminate|].
    destruct (lookup c es) as [x|] eqn:E; [|discriminate]. intros H.
    destruct (wf_Dir _ Hwf) as [Hnd Hall].
    pose proof (lookup_In _ _ _ E) as Hin.
    rewrite (IH x) by (auto; apply (Hall c x Hin)).
    f_equal. apply in_split in Hin. destruct Hin as (pre & post & ->).
    rewrite map_app in Hnd. cbn [map fst] in Hnd.
    pose proof (NoDup_remove_2 _ _ _ Hnd) as Hn.
    apply set_entry_middle; intros Hc; apply Hn, in_or_app; auto.
Qed.

Lemma names_keep_dirs (es : list (str * node)) (c : str) :
  In c (map fst (keep_dirs es)) -> In c (map fst es).
Proof.
  unfold keep_dirs. induction es as [|[n x] es IH]; cbn; auto.
  destruct x; cbn; tauto.
Qed.

Lemma names_strip_entries (es : list (str * node)) (c : str) :
  In c (map fst (strip_entries es)) -> In c (map fst es).
Proof.
  unfold strip_entries. induction es as [|[n x] es IH]; cbn [flat_map map fst snd]; auto.
  destruct x; cbn; tauto.
Qed.

Lemma names_empty_entries (es : list (str * node)) (c : str) :
  In c (map fst (empty_entries es)) -> In c (map fst es).
Proof.
  unfold empty_entries. induction es as [|[n x] es IH]; cbn [flat_map map fst snd]; auto.
  destruct x; cbn; tauto.
Qed.

(** ** The walk of [pathRemover] *)

Section AtDirectory.

(** A directory named [top], found at [cs] in the file system [fs]. *)
Variables (top : str) (cs : list str) (fs t0 : node).
Hypothesis Htop : resolve top = Some cs.
Hypothesis Hcs : find cs fs = Some t0.

Lemma stat_child (cur : list (str * node)) (n : str) :
  valid_name n = true ->
  stat (os_path_join top [n]) (graft cs (Dir cur) fs) = lookup n cur.
Proof.
  intros Hn. unfold stat. rewrite (resolve_join top n cs Htop Hn).
  rewrite (find_graft cs [n] (Dir cur) t0 fs Hcs). cbn [find].
  now destruct (lookup n cur).
Qed.

Lemma os_listdir_top (cur : list (str * node)) :
  os_listdir top (graft cs (Dir cur) fs) = Some (map fst cur).
Proof.
  unfold os_listdir, stat. rewrite Htop.
  pose proof (find_graft cs [] (Dir cur) t0 fs Hcs) as H.
  rewrite app_nil_r in H. rewrite H. reflexivity.
Qed.

Lemma delete_child (ok : node -> bool) (cur : list (str * node)) (n : str) (x : node) :
  valid_name n = true -> lookup n cur = Some x -> ok x = true ->
  delete ok (cs ++ [n]) (graft cs (Dir cur) fs)
  = Some (graft cs (Dir (remove_entry n cur)) fs).
Proof.
  intros Hn Hl Hok.
  rewrite (delete_graft ok cs [n] (Dir cur) t0 fs Hcs) by discriminate.
  cbn [delete]. now rewrite Hl, Hok.
Qed.

Lemma os_remove_child (cur : list (str * node)) (n : str) :
  valid_name n = true -> lookup n cur = Some File ->
  os_remove (os_path_join top [n]) (graft cs (Dir cur) fs)
  = Some (graft cs (Dir (remove_entry n cur)) fs).
Proof.
  intros Hn Hl. unfold os_remove. rewrite (resolve_join top n cs Htop Hn).
  now apply delete_child with (x := File).
Qed.

Lemma os_rmdir_child (cur : list (str * node)) (n : str) :
  valid_name n = true -> lookup n cur = Some (Dir []) ->
  os_rmdir (os_path_join top [n]) (graft cs (Dir cur) fs)
  = Some (graft cs (Dir (remove_entry n cur)) fs).
Proof.
  intros Hn Hl. unfold os_rmdir. rewrite (resolve_join top n cs Htop Hn).
  now apply delete_child with (x := Dir []).
Qed.

(** Seeing the directory [n] of [top] as the place of a replacement. *)
Lemma graft_child (pre post : list (str * node)) (n : str) (x y : node) :
  ~ In n (map fst pre) -> ~ In n (map fst post) ->
  graft (cs ++ [n]) y (graft cs (Dir (pre ++ (n, x) :: post)) fs)
  = graft cs (Dir (pre ++ (n, y) :: post)) fs.
Proof.
  intros H1 H2. rewrite (graft_app cs [n] (Dir (pre ++ (n, x) :: post)) y t0 fs Hcs).
  cbn [graft]. rewrite lookup_middle by auto. cbn [graft].
  now rewrite set_entry_middle.
Qed.

Lemma find_child (pre post : list (str * node)) (n : str) (x : node) :
  ~ In n (map fst pre) ->
  find (cs ++ [n]) (graft cs (Dir (pre ++ (n, x) :: post)) fs) = Some x.
Proof.
  intros H1. rewrite (find_graft cs [n] _ t0 fs Hcs). cbn [find].
  now rewrite lookup_middle.
Qed.

(** [pathRemover.walking] on the names of [l]: the files of [l] go, its
    directories are noted. *)
Lemma pathRemover_walking_spec (l pre : list (str * node)) (v : pathRemover) :
  NoDup (map fst (pre ++ l)) ->
  (forall n x, In (n, x) l -> valid_name n = true) ->
  pathRemover_walking v top (map fst l) (graft cs (Dir (pre ++ l)) fs)
  = Done {| dirsToRemove := dirsToRemove v ++ subdirs top l |}
         (graft cs (Dir (pre ++ keep_dirs l)) fs).
Proof.
  unfold pathRemover_walking.
  revert pre v; induction l as [|[n x] l IH]; intros pre v Hnd Hv;
    cbn [map fst for_each].
  - unfold subdirs, keep_dirs. cbn [flat_map]. rewrite !app_nil_r. now destruct v.
  - assert (Hn : valid_name n = true) by (apply (Hv n x); now left).
    assert (Hv' : forall n' x', In (n', x') l -> valid_name n' = true)
      by (intros n' x' H; apply (Hv n' x'); now right).
    rewrite map_app in Hnd. cbn [map fst] in Hnd.
    pose proof (NoDup_remove_2 _ _ _ Hnd) as Hnotin.
    pose proof (NoDup_remove_1 _ _ _ Hnd) as Hnd1.
    assert (Hpre : ~ In n (map fst pre)) by (intros H; apply Hnotin, in_or_app; auto).
    assert (Hpost : ~ In n (map fst l)) by (intros H; apply Hnotin, in_or_app; auto).
    unfold bind at 1. unfold bind at 1. unfold peek, os_path_isdir.
    rewrite stat_child, lookup_middle by auto.
    destruct x as [|es'].
    + unfold bind, sys. rewrite os_remove_child by (auto; now apply lookup_middle).
      rewrite remove_entry_middle by auto. cbn [ret].
      rewrite IH by (auto; now rewrite map_app).
      reflexivity.
    + cbn [ret].
      replace (pre ++ (n, Dir es') :: l) with ((pre ++ [(n, Dir es')]) ++ l)
        by (now rewrite <- app_assoc).
      rewrite IH; auto.
      * cbn [dirsToRemove]. unfold subdirs, keep_dirs. cbn [flat_map snd fst].
        rewrite <- !app_assoc. reflexivity.
      * rewrite <- app_assoc, map_app. exact Hnd.
Qed.

(** Removing, last first, the emptied directories [top] lists. *)
Lemma rmdir_subdirs (l pre : list (str * node)) :
  NoDup (map fst (pre ++ l)) ->
  (forall n x, In (n, x) l -> valid_name n = true) ->
  rmdir_all (rev (subdirs top l)) (graft cs (Dir (pre ++ empty_entries l)) fs)
  = Done tt (graft cs (Dir pre) fs).
Proof.
  unfold rmdir_all.
  revert pre; induction l as [|[n x] l IH]; intros pre Hnd Hv.
  - unfold subdirs, empty_entries. cbn [flat_map rev for_each]. now rewrite app_nil_r.
  - assert (Hn : valid_name n = true) by (apply (Hv n x); now left).
    assert (Hv' : forall n' x', In (n', x') l -> valid_name n' = true)
      by (intros n' x' H; apply (Hv n' x'); now right).
    rewrite map_app in Hnd. cbn [map fst] in Hnd.
    pose proof (NoDup_remove_2 _ _ _ Hnd) as Hnotin.
    pose proof (NoDup_remove_1 _ _ _ Hnd) as Hnd1.
    assert (Hpre : ~ In n (map fst pre)) by (intros H; apply Hnotin, in_or_app; auto).
    destruct x as [|es'].
    + unfold subdirs, empty_entries. cbn [flat_map snd app].
      apply IH; auto. now rewrite map_app.
    + unfold subdirs, empty_entries. cbn [flat_map snd fst app rev].
      fold (subdirs top l). fold (empty_entries l).
      rewrite for_each_app.
      replace (pre ++ (n, Dir []) :: empty_entries l)
        with ((pre ++ [(n, Dir [])]) ++ empty_entries l)
        by (now rewrite <- app_assoc).
      rewrite IH; auto.
      * cbn [for_each]. unfold bind, sys.
        rewrite os_rmdir_child by (auto; now apply lookup_middle).
        rewrite remove_entry_middle by (auto; intros []). cbn [ret].
        now rewrite app_nil_r.
      * rewrite <- app_assoc, map_app. exact Hnd.
Qed.

End AtDirectory.

Lemma wf_children (es : list (str * node)) :
  wf (Dir es) = true ->
  NoDup (map fst es) /\
  (forall n x, In (n, x) es -> valid_name n = true) /\
  (forall n x, In (n, x) es -> wf x = true).
Proof.
  intros H. destruct (wf_Dir es H) as [Hnd Hall]. split; auto.
  split; intros n x Hin; now apply (Hall n x).
Qed.

(** The first half of [pathRemover.walk]: the walk returns; below [top] it
    leaves the directories, without their files, and has noted them all. *)
Lemma pathRemover_os_path_walk (fuel : nat) :
  forall (top : str) (cs : list str) (fs t0 : node) (es : list (str * node))
         (v : pathRemover),
  resolve top = Some cs -> find cs fs = Some t0 ->
  wf (Dir es) = true -> height (Dir es) <= fuel ->
  os_path_walk fuel top pathRemover_walking v (graft cs (Dir es) fs)
  = Done {| dirsToRemove := dirsToRemove v ++ walk_dirs top (Dir es) |}
         (graft cs (strip_files (Dir es)) fs).
Proof.
  induction fuel as [|fuel IH]; intros top cs fs t0 es v Htop Hcs Hwf Hh.
  - cbn [height] in Hh. lia.
  - destruct (wf_children es Hwf) as (Hnd & Hvalid & Hwfc).
    cbn [os_path_walk]. rewrite (os_listdir_top top cs fs t0 Htop Hcs).
    unfold bind at 1.
    pose proof (pathRemover_walking_spec top cs fs t0 Htop Hcs es [] v Hnd Hvalid) as Hw.
    cbn [app] in Hw. rewrite Hw. clear Hw.
    assert (Loop : forall l pre v,
      NoDup (map fst (pre ++ l)) ->
      (forall n x, In (n, x) l -> In (n, x) es) ->
      for_each (map fst l)
        (fun name v fs0 =>
           match stat (os_path_join top [name]) fs0 with
           | Some (Dir _) =>
               os_path_walk fuel (os_path_join top [name]) pathRemover_walking v fs0
           | _ => Done v fs0
           end) v (graft cs (Dir (pre ++ keep_dirs l)) fs)
      = Done {| dirsToRemove :=
                  dirsToRemove v
                  ++ flat_map (fun e => walk_dirs (os_path_join top [fst e]) (snd e)) l |}
             (graft cs (Dir (pre ++ strip_entries l)) fs)).
    { induction l as [|[n x] l IHl]; intros pre v' Hnd' Hin; cbn [map fst for_each].
      - unfold keep_dirs, strip_entries. cbn [flat_map]. rewrite !app_nil_r.
        now destruct v'.
      - assert (Hn : valid_name n = true) by (apply (Hvalid n x), Hin; now left).
        assert (Hin' : forall n' x', In (n', x') l -> In (n', x') es)
          by (intros n' x' H; apply Hin; now right).
        rewrite map_app in Hnd'. cbn [map fst] in Hnd'.
        pose proof (NoDup_remove_2 _ _ _ Hnd') as Hnotin.
        pose proof (NoDup_remove_1 _ _ _ Hnd') as Hnd1.
        assert (Hpre : ~ In n (map fst pre))
          by (intros H; apply Hnotin, in_or_app; auto).
        assert (Hpost : ~ In n (map fst l))
          by (intros H; apply Hnotin, in_or_app; auto).
        unfold bind at 1.
        rewrite (stat_child top cs fs t0 Htop Hcs) by auto.
        destruct x as [|es'].
        + unfold keep_dirs, strip_entries. cbn [flat_map snd app].
          fold (keep_dirs l). fold (strip_entries l).
          rewrite lookup_absent.
          2:{ rewrite map_app. intros H. apply in_app_or in H.
              destruct H as [H | H]; [auto | apply names_keep_dirs in H; auto]. }
          rewrite IHl by (auto; now rewrite map_app).
          reflexivity.
        + unfold keep_dirs, strip_entries. cbn [flat_map snd fst app].
          fold (keep_dirs l). fold (strip_entries l).
          assert (Hk : ~ In n (map fst (keep_dirs l)))
            by (intros H; apply names_keep_dirs in H; auto).
          rewrite lookup_middle by auto.
          pose proof (Hin n (Dir es') (or_introl eq_refl)) as Hines.
          pose proof (IH (os_path_join top [n]) (cs ++ [n])
                         (graft cs (Dir (pre ++ (n, Dir es') :: keep_dirs l)) fs)
                         (Dir es') es' v'
                         (resolve_join top n cs Htop Hn)
                         (find_child cs fs t0 Hcs pre (keep_dirs l) n (Dir es') Hpre)
                         (Hwfc n (Dir es') Hines)) as Hrec.
          rewrite !(graft_child cs fs t0 Hcs) in Hrec by auto.
          rewrite Hrec.
          2:{ pose proof (height_entry es n (Dir es') Hines). lia. }
          replace (pre ++ (n, strip_files (Dir es')) :: keep_dirs l)
            with ((pre ++ [(n, strip_files (Dir es'))]) ++ keep_dirs l)
            by (now rewrite <- app_assoc).
          rewrite IHl; auto.
          * cbn [dirsToRemove]. rewrite <- !app_assoc. reflexivity.
          * rewrite <- app_assoc, map_app. cbn [app map fst]. exact Hnd'. }
    pose proof (Loop es [] {| dirsToRemove := dirsToRemove v ++ subdirs top es |}
                     Hnd (fun n x H => H)) as Hl.
    cbn [app] in Hl. rewrite Hl.
    cbn [dirsToRemove walk_dirs strip_files]. rewrite <- app_assoc. reflexivity.
Qed.

Lemma rmdir_all_app (l1 l2 : list str) (fs : node) :
  rmdir_all (l1 ++ l2) fs =
  match rmdir_all l1 fs with
  | Done _ fs' => rmdir_all l2 fs'
  | Raised e fs' => Raised e fs'
  | Timeout => Timeout
  end.
Proof.
  unfold rmdir_all. rewrite for_each_app.
  destruct (for_each l1 _ tt fs) as [[] fs'| |]; reflexivity.
Qed.

(** The second half of [pathRemover.walk]: removing the noted directories,
    last first, succeeds and leaves [top] empty. *)
Lemma rmdir_all_walk_dirs (t : node) :
  forall (top : str) (cs : list str) (fs t0 : node),
  resolve top = Some cs -> find cs fs = Some t0 -> wf t = true ->
  match t with
  | File => True
  | Dir es =>
      rmdir_all (rev (walk_dirs top (Dir es))) (graft cs (strip_files (Dir es)) fs)
      = Done tt (graft cs (Dir []) fs)
  end.
Proof.
  induction t as [|es IH] using node_induction; [auto|].
  intros top cs fs t0 Htop Hcs Hwf.
  destruct (wf_children es Hwf) as (Hnd & Hvalid & Hwfc).
  cbn [walk_dirs strip_files]. fold (strip_entries es).
  rewrite rev_app_distr, rmdir_all_app.
  assert (Below : forall l pre,
    NoDup (map fst (pre ++ l)) ->
    (forall n x, In (n, x) l -> In (n, x) es) ->
    rmdir_all (rev (flat_map (fun e => walk_dirs (os_path_join top [fst e]) (snd e)) l))
              (graft cs (Dir (pre ++ strip_entries l)) fs)
    = Done tt (graft cs (Dir (pre ++ empty_entries l)) fs)).
  { induction l as [|[n x] l IHl]; intros pre Hnd' Hin.
    - reflexivity.
    - assert (Hn : valid_name n = true) by (apply (Hvalid n x), Hin; now left).
      assert (Hin' : forall n' x', In (n', x') l -> In (n', x') es)
        by (intros n' x' H; apply Hin; now right).
      rewrite map_app in Hnd'. cbn [map fst] in Hnd'.
      pose proof (NoDup_remove_2 _ _ _ Hnd') as Hnotin.
      assert (Hpre : ~ In n (map fst pre))
        by (intros H; apply Hnotin, in_or_app; auto).
      assert (Hpost : ~ In n (map fst l))
        by (intros H; apply Hnotin, in_or_app; auto).
      cbn [flat_map fst snd]. rewrite rev_app_distr, rmdir_all_app.
      destruct x as [|es'].
      + unfold strip_entries, empty_entries. cbn [flat_map snd app].
        fold (strip_entries l). fold (empty_entries l).
        rewrite IHl by (auto; rewrite map_app; eapply NoDup_remove_1; eauto).
        reflexivity.
      + unfold strip_entries, empty_entries. cbn [flat_map snd fst app].
        fold (strip_entries l). fold (empty_entries l).
        replace (pre ++ (n, strip_files (Dir es')) :: strip_entries l)
          with ((pre ++ [(n, strip_files (Dir es'))]) ++ strip_entries l)
          by (now rewrite <- app_assoc).
        rewrite IHl; auto.
        2:{ rewrite <- app_assoc, map_app. cbn [app map fst]. exact Hnd'. }
        rewrite <- app_assoc. cbn [app].
        assert (He : ~ In n (map fst (empty_entries l)))
          by (intros H; apply names_empty_entries in H; auto).
        pose proof (Hin n (Dir es') (or_introl eq_refl)) as Hines.
        rewrite Forall_forall in IH.
        pose proof (IH (n, Dir es') Hines (os_path_join top [n]) (cs ++ [n])
                       (graft cs (Dir (pre ++ (n, strip_files (Dir es')) :: empty_entries l)) fs)
                       (strip_files (Dir es'))
                       (resolve_join top n cs Htop Hn)
                       (find_child cs fs t0 Hcs pre (empty_entries l) n _ Hpre)
                       (Hwfc n (Dir es') Hines)) as Hrec.
        cbn [snd] in Hrec.
        rewrite !(graft_child cs fs t0 Hcs) in Hrec by auto.
        exact Hrec. }
  pose proof (Below es [] Hnd (fun n x H => H)) as Hb. cbn [app] in Hb.
  rewrite Hb.
  apply (rmdir_subdirs top cs fs t0 Htop Hcs es []); auto.
Qed.

(** ** Removing a directory tree *)

Lemma lookup_strip_entries (n : str) (es : list (str * node)) :
  NoDup (map fst es) ->
  lookup n (strip_entries es)
  = match lookup n es with
    | Some (Dir es') => Some (strip_files (Dir es'))
    | _ => None
    end.
Proof.
  unfold strip_entries. induction es as [|[c x] es IH]; cbn [flat_map map fst snd lookup];
    intros Hnd; auto.
  inversion Hnd as [|? ? Hc Hnd']; subst.
  destruct (str_eqb c n) eqn:E.
  - apply str_eqb_eq in E. subst c. destruct x as [|es'].
    + cbn [app]. rewrite IH by auto.
      now rewrite (proj2 (lookup_names n es) Hc).
    + cbn [app lookup]. now rewrite str_eqb_refl.
  - destruct x as [|es']; cbn [app lookup]; rewrite ?E; auto.
Qed.

(** What is left of a tree once its files are stripped. *)
Lemma kind_at_strip_files (r : list str) (t : node) :
  wf t = true -> is_dir t = true ->
  kind_at r (strip_files t)
  = match kind_at r t with Some true => Some true | _ => None end.
Proof.
  revert t; induction r as [|n r IH]; intros [|es] Hwf Hd; try discriminate.
  - reflexivity.
  - destruct (wf_children es Hwf) as (Hnd & _ & Hwfc).
    unfold kind_at. cbn [strip_files find]. fold (strip_entries es).
    rewrite lookup_strip_entries by auto.
    destruct (lookup n es) as [[|es']|] eqn:E; cbn [option_map]; auto.
    + destruct r; reflexivity.
    + apply lookup_In in E. apply (IH (Dir es')); auto. now apply (Hwfc n).
Qed.

Lemma os_rmdir_inv (d : str) (fs fs' : node) :
  os_rmdir d fs = Some fs' ->
  delete is_empty_dir (components d) fs = Some fs' /\
  os_listdir d fs = Some [].
Proof.
  unfold os_rmdir, os_listdir, stat. destruct d as [|c d]; [discriminate|].
  cbn [resolve]. intros H. split; auto.
  apply delete_find in H. destruct H as (x & -> & Hx).
  now destruct x as [|[|]].
Qed.

(** [os.rmdir] in a loop that returns removed, each time, a directory that
    listed nothing. *)
Lemma rmdir_all_remove_empties (ds : list str) (fs fs' : node) :
  rmdir_all ds fs = Done tt fs' -> remove_empties ds fs = Some fs'.
Proof.
  unfold rmdir_all. revert fs; induction ds as [|d ds IH]; intros fs;
    cbn [for_each remove_empties].
  - now intros [= ->].
  - unfold bind, sys. destruct (os_rmdir d fs) as [fs1|] eqn:R; [|discriminate].
    destruct (os_rmdir_inv _ _ _ R) as [_ ->]. apply IH.
Qed.

Lemma delete_was_there (ok : node -> bool) (d a : list str) (fs fs' : node) :
  delete ok d fs = Some fs' -> find a fs' <> None -> find a fs <> None.
Proof.
  intros Hd Ha. destruct (is_prefix d a) eqn:P.
  - elim Ha. eapply delete_gone; eauto.
  - rewrite <- kind_at_find in *. now rewrite <- (delete_kind_other _ _ _ _ Hd a P).
Qed.

Lemma remove_empties_were_there (ds : list str) (fs fs' : node) :
  remove_empties ds fs = Some fs' ->
  forall e, In e ds -> find (components e) fs <> None.
Proof.
  revert fs; induction ds as [|d ds IH]; intros fs H e He; [destruct He|].
  cbn [remove_empties] in H.
  destruct (os_listdir d fs) as [[|]|] eqn:L; try discriminate.
  destruct (os_rmdir d fs) as [fs1|] eqn:R; [|discriminate].
  destruct (os_rmdir_inv _ _ _ R) as [Hd _].
  destruct He as [<- | He].
  - apply delete_find in Hd. destruct Hd as (x & -> & _). discriminate.
  - eapply delete_was_there; eauto.
Qed.

(** Directories removed one after the other, each empty at its turn, were
    removed bottom-up: none comes before a directory below it. *)
Lemma remove_empties_bottom_up (ds : list str) (fs fs' : node) :
  remove_empties ds fs = Some fs' -> bottom_up (map components ds).
Proof.
  revert fs; induction ds as [|d ds IH]; intros fs H l1 x l2 E d' Hd'.
  - destruct l1; discriminate.
  - cbn [remove_empties] in H.
    destruct (os_listdir d fs) as [[|]|] eqn:L; try discriminate.
    destruct (os_rmdir d fs) as [fs1|] eqn:R; [|discriminate].
    destruct (os_rmdir_inv _ _ _ R) as [Hd _].
    destruct l1 as [|y l1]; cbn [map app] in E; injection E as E1 E2.
    + subst x l2. apply in_map_iff in Hd'. destruct Hd' as (e & <- & He).
      destruct (is_prefix (components d) (components e)) eqn:P; auto.
      exfalso. apply (remove_empties_were_there _ _ _ H e He).
      eapply delete_gone; eauto.
    + eapply (IH fs1 H); eauto.
Qed.

Lemma pathRemover_empty (pk : pathRemover) :
  dirsToRemove pk = [] -> pk = {| dirsToRemove := [] |}.
Proof. destruct pk. cbn. now intros ->. Qed.

(** The removal step in the model without links.  For a directory [p] of a
    well-formed tree of directories and regular files, [pathRemover.walk]
    followed by [os.rmdir] returns.  The walk removes every file below [p] and
    leaves every directory; the noted directories are then removed, each one
    empty at its turn and so after all the directories below it; [p] itself
    goes last.  In the end nothing at or below [p] is left and every other
    path is what it was. *)
Lemma remove_path_removes_the_tree
        (fuel : nat) (pk : pathRemover) (p : str) (cs : list str)
        (es : list (str * node)) (fs : node) :
  wf fs = true -> height fs < fuel -> dirsToRemove pk = [] ->
  resolve p = Some cs -> cs <> [] -> find cs fs = Some (Dir es) ->
  exists dirs fs1 fs2 fs3,
    os_path_walk fuel p pathRemover_walking pk fs
      = Done {| dirsToRemove := dirs |} fs1 /\
    (forall q, kind_at q fs1 = kind_without_files cs q fs) /\
    rmdir_all (rev dirs) fs1 = Done tt fs2 /\
    remove_empties (rev dirs) fs1 = Some fs2 /\
    bottom_up (map components (rev dirs)) /\
    os_rmdir p fs2 = Some fs3 /\
    remove_path fuel pk p fs = Done pk fs3 /\
    (forall q, kind_at q fs3 = kind_without_tree cs q fs).
Proof.
  intros Hwf Hf Hpk Hp Hne Hfind.
  pose proof (wf_find _ _ _ Hwf Hfind) as Hwft.
  pose proof (height_find _ _ _ Hfind) as Hht.
  pose proof (graft_same cs (Dir es) fs Hwf Hfind) as Hsame.
  pose proof (pathRemover_os_path_walk fuel p cs fs (Dir es) es pk Hp Hfind Hwft
                ltac:(lia)) as Hwalk.
  rewrite Hsame, Hpk in Hwalk. cbn [app] in Hwalk.
  pose proof (rmdir_all_walk_dirs (Dir es) p cs fs (Dir es) Hp Hfind Hwft) as Hrm.
  cbn beta iota in Hrm.
  destruct (delete_any_total cs (Dir es) fs Hfind Hne) as (fs3 & Hdel).
  assert (Hlast : os_rmdir p (graft cs (Dir []) fs) = Some fs3).
  { unfold os_rmdir. rewrite Hp.
    now rewrite (delete_at_graft is_empty_dir cs (Dir []) (Dir es) fs Hfind). }
  exists (walk_dirs p (Dir es)), (graft cs (strip_files (Dir es)) fs),
         (graft cs (Dir []) fs), fs3.
  split; [exact Hwalk|]. split; [|split; [exact Hrm|]].
  - intros q. unfold kind_without_files. destruct (is_prefix cs q) eqn:P.
    + apply is_prefix_iff in P. destruct P as (r & ->).
      unfold kind_at at 1. rewrite (find_graft cs r _ (Dir es) fs Hfind).
      fold (kind_at r (strip_files (Dir es))).
      rewrite kind_at_strip_files by auto.
      unfold kind_at. now rewrite find_app, Hfind.
    + now apply kind_at_graft_other with (t0 := Dir es).
  - split; [now apply rmdir_all_remove_empties|].
    split; [eapply remove_empties_bottom_up, rmdir_all_remove_empties; eauto|].
    split; [exact Hlast|]. split.
    + unfold remove_path, bind, peek, os_path_isdir, stat. rewrite Hp, Hfind.
      unfold pathRemover_walk, bind. rewrite Hwalk. cbn [dirsToRemove].
      rewrite Hrm. cbn [ret]. unfold sys. rewrite Hlast.
      now rewrite (pathRemover_empty pk Hpk).
    + intros q. unfold kind_without_tree. destruct (is_prefix cs q) eqn:P.
      * apply kind_at_find. eapply delete_gone; eauto.
      * eapply delete_kind_other; eauto.
Qed.


(** ** Symbolic links in the removal step *)

(** C5.  A selected snapshot that holds a regular file and a symbolic link to
    a directory: [os.path.isdir] follows the link, so [pathRemover.walking]
    notes it as a directory to remove, and [os.rmdir] on the link raises
    [OSError].  The removal ends there: the file is gone, the link and the
    snapshot directory are still there. *)
Theorem remove_path_stops_at_a_link_to_a_directory :
  Links.os_path_isdir snapshot1 Links.link_fs = true /\
  Links.remove_path 80 new_pathRemover snapshot1 Links.link_fs
    = Links.Raised OSError Links.link_fs_left /\
  Links.lstat (os_path_join snapshot1 [s "f"]) Links.link_fs_left = None /\
  Links.lstat (os_path_join snapshot1 [s "current"]) Links.link_fs_left
    = Some (Links.Link (s "/data")) /\
  Links.os_listdir snapshot1 Links.link_fs_left = Some [s "current"].
Proof. repeat split; vm_compute; reflexivity. Qed.

(** *** Without links the two file systems agree *)

Lemma lookup_inject (c : str) (es : list (str * node)) :
  Links.lookup c (map (fun e => (fst e, inject (snd e))) es)
  = option_map inject (lookup c es).
Proof.
  induction es as [|[n x] es IH]; cbn [map Links.lookup lookup fst snd]; auto.
  destruct (str_eqb n c); auto.
Qed.

Lemma find_inject (cs : list str) (fs : node) :
  Links.find cs (inject fs) = option_map inject (find cs fs).
Proof.
  revert fs; induction cs as [|c cs IH]; intros fs; cbn [Links.find find]; auto.
  destruct fs as [|es]; cbn [inject]; auto.
  rewrite lookup_inject. destruct (lookup c es); cbn [option_map]; auto.
Qed.

Lemma remove_entry_inject (c : str) (es : list (str * node)) :
  Links.remove_entry c (map (fun e => (fst e, inject (snd e))) es)
  = map (fun e => (fst e, inject (snd e))) (remove_entry c es).
Proof.
  unfold Links.remove_entry, remove_entry.
  induction es as [|[n x] es IH]; cbn [map filter fst snd]; auto.
  destruct (str_eqb n c); cbn [negb map fst snd]; now rewrite IH.
Qed.

Lemma set_entry_inject (c : str) (y : node) (es : list (str * node)) :
  Links.set_entry c (inject y) (map (fun e => (fst e, inject (snd e))) es)
  = map (fun e => (fst e, inject (snd e))) (set_entry c y es).
Proof.
  unfold Links.set_entry, set_entry. rewrite !map_map. apply map_ext.
  intros [n x]. cbn [fst snd]. now destruct (str_eqb n c).
Qed.

Lemma delete_inject (ok : node -> bool) (ok' : Links.node -> bool) :
  (forall x, ok' (inject x) = ok x) ->
  forall cs fs, Links.delete ok' cs (inject fs) = option_map inject (delete ok cs fs).
Proof.
  intros Hok. induction cs as [|c cs IH]; intros fs.
  - destruct fs; reflexivity.
  - destruct fs as [|es]; [reflexivity|].
    cbn [inject Links.delete delete]. rewrite lookup_inject.
    destruct (lookup c es) as [x|]; cbn [option_map]; auto.
    destruct cs as [|c2 cs].
    + rewrite Hok. destruct (ok x); cbn [option_map inject]; auto.
      now rewrite remove_entry_inject.
    + rewrite (IH x). destruct (delete ok (c2 :: cs) x) as [x'|];
        cbn [option_map inject]; auto.
      now rewrite set_entry_inject.
Qed.

Lemma locate_step (links : nat) (fs : Links.node) (follow : bool)
      (at_ todo : list str) :
  Links.locate links fs follow at_ todo
  = match todo with
    | [] => Some at_
    | c :: todo' =>
        match Links.find (at_ ++ [c]) fs with
        | None => None
        | Some Links.File => if is_empty todo' then Some (at_ ++ [c]) else None
        | Some (Links.Dir _) => Links.locate links fs follow (at_ ++ [c]) todo'
        | Some (Links.Link t) =>
            if is_empty todo' && negb follow then Some (at_ ++ [c])
            else match links with
                 | 0 => None
                 | S links' =>
                     Links.locate links' fs follow
                                  (if startswith_slash t then [] else at_)
                                  (components t ++ todo')
                 end
        end
    end.
Proof. destruct links; destruct todo; reflexivity. Qed.

(** Without links a path stands for itself. *)
Lemma locate_inject (links : nat) (follow : bool) (fs : node) (todo : list str) :
  forall at_, find at_ fs <> None ->
  Links.locate links (inject fs) follow at_ todo
  = match find (at_ ++ todo) fs with
    | Some _ => Some (at_ ++ todo)
    | None => None
    end.
Proof.
  induction todo as [|c todo IH]; intros at_ Hat; rewrite locate_step.
  - rewrite app_nil_r. destruct (find at_ fs); [reflexivity|congruence].
  - rewrite find_inject.
    replace (at_ ++ c :: todo) with ((at_ ++ [c]) ++ todo)
      by (now rewrite <- app_assoc).
    rewrite (find_app (at_ ++ [c]) todo fs).
    destruct (find (at_ ++ [c]) fs) as [[|es]|] eqn:F; cbn [option_map inject]; auto.
    + destruct todo; cbn [is_empty find]; [now rewrite app_nil_r | reflexivity].
    + rewrite IH by congruence. now rewrite find_app, F.
Qed.

Lemma place_inject (follow : bool) (p : str) (fs : node) :
  Links.place follow p (inject fs)
  = match stat p fs with
    | Some _ => resolve p
    | None => None
    end.
Proof.
  unfold Links.place, stat, resolve. destruct p as [|c p]; auto.
  now rewrite locate_inject by discriminate.
Qed.

Lemma stat_inject (p : str) (fs : node) :
  Links.stat p (inject fs) = option_map inject (stat p fs).
Proof.
  unfold Links.stat. rewrite place_inject. unfold stat.
  destruct (resolve p) as [cs|]; auto.
  destruct (find cs fs) eqn:F; auto. now rewrite find_inject, F.
Qed.

Lemma lstat_inject (p : str) (fs : node) :
  Links.lstat p (inject fs) = option_map inject (stat p fs).
Proof.
  unfold Links.lstat. rewrite place_inject. unfold stat.
  destruct (resolve p) as [cs|]; auto.
  destruct (find cs fs) eqn:F; auto. now rewrite find_inject, F.
Qed.

Lemma os_listdir_inject (p : str) (fs : node) :
  Links.os_listdir p (inject fs) = os_listdir p fs.
Proof.
  unfold Links.os_listdir, os_listdir. rewrite stat_inject.
  destruct (stat p fs) as [[|es]|]; cbn [option_map inject]; auto.
  rewrite map_map. reflexivity.
Qed.

Lemma os_path_isdir_inject (p : str) (fs : node) :
  Links.os_path_isdir p (inject fs) = os_path_isdir p fs.
Proof.
  unfold Links.os_path_isdir, os_path_isdir. rewrite stat_inject.
  now destruct (stat p fs) as [[|es]|].
Qed.

Lemma unlink_inject (ok : node -> bool) (ok' : Links.node -> bool) (p : str) (fs : node) :
  (forall x, ok' (inject x) = ok x) ->
  match Links.place false p (inject fs) with
  | Some cs => Links.delete ok' cs (inject fs)
  | None => None
  end
  = option_map inject
      match resolve p with Some cs => delete ok cs fs | None => None end.
Proof.
  intros Hok. rewrite place_inject. unfold stat.
  destruct (resolve p) as [cs|]; [|destruct (find [] fs); reflexivity].
  destruct (find cs fs) eqn:F.
  - now apply delete_inject.
  - destruct (delete ok cs fs) as [fs'|] eqn:D; auto.
    apply delete_find in D. destruct D as (x & D & _). congruence.
Qed.

Lemma os_remove_inject (p : str) (fs : node) :
  Links.os_remove p (inject fs) = option_map inject (os_remove p fs).
Proof. apply unlink_inject. now intros [|es]. Qed.

Lemma os_rmdir_inject (p : str) (fs : node) :
  Links.os_rmdir p (inject fs) = option_map inject (os_rmdir p fs).
Proof. apply unlink_inject. now intros [|[|e es]]. Qed.

Lemma agree_ret {A : Type} (a : A) : agree (ret a) (Links.ret a).
Proof. intros fs. reflexivity. Qed.

Lemma agree_bind {A B : Type} (m : M A) (m' : Links.M A)
      (k : A -> M B) (k' : A -> Links.M B) :
  agree m m' -> (forall a, agree (k a) (k' a)) -> agree (bind m k) (Links.bind m' k').
Proof.
  intros Hm Hk fs. unfold bind, Links.bind. rewrite Hm.
  destruct (m fs) as [a fs1|e fs1|]; cbn [inject_outcome]; auto. apply Hk.
Qed.

Lemma agree_sys (op : node -> option node) (op' : Links.node -> option Links.node) :
  (forall fs, op' (inject fs) = option_map inject (op fs)) ->
  agree (sys op) (Links.sys op').
Proof.
  intros H fs. unfold sys, Links.sys. rewrite H. now destruct (op fs).
Qed.

Lemma agree_peek {A : Type} (q : node -> A) (q' : Links.node -> A) :
  (forall fs, q' (inject fs) = q fs) -> agree (peek q) (Links.peek q').
Proof. intros H fs. unfold peek, Links.peek. now rewrite H. Qed.

Lemma agree_for_each {A V : Type} (body : A -> V -> M V) (body' : A -> V -> Links.M V) :
  (forall x v, agree (body x v) (body' x v)) ->
  forall l v, agree (for_each l body v) (Links.for_each l body' v).
Proof.
  intros H. induction l as [|x l IH]; intros v; cbn [for_each Links.for_each].
  - apply agree_ret.
  - apply agree_bind; auto.
Qed.

Lemma agree_os_path_walk {V : Type} (func : V -> str -> list str -> M V)
      (func' : V -> str -> list str -> Links.M V) :
  (forall v top names, agree (func v top names) (func' v top names)) ->
  forall fuel top v,
    agree (os_path_walk fuel top func v) (Links.os_path_walk fuel top func' v).
Proof.
  intros Hf. induction fuel as [|fuel IH]; intros top v fs;
    cbn [os_path_walk Links.os_path_walk]; [reflexivity|].
  rewrite os_listdir_inject. destruct (os_listdir top fs) as [names|]; [|reflexivity].
  apply agree_bind; [apply Hf|]. intros v1.
  apply agree_for_each. intros name v2 fs2. cbn beta zeta.
  rewrite lstat_inject.
  destruct (stat (os_path_join top [name]) fs2) as [[|es]|];
    cbn [option_map inject]; try reflexivity.
  apply IH.
Qed.

Lemma agree_pathRemover_walking (self : pathRemover) (dirname : str) (names : list str) :
  agree (pathRemover_walking self dirname names)
        (Links.pathRemover_walking self dirname names).
Proof.
  unfold pathRemover_walking, Links.pathRemover_walking.
  apply agree_for_each. intros name v.
  apply agree_bind; [apply agree_peek, os_path_isdir_inject|].
  intros [|]; [apply agree_ret|].
  apply agree_bind; [apply agree_sys, os_remove_inject|]. intros _. apply agree_ret.
Qed.

Lemma agree_rmdir_all (dirs : list str) : agree (rmdir_all dirs) (Links.rmdir_all dirs).
Proof.
  unfold rmdir_all, Links.rmdir_all. apply agree_for_each.
  intros d u. apply agree_sys, os_rmdir_inject.
Qed.

Lemma agree_pathRemover_walk (fuel : nat) (self : pathRemover) (path : str) :
  agree (pathRemover_walk fuel self path) (Links.pathRemover_walk fuel self path).
Proof.
  unfold pathRemover_walk, Links.pathRemover_walk.
  apply agree_bind; [apply agree_os_path_walk, agree_pathRemover_walking|].
  intros v. apply agree_bind; [apply agree_rmdir_all|]. intros _. apply agree_ret.
Qed.

Lemma agree_remove_path (fuel : nat) (pk : pathRemover) (p : str) :
  agree (remove_path fuel pk p) (Links.remove_path fuel pk p).
Proof.
  unfold remove_path, Links.remove_path.
  apply agree_bind; [apply agree_peek, os_path_isdir_inject|].
  intros [|].
  - apply agree_bind; [apply agree_pathRemover_walk|]. intros pk1.
    apply agree_bind; [apply agree_sys, os_rmdir_inject|]. intros _. apply agree_ret.
  - apply agree_bind; [apply agree_sys, os_remove_inject|]. intros _. apply agree_ret.
Qed.

(** X15.  The removal step on a file system without symbolic links, with the
    calls that know links.  For a selected directory [p] the walk returns,
    having removed every file below [p] and noted every directory below it;
    the noted directories are then removed, each one empty at its turn and so
    after all the directories below it; [os.rmdir] of [p] itself succeeds
    last.  The step returns, nothing at or below [p] is left and every other
    path is what it was. *)
Theorem remove_path_removes_a_tree_without_links
        (fuel : nat) (pk : pathRemover) (p : str) (cs : list str)
        (es : list (str * node)) (fs : node) :
  wf fs = true -> height fs < fuel -> dirsToRemove pk = [] ->
  resolve p = Some cs -> cs <> [] -> find cs fs = Some (Dir es) ->
  exists dirs fs1 fs2 fs3,
    Links.os_path_walk fuel p Links.pathRemover_walking pk (inject fs)
      = Links.Done {| dirsToRemove := dirs |} (inject fs1) /\
    (forall q, kind_at q fs1 = kind_without_files cs q fs) /\
    Links.rmdir_all (rev dirs) (inject fs1) = Links.Done tt (inject fs2) /\
    remove_empties (rev dirs) fs1 = Some fs2 /\
    bottom_up (map components (rev dirs)) /\
    Links.os_rmdir p (inject fs2) = Some (inject fs3) /\
    Links.remove_path fuel pk p (inject fs) = Links.Done pk (inject fs3) /\
    (forall q, kind_at q fs3 = kind_without_tree cs q fs).
Proof.
  intros Hwf Hf Hpk Hp Hne Hfind.
  destruct (remove_path_removes_the_tree fuel pk p cs es fs Hwf Hf Hpk Hp Hne Hfind)
    as (dirs & fs1 & fs2 & fs3 & Hwalk & K1 & Hrm & Hre & Hbu & Hlast & Hall & K3).
  exists dirs, fs1, fs2, fs3. repeat split; auto.
  - rewrite (agree_os_path_walk _ _ agree_pathRemover_walking fuel p pk fs).
    now rewrite Hwalk.
  - rewrite (agree_rmdir_all (rev dirs) fs1). now rewrite Hrm.
  - rewrite os_rmdir_inject. now rewrite Hlast.
  - rewrite (agree_remove_path fuel pk p fs). now rewrite Hall.
Qed.

Lemma remove_path_removes_a_tree_without_links_witness :
  exists dirs fs1 fs2 fs3,
    Links.os_path_walk 10 snapshot1 Links.pathRemover_walking new_pathRemover
                       (inject three_fs)
      = Links.Done {| dirsToRemove := dirs |} (inject fs1) /\
    (forall q, kind_at q fs1 = kind_without_files (components snapshot1) q three_fs) /\
    Links.rmdir_all (rev dirs) (inject fs1) = Links.Done tt (inject fs2) /\
    remove_empties (rev dirs) fs1 = Some fs2 /\
    bottom_up (map components (rev dirs)) /\
    Links.os_rmdir snapshot1 (inject fs2) = Some (inject fs3) /\
    Links.remove_path 10 new_pathRemover snapshot1 (inject three_fs)
      = Links.Done new_pathRemover (inject fs3) /\
    (forall q, kind_at q fs3 = kind_without_tree (components snapshot1) q three_fs).
Proof.
  apply (remove_path_removes_a_tree_without_links 10 new_pathRemover snapshot1
           (components snapshot1)
           [(s "f", File); (s "d", Dir [(s "g", File)])] three_fs).
  - vm_compute. reflexivity.
  - vm_compute. lia.
  - reflexivity.
  - vm_compute. reflexivity.
  - vm_compute. discriminate.
  - vm_compute. reflexivity.
Defined.

(** ** Further properties: archive paths and selection *)

Lemma thisArchive_ends_with_snapshot (archive : str) (t : struct_time) :
  valid_tm t -> ends_with_snapshot archive (thisArchive archive t).
Proof.
  intros _.
  exists [], (zero_pad 4 (tm_year t) ++ slash :: zero_pad 2 (tm_mon t)
              ++ slash :: strftime_dmY_HMS t).
  split.
  - exists (zero_pad 4 (tm_year t)), (zero_pad 2 (tm_mon t)),
      (zero_pad 2 (tm_mday t) ++ zero_pad 2 (tm_mon t) ++ zero_pad 4 (tm_year t)),
      (zero_pad 2 (tm_hour t) ++ zero_pad 2 (tm_min t) ++ zero_pad 2 (tm_sec t)).
    split; [|split; [|split; [|split; [|split]]]].
    + unfold strftime_dmY_HMS. now rewrite <- !app_assoc.
    + apply zero_pad_length.
    + apply zero_pad_length.
    + now rewrite !length_app, !zero_pad_length.
    + now rewrite !length_app, !zero_pad_length.
    + rewrite !forallb_app, !zero_pad_digits. reflexivity.
  - cbn [app]. rewrite thisArchive_spelled.
    unfold os_path_join. cbn [fold_left].
    rewrite join2_joined_dir.
    + cbn [app]. reflexivity.
    + pose proof (startswith_slash_not _ (zero_pad_not_slash 4 (tm_year t))) as Hs.
      destruct (zero_pad 4 (tm_year t)) eqn:E.
      * now apply zero_pad_nonempty in E.
      * exact Hs.
Qed.

(** X1.  For a time with a four-digit year (where [strftime_dmY_HMS] is what
    [time.strftime] prints), the archive path [backup] builds is a candidate
    for the default filter of [trimArchives] called on the same archive
    directory. *)
Theorem backup_paths_pass_default_filter (archive : str) (t : struct_time) :
  valid_tm t ->
  re_search (default_filter archive) (thisArchive archive t) = true.
Proof.
  intros V. apply default_filter_search. left.
  now apply thisArchive_ends_with_snapshot.
Qed.

Lemma backup_paths_pass_default_filter_witness :
  re_search (default_filter (s "/arch")) (thisArchive (s "/arch") tm_a) = true.
Proof.
  apply (backup_paths_pass_default_filter (s "/arch") tm_a).
  unfold valid_tm, tm_a; cbn; lia.
Defined.

Lemma tm_compare_eq (t1 t2 : struct_time) : tm_compare t1 t2 = Eq -> t1 = t2.
Proof.
  destruct t1 as [y1 m1 d1 h1 i1 s1], t2 as [y2 m2 d2 h2 i2 s2].
  unfold tm_compare. cbn [tm_year tm_mon tm_mday tm_hour tm_min tm_sec].
  destruct (y1 ?= y2) eqn:Ey; cbn [lex]; try discriminate.
  destruct (m1 ?= m2) eqn:Em; cbn [lex]; try discriminate.
  destruct (d1 ?= d2) eqn:Ed; cbn [lex]; try discriminate.
  destruct (h1 ?= h2) eqn:Eh; cbn [lex]; try discriminate.
  destruct (i1 ?= i2) eqn:Ei; cbn [lex]; try discriminate.
  intros Es.
  apply Nat.compare_eq in Ey, Em, Ed, Eh, Ei, Es. now subst.
Qed.

(** X2.  Backups taken at different times (to the second) go to different
    archive directories. *)
Theorem thisArchive_distinct (archive : str) (t1 t2 : struct_time) :
  valid_tm t1 -> valid_tm t2 -> t1 <> t2 ->
  str_eqb (thisArchive archive t1) (thisArchive archive t2) = false.
Proof.
  intros V1 V2 Hne. apply str_eqb_neq. intros E. apply Hne, tm_compare_eq.
  rewrite <- (thisArchive_compare archive t1 t2 V1 V2), E.
  apply str_compare_refl.
Qed.

Lemma thisArchive_distinct_witness :
  str_eqb (thisArchive (s "/arch") tm_a) (thisArchive (s "/arch") tm_b) = false.
Proof.
  apply (thisArchive_distinct (s "/arch") tm_a tm_b).
  - unfold valid_tm, tm_a; cbn; lia.
  - unfold valid_tm, tm_b; cbn; lia.
  - discriminate.
Defined.

Lemma str_le_antisym (a b : str) : str_le a b -> str_le b a -> a = b.
Proof.
  rewrite !str_le_lt_or_eq. intros [H1 | ->] [H2 | E]; auto.
  exfalso. apply (str_lt_irrefl a). eapply str_lt_trans; eauto.
Qed.

(** Two ascending arrangements of the same entries are the same list. *)
Lemma sorted_unique (l1 l2 : list str) :
  StronglySorted str_le l1 -> StronglySorted str_le l2 ->
  Permutation l1 l2 -> l1 = l2.
Proof.
  intros H1. revert l2. induction H1 as [|a l1 Hs1 IH Ha]; intros l2 H2 P.
  - apply Permutation_nil in P. now subst.
  - destruct H2 as [|b l2 Hs2 Hb].
    + apply Permutation_sym, Permutation_nil in P. discriminate.
    + assert (a = b).
      { rewrite Forall_forall in Ha, Hb.
        assert (In b (a :: l1)) as [-> | Inb]
          by (eapply Permutation_in; [apply Permutation_sym, P | now left]); auto.
        assert (In a (b :: l2)) as [-> | Ina]
          by (eapply Permutation_in; [apply P | now left]); auto.
        apply str_le_antisym; auto. }
      subst b. f_equal. apply IH; auto. now apply Permutation_cons_inv in P.
Qed.

(** X3.  The selection does not depend on the order in which the walk (that
    is, [os.listdir]) reports the matching paths. *)
Theorem selection_ignores_listing_order (l l' : list str) (k : Z) :
  Permutation l l' -> pathsToTrim l k = pathsToTrim l' k.
Proof.
  intros P. unfold pathsToTrim. f_equal.
  apply sorted_unique; try apply sort_sorted.
  rewrite <- (sort_perm l), <- (sort_perm l'). exact P.
Qed.

Lemma selection_ignores_listing_order_witness :
  pathsToTrim three_snapshots 2 = pathsToTrim (rev three_snapshots) 2.
Proof.
  apply (selection_ignores_listing_order three_snapshots (rev three_snapshots) 2).
  apply Permutation_rev.
Defined.

Lemma pathsToTrim_firstn (l : list str) (k : Z) :
  (1 <= k)%Z -> pathsToTrim l k = firstn (length l - Z.to_nat k) (sort l).
Proof.
  intros Hk. unfold pathsToTrim, slice_to. rewrite sort_length.
  replace (-1 * k <? 0)%Z with true by (symmetry; apply Z.ltb_lt; lia).
  f_equal. lia.
Qed.

Lemma firstn_more {A : Type} (a b : nat) (l : list A) :
  a <= b -> firstn b l = firstn a l ++ firstn (b - a) (skipn a l).
Proof.
  intros H. rewrite <- (firstn_skipn a l) at 1.
  rewrite firstn_app, length_firstn.
  destruct (Nat.le_gt_cases a (length l)) as [Hl | Hl].
  - rewrite Nat.min_l by auto. f_equal.
    apply firstn_all2. rewrite length_firstn. lia.
  - rewrite (skipn_all2 l) by lia. rewrite !firstn_nil, !app_nil_r.
    rewrite !firstn_all2; auto; try lia. rewrite length_firstn. lia.
Qed.

(** X4.  Keeping more entries removes fewer: for [1 <= k <= k'] what is
    selected with [k'] entries to keep is an initial part of what is selected
    with [k]. *)
Theorem selection_shrinks_as_keep_grows (l : list str) (k k' : Z) :
  (1 <= k)%Z -> (k <= k')%Z ->
  exists more, pathsToTrim l k = pathsToTrim l k' ++ more.
Proof.
  intros H1 H2. rewrite !pathsToTrim_firstn by lia.
  eexists. apply firstn_more. lia.
Qed.

Lemma selection_shrinks_as_keep_grows_witness :
  exists more, pathsToTrim three_snapshots 1 = pathsToTrim three_snapshots 2 ++ more.
Proof.
  apply (selection_shrinks_as_keep_grows three_snapshots 1 2); lia.
Defined.

(** When no more paths match than are to be kept, nothing is selected. *)
Lemma nothing_selected_within_keep (l : list str) (k : Z) :
  (Z.of_nat (length l) <= k)%Z -> pathsToTrim l k = [].
Proof.
  intros H. unfold pathsToTrim, slice_to. rewrite sort_length.
  destruct (-1 * k <? 0)%Z eqn:E.
  - replace (Z.max 0 (-1 * k + Z.of_nat (length l))) with 0%Z by lia. reflexivity.
  - apply Z.ltb_ge in E.
    replace (Z.min (-1 * k) (Z.of_nat (length l))) with 0%Z by lia. reflexivity.
Qed.

Lemma nothing_selected_within_keep_empty (k : Z) : pathsToTrim [] k = [].
Proof. unfold pathsToTrim, slice_to. cbn [sort]. apply firstn_nil. Qed.

(** X5.  When the walk finds no more matching paths than are to be kept,
    [trimArchives], dry run or not, returns and changes nothing. *)
Theorem trimArchives_within_keep
        (fuel : nat) (self : RSyncBackup) (archiveDir : str) (filter : option pattern)
        (entriesToKeep : Z) (removeParentIfEmpty : bool) (fs : node) (found : list str) :
  pathWalker_walk fuel
    (new_pathWalker (match filter with
                     | None => default_filter archiveDir
                     | Some f => f
                     end)) archiveDir fs = Done found fs ->
  (Z.of_nat (length found) <= entriesToKeep)%Z ->
  trimArchives fuel self archiveDir filter entriesToKeep removeParentIfEmpty fs
  = Done tt fs.
Proof.
  intros Hwalk Hk. unfold trimArchives, trim_select, bind. rewrite Hwalk.
  cbn [ret]. now rewrite nothing_selected_within_keep.
Qed.

Lemma trimArchives_within_keep_witness :
  trimArchives 10 live (s "/arch") None 3 true three_fs = Done tt three_fs.
Proof.
  apply (trimArchives_within_keep 10 live (s "/arch") None 3 true three_fs
           three_found).
  - vm_compute. reflexivity.
  - cbn. lia.
Defined.

(** ** Further properties: the walk, the dry run, the loops *)

Lemma In_lookup (n : str) (x : node) (es : list (str * node)) :
  NoDup (map fst es) -> In (n, x) es -> lookup n es = Some x.
Proof.
  intros Hnd Hin. apply in_split in Hin. destruct Hin as (pre & post & ->).
  rewrite map_app in Hnd. cbn [map fst] in Hnd.
  apply lookup_middle. intros H. apply (NoDup_remove_2 _ _ _ Hnd), in_or_app. auto.
Qed.

Lemma pathWalker_walking_exact (dirname : str) (names : list str) (self : pathWalker)
      (fs : node) :
  pathWalker_walking self dirname names fs
  = Done {| regex := regex self;
            foundPaths := foundPaths self
              ++ filter (re_search (regex self))
                        (map (fun n => os_path_join dirname [n]) names) |} fs.
Proof.
  unfold pathWalker_walking.
  revert self; induction names as [|n names IH]; intros self; cbn [for_each map filter].
  - now rewrite pathWalker_eta.
  - unfold bind.
    destruct (re_search (regex self) (os_path_join dirname [n])) eqn:E; cbn [ret].
    + rewrite IH. cbn [regex foundPaths]. now rewrite <- app_assoc.
    + apply IH.
Qed.

(** The fuelled walk of [pathWalker] finds what the recursion on the tree
    finds. *)
Lemma pathWalker_os_path_walk_exact (fuel : nat) :
  forall (top : str) (cs : list str) (fs t : node) (self : pathWalker),
  wf fs = true -> resolve top = Some cs -> find cs fs = Some t ->
  height t < fuel ->
  os_path_walk fuel top pathWalker_walking self fs
  = Done {| regex := regex self;
            foundPaths := foundPaths self ++ found_in (regex self) top t |} fs.
Proof.
  induction fuel as [|fuel IH]; intros top cs fs t self Hwf Htop Hfind Hh; [lia|].
  cbn [os_path_walk]. unfold os_listdir, stat. rewrite Htop, Hfind.
  destruct t as [|es].
  - cbn [found_in]. now rewrite pathWalker_eta.
  - pose proof (wf_find _ _ _ Hwf Hfind) as Hwft.
    destruct (wf_children es Hwft) as (Hnd & Hvalid & Hwfc).
    unfold bind at 1. rewrite pathWalker_walking_exact. rewrite map_map.
    assert (Loop : forall l acc,
      (forall n x, In (n, x) l -> In (n, x) es) ->
      for_each (map fst l)
        (fun name v fs0 =>
           match match resolve (os_path_join top [name]) with
                 | Some cs0 => find cs0 fs0
                 | None => None
                 end with
           | Some (Dir _) =>
               os_path_walk fuel (os_path_join top [name]) pathWalker_walking v fs0
           | _ => Done v fs0
           end) {| regex := regex self; foundPaths := foundPaths self ++ acc |} fs
      = Done {| regex := regex self;
                foundPaths := foundPaths self ++ acc
                  ++ flat_map (fun e => found_in (regex self) (os_path_join top [fst e])
                                                 (snd e)) l |} fs).
    { induction l as [|[n x] l IHl]; intros acc Hin; cbn [map fst for_each flat_map snd].
      - now rewrite app_nil_r.
      - pose proof (Hin n x (or_introl eq_refl)) as Hines.
        assert (Hn : valid_name n = true) by (apply (Hvalid n x Hines)).
        assert (Hin' : forall n' x', In (n', x') l -> In (n', x') es)
          by (intros n' x' H; apply Hin; now right).
        unfold bind at 1.
        rewrite (resolve_join top n cs Htop Hn), find_app, Hfind. cbn [find].
        rewrite (In_lookup n x es Hnd Hines).
        destruct x as [|es'].
        + cbn [found_in app]. now apply IHl.
        + rewrite (IH (os_path_join top [n]) (cs ++ [n]) fs (Dir es')).
          * cbn [regex foundPaths]. rewrite <- app_assoc.
            rewrite (IHl (acc ++ found_in (regex self) (os_path_join top [n]) (Dir es')))
              by auto.
            now rewrite <- !app_assoc.
          * exact Hwf.
          * now apply resolve_join.
          * rewrite find_app, Hfind. cbn [find].
            now rewrite (In_lookup n (Dir es') es Hnd Hines).
          * pose proof (height_entry es n (Dir es') Hines). lia. }
    cbn [stat]. unfold stat in *.
    rewrite (Loop es _ (fun n x H => H)). cbn [found_in]. reflexivity.
Qed.

(** What the recursion on the tree finds: the joined paths of all that lies
    below [top], at any depth, in which the pattern finds a match. *)
Lemma found_in_iff (regex0 : pattern) (t : node) :
  wf t = true ->
  forall (top p : str),
  In p (found_in regex0 top t) <->
  exists r, r <> [] /\ find r t <> None /\
            p = os_path_join top r /\ re_search regex0 p = true.
Proof.
  induction t as [|es IH] using node_induction; intros Hwf top p.
  - cbn [found_in In]. split; [tauto|].
    intros (r & Hr & Hf & _). destruct r; [congruence|]. now elim Hf.
  - destruct (wf_children es Hwf) as (Hnd & Hvalid & Hwfc).
    rewrite Forall_forall in IH.
    cbn [found_in]. rewrite in_app_iff, filter_In, in_map_iff, in_flat_map. split.
    + intros [[([n x] & <- & Hin) Hre] | ([n x] & Hin & Hp)]; cbn [fst snd] in *.
      * exists [n]. repeat split; auto; try discriminate.
        cbn [find]. now rewrite (In_lookup n x es Hnd Hin).
      * apply (IH (n, x) Hin (Hwfc n x Hin)) in Hp.
        destruct Hp as (r & Hr & Hf & -> & Hre).
        exists (n :: r). repeat split; auto; try discriminate.
        cbn [find]. now rewrite (In_lookup n x es Hnd Hin).
    + intros (r & Hr & Hf & -> & Hre). destruct r as [|n r]; [congruence|].
      cbn [find] in Hf. destruct (lookup n es) as [x|] eqn:E; [|congruence].
      apply lookup_In in E. destruct r as [|n2 r].
      * left. split; auto. now exists (n, x).
      * right. exists (n, x). split; auto. cbn [fst snd].
        apply (IH (n, x) E (Hwfc n x E)).
        exists (n2 :: r). repeat split; auto. discriminate.
Qed.

(** X6.  On a well-formed file system [pathWalker.walk] returns, leaves the
    file system as it is, and finds exactly the joined paths of the entries
    below [path], at any depth, in which the pattern finds a match; [path]
    itself is never among them. *)
Theorem pathWalker_walk_finds_the_matching_descendants
        (fuel : nat) (regex0 : pattern) (path : str) (cs : list str) (fs : node) :
  wf fs = true -> height fs < fuel -> resolve path = Some cs ->
  exists found,
    pathWalker_walk fuel (new_pathWalker regex0) path fs = Done found fs /\
    forall p, In p found <->
      exists r, r <> [] /\ find (cs ++ r) fs <> None /\
                p = os_path_join path r /\ re_search regex0 p = true.
Proof.
  intros Hwf Hf Hp. destruct (find cs fs) as [t|] eqn:Hfind.
  - exists (found_in regex0 path t). split.
    + unfold pathWalker_walk, bind.
      rewrite (pathWalker_os_path_walk_exact fuel path cs fs t); auto.
      pose proof (height_find _ _ _ Hfind). lia.
    + intros p. rewrite (found_in_iff regex0 t (wf_find _ _ _ Hwf Hfind)).
      split; intros (r & Hr & Hfr & Hj & Hre); exists r; repeat split; auto.
      * now rewrite find_app, Hfind.
      * now rewrite find_app, Hfind in Hfr.
  - exists []. split.
    + destruct fuel as [|fuel]; [lia|].
      unfold pathWalker_walk, bind. cbn [os_path_walk].
      unfold os_listdir, stat. rewrite Hp, Hfind. reflexivity.
    + intros p. split; [intros []|].
      intros (r & _ & Hfr & _). rewrite find_app, Hfind in Hfr. congruence.
Qed.

Lemma pathWalker_walk_finds_the_matching_descendants_witness :
  exists found,
    pathWalker_walk 10 (new_pathWalker (default_filter (s "/arch"))) (s "/arch") three_fs
      = Done found three_fs /\
    forall p, In p found <->
      exists r, r <> [] /\ find (components (s "/arch") ++ r) three_fs <> None /\
                p = os_path_join (s "/arch") r /\
                re_search (default_filter (s "/arch")) p = true.
Proof.
  apply (pathWalker_walk_finds_the_matching_descendants 10 (default_filter (s "/arch"))
           (s "/arch") (components (s "/arch")) three_fs).
  - vm_compute. reflexivity.
  - vm_compute. lia.
  - vm_compute. reflexivity.
Defined.

(** X7.  When [archiveDir] names no directory (nothing, or a regular file),
    the walk swallows the error of [os.listdir] and [trimArchives] returns
    without an error, having changed nothing. *)
Theorem trimArchives_without_archive_dir
        (fuel : nat) (self : RSyncBackup) (archiveDir : str) (filter : option pattern)
        (entriesToKeep : Z) (removeParentIfEmpty : bool) (fs : node) :
  1 <= fuel -> os_listdir archiveDir fs = None ->
  trimArchives fuel self archiveDir filter entriesToKeep removeParentIfEmpty fs
  = Done tt fs.
Proof.
  intros Hf L. destruct fuel as [|fuel]; [lia|].
  unfold trimArchives, trim_select, pathWalker_walk, bind.
  cbn [os_path_walk]. rewrite L. cbn [ret foundPaths new_pathWalker].
  now rewrite nothing_selected_within_keep_empty.
Qed.

Lemma trimArchives_without_archive_dir_witness :
  trimArchives 5 live (s "/nowhere") None 2 true three_fs = Done tt three_fs.
Proof.
  apply (trimArchives_without_archive_dir 5 live (s "/nowhere") None 2 true three_fs).
  - lia.
  - vm_compute. reflexivity.
Defined.

(** ** Further properties: what a dry run, a loop and a removal can do *)

(** A loop whose body never changes the file system never changes it. *)
Lemma for_each_preserves {A V : Type} (body : A -> V -> M V) (fs : node) :
  (forall x v fs', final (body x v fs) = Some fs' -> fs' = fs) ->
  forall l v fs', final (for_each l body v fs) = Some fs' -> fs' = fs.
Proof.
  intros Hb. induction l as [|x l IH]; intros v fs'; cbn [for_each].
  - cbn. now intros [= <-].
  - unfold bind. destruct (body x v fs) as [v1 fs1|e fs1|] eqn:E.
    + assert (fs1 = fs) by (apply (Hb x v); now rewrite E). subst fs1. apply IH.
    + intros H. apply (Hb x v). now rewrite E.
    + discriminate.
Qed.

Lemma pathWalker_walk_preserves (fuel : nat) (top : str) (v : pathWalker) (fs fs' : node) :
  final (os_path_walk fuel top pathWalker_walking v fs) = Some fs' -> fs' = fs.
Proof.
  revert top v fs'; induction fuel as [|fuel IH]; intros top v fs'; cbn [os_path_walk].
  - discriminate.
  - destruct (os_listdir top fs) as [names|]; [|cbn; now intros [= <-]].
    unfold bind at 1. rewrite pathWalker_walking_exact.
    apply for_each_preserves. intros n v1 fs1.
    destruct (stat (os_path_join top [n]) fs) as [[|es]|]; try (cbn; now intros [= <-]).
    apply IH.
Qed.

Lemma prune_parents_dry_preserves (fuel : nat) (self : RSyncBackup) (p : str)
      (fs fs' : node) :
  testRun self = true ->
  final (prune_parents fuel self p fs) = Some fs' -> fs' = fs.
Proof.
  intros Hdry. revert p; induction fuel as [|fuel IH]; intros p; cbn [prune_parents].
  - discriminate.
  - destruct (str_eqb p (fst (os_path_split p))); [cbn; now intros [= <-]|].
    unfold bind at 1. unfold ask.
    destruct (os_listdir (fst (os_path_split p)) fs) as [names|];
      [|cbn; now intros [= <-]].
    destruct (length names =? 0); [|cbn; now intros [= <-]].
    rewrite Hdry. unfold bind. cbn [ret]. apply IH.
Qed.

(** X8.  A dry run never changes the file system: whatever [trimArchives]
    does with [testRun] set, on any file system, and whether it returns or
    raises, the file system it leaves is the one it started from. *)
Theorem dry_run_never_changes_the_file_system
        (fuel : nat) (self : RSyncBackup) (archiveDir : str) (filter : option pattern)
        (entriesToKeep : Z) (removeParentIfEmpty : bool) (fs fs' : node) :
  testRun self = true ->
  final (trimArchives fuel self archiveDir filter entriesToKeep removeParentIfEmpty fs)
    = Some fs' ->
  fs' = fs.
Proof.
  intros Hdry. unfold trimArchives, trim_select, pathWalker_walk.
  unfold bind at 1. unfold bind at 1. unfold bind at 1.
  destruct (os_path_walk fuel archiveDir pathWalker_walking _ fs) as [w fs1|e fs1|] eqn:W.
  - assert (fs1 = fs) by (eapply pathWalker_walk_preserves; now rewrite W).
    subst fs1. cbn [ret]. unfold bind.
    destruct (for_each _ _ new_pathRemover fs) as [pk fs2|e fs2|] eqn:L.
    + cbn. intros [= <-].
      eapply (for_each_preserves (trim_one fuel self removeParentIfEmpty) fs);
        [|rewrite L; reflexivity].
      intros x v fs3. unfold trim_one. rewrite Hdry. unfold bind. cbn [ret].
      destruct removeParentIfEmpty; [|cbn; now intros [= <-]].
      destruct (prune_parents fuel self x fs) as [u fs4|e fs4|] eqn:P; cbn;
        intros [= <-]; eapply prune_parents_dry_preserves; eauto; now rewrite P.
    + cbn. intros [= <-].
      eapply (for_each_preserves (trim_one fuel self removeParentIfEmpty) fs);
        [|rewrite L; reflexivity].
      intros x v fs3. unfold trim_one. rewrite Hdry. unfold bind. cbn [ret].
      destruct removeParentIfEmpty; [|cbn; now intros [= <-]].
      destruct (prune_parents fuel self x fs) as [u fs4|e' fs4|] eqn:P; cbn;
        intros [= <-]; eapply prune_parents_dry_preserves; eauto; now rewrite P.
    + discriminate.
  - cbn. intros [= <-]. eapply pathWalker_walk_preserves. now rewrite W.
  - discriminate.
Qed.

Lemma dry_run_never_changes_the_file_system_witness : nested_fs = nested_fs.
Proof.
  apply (dry_run_never_changes_the_file_system 80 dry (s "/arch") None 1 true
           nested_fs nested_fs).
  - reflexivity.
  - vm_compute. reflexivity.
Defined.

(** X9.  The [while (looking)] loop ends: started from a path of [n]
    characters it runs at most [n] rounds, each one on a shorter path, and
    then returns or raises. *)
Theorem prune_parents_ends_within_length
        (fuel : nat) (self : RSyncBackup) (p : str) (fs : node) :
  length p < fuel ->
  exists fs', final (prune_parents fuel self p fs) = Some fs'.
Proof.
  intros Hf. pose proof (prune_parents_terminates fuel self p fs Hf) as H.
  destruct (prune_parents fuel self p fs) as [u fs'|e fs'|];
    [exists fs'; reflexivity | exists fs'; reflexivity | congruence].
Qed.

Lemma prune_parents_ends_within_length_witness :
  exists fs',
    final (prune_parents 30 live (s "/arch/2021/01/01012021-120000") chain_fs) = Some fs'.
Proof.
  apply (prune_parents_ends_within_length 30 live (s "/arch/2021/01/01012021-120000")
           chain_fs).
  cbn. lia.
Defined.

Lemma delete_total (ok : node -> bool) (cs : list str) (x fs : node) :
  find cs fs = Some x -> ok x = true -> cs <> [] ->
  exists fs', delete ok cs fs = Some fs'.
Proof.
  revert fs; induction cs as [|c cs IH]; intros fs H Hok Hne; [congruence|].
  cbn [find] in H. destruct fs as [|es]; [discriminate|].
  destruct (lookup c es) as [y|] eqn:E; [|discriminate].
  cbn [delete]. rewrite E. destruct cs as [|c2 cs].
  - injection H as ->. rewrite Hok. eauto.
  - destruct (IH y H Hok) as (y' & ->); [discriminate|]. eauto.
Qed.

(** X10.  For a selected path that is a regular file the removal step is one
    [os.remove]: it returns, the file is gone and every other path is what it
    was. *)
Theorem remove_path_removes_one_file
        (fuel : nat) (pk : pathRemover) (p : str) (cs : list str) (fs : node) :
  resolve p = Some cs -> cs <> [] -> find cs fs = Some File ->
  exists fs',
    remove_path fuel pk p fs = Done pk fs' /\
    os_remove p fs = Some fs' /\
    forall q, kind_at q fs' = kind_without_tree cs q fs.
Proof.
  intros Hp Hne Hfind.
  destruct (delete_total is_file cs File fs Hfind eq_refl Hne) as (fs' & Hdel).
  assert (Hrm : os_remove p fs = Some fs') by (unfold os_remove; now rewrite Hp).
  exists fs'. split; [|split; [exact Hrm|]].
  - unfold remove_path, bind, peek, os_path_isdir, stat. rewrite Hp, Hfind.
    unfold sys. now rewrite Hrm.
  - intros q. unfold kind_without_tree. destruct (is_prefix cs q) eqn:P.
    + apply kind_at_find. eapply delete_gone; eauto.
    + eapply delete_kind_other; eauto.
Qed.

Lemma remove_path_removes_one_file_witness :
  exists fs',
    remove_path 10 new_pathRemover (s "/arch/README") three_fs = Done new_pathRemover fs' /\
    os_remove (s "/arch/README") three_fs = Some fs' /\
    forall q, kind_at q fs' = kind_without_tree (components (s "/arch/README")) q three_fs.
Proof.
  apply (remove_path_removes_one_file 10 new_pathRemover (s "/arch/README")
           (components (s "/arch/README")) three_fs).
  - vm_compute. reflexivity.
  - vm_compute. discriminate.
  - vm_compute. reflexivity.
Defined.

(** X12.  Everything [trimArchives] selects for removal is a name listed by
    some directory of the file system in whose joined path the filter finds a
    match: an entry the filter does not match is never selected. *)
Theorem selected_paths_match_the_filter
        (fuel : nat) (self : RSyncBackup) (archiveDir : str) (filter : option pattern)
        (entriesToKeep : Z) (fs : node) :
  wf fs = true -> height fs < fuel ->
  exists sel,
    trim_select fuel self archiveDir filter entriesToKeep fs = Done sel fs /\
    Forall (fun p => listed fs p /\
                     re_search (match filter with
                                | None => default_filter archiveDir
                                | Some f => f
                                end) p = true) sel.
Proof.
  intros Hwf Hf. unfold trim_select.
  destruct (pathWalker_walk_spec fuel
              (match filter with None => default_filter archiveDir | Some f => f end)
              archiveDir fs Hwf Hf) as (found & Hrun & Hfound).
  exists (pathsToTrim found entriesToKeep). unfold bind. rewrite Hrun.
  split; [reflexivity|].
  apply Forall_forall. intros x Hx. apply pathsToTrim_incl in Hx.
  rewrite Forall_forall in Hfound. now apply Hfound.
Qed.

Lemma selected_paths_match_the_filter_witness :
  exists sel,
    trim_select 10 live (s "/arch") None 1 three_fs = Done sel three_fs /\
    Forall (fun p => listed three_fs p /\
                     re_search (default_filter (s "/arch")) p = true) sel.
Proof.
  apply (selected_paths_match_the_filter 10 live (s "/arch") None 1 three_fs).
  - vm_compute. reflexivity.
  - vm_compute. lia.
Defined.

(** ** Further properties: what a real run can touch *)

Lemma NoDup_nodupb (l : list str) : NoDup l -> nodupb l = true.
Proof.
  induction 1 as [|x l Hx Hl IH]; cbn [nodupb]; auto.
  rewrite IH, andb_true_r. apply negb_true_iff.
  destruct (existsb (str_eqb x) l) eqn:E; auto.
  apply existsb_exists in E. destruct E as (y & Hy & Exy).
  apply str_eqb_eq in Exy. now subst.
Qed.

Lemma wf_Dir_intro (es : list (str * node)) :
  NoDup (map fst es) ->
  (forall n x, In (n, x) es -> valid_name n = true /\ wf x = true) ->
  wf (Dir es) = true.
Proof.
  intros Hnd Hall. cbn [wf]. rewrite !andb_true_iff, !forallb_forall.
  split; [split|].
  - intros [n x] Hin. now apply (Hall n x).
  - now apply NoDup_nodupb.
  - intros [n x] Hin. now apply (Hall n x).
Qed.

Lemma NoDup_names_filter (f : str * node -> bool) (es : list (str * node)) :
  NoDup (map fst es) -> NoDup (map fst (filter f es)).
Proof.
  induction es as [|e es IH]; cbn [filter map]; intros H; [constructor|].
  inversion H as [|? ? Hn Hd]; subst.
  destruct (f e); cbn [map]; auto. constructor; auto.
  intros Hin. apply Hn. apply in_map_iff in Hin.
  destruct Hin as (e' & E & Hin). apply filter_In in Hin.
  apply in_map_iff. exists e'. tauto.
Qed.

Lemma names_set_entry (c : str) (y : node) (es : list (str * node)) :
  map fst (set_entry c y es) = map fst es.
Proof.
  unfold set_entry. rewrite map_map. apply map_ext. intros [n x]. cbn [fst].
  now destruct (str_eqb n c).
Qed.

Lemma In_set_entry (c : str) (y : node) (es : list (str * node)) (n : str) (x : node) :
  In (n, x) (set_entry c y es) -> In (n, x) es \/ (In n (map fst es) /\ x = y).
Proof.
  unfold set_entry. intros H. apply in_map_iff in H.
  destruct H as ([n' x'] & E & Hin). cbn [fst] in E.
  destruct (str_eqb n' c).
  - injection E as <- <-. right. split; auto. apply in_map_iff. now exists (n', x').
  - injection E as <- <-. now left.
Qed.

(** Unlinking keeps a file system well formed and no higher. *)
Lemma delete_wf (ok : node -> bool) (d : list str) (fs fs' : node) :
  wf fs = true -> delete ok d fs = Some fs' -> wf fs' = true.
Proof.
  revert fs fs'; induction d as [|c d IH]; intros fs fs' Hwf; cbn [delete];
    [discriminate|].
  destruct fs as [|es]; [discriminate|].
  destruct (lookup c es) as [x|] eqn:E; [|discriminate].
  destruct (wf_Dir es Hwf) as [Hnd Hall].
  destruct d as [|c2 d].
  - destruct (ok x); [|discriminate]. intros [= <-].
    apply wf_Dir_intro.
    + now apply NoDup_names_filter.
    + intros n y Hin. apply filter_In in Hin. now apply Hall.
  - destruct (delete ok (c2 :: d) x) as [x'|] eqn:D; [|discriminate].
    intros [= <-]. apply wf_Dir_intro.
    + now rewrite names_set_entry.
    + intros n y Hin. apply In_set_entry in Hin.
      destruct Hin as [Hin | [Hn ->]]; [now apply Hall|].
      split.
      * apply in_map_iff in Hn. destruct Hn as ([n' z] & <- & Hz). now apply (Hall n' z).
      * apply (IH x); auto. apply lookup_In in E. now apply (Hall c x).
Qed.

Lemma height_Dir_le (es es' : list (str * node)) :
  (forall e', In e' es' -> exists e, In e es /\ height (snd e') <= height (snd e)) ->
  height (Dir es') <= height (Dir es).
Proof.
  intros H. cbn [height]. apply le_n_S. apply list_max_le.
  apply Forall_forall. intros h Hh. apply in_map_iff in Hh.
  destruct Hh as (e' & <- & Hin). destruct (H e' Hin) as (e & He & Hle).
  eapply Nat.le_trans; [exact Hle|].
  pose proof (proj1 (list_max_le (map (fun e => height (snd e)) es) _)
                    (Nat.le_refl _)) as Hall.
  rewrite Forall_forall in Hall. apply Hall. apply in_map_iff. now exists e.
Qed.

Lemma delete_height (ok : node -> bool) (d : list str) (fs fs' : node) :
  delete ok d fs = Some fs' -> height fs' <= height fs.
Proof.
  revert fs fs'; induction d as [|c d IH]; intros fs fs'; cbn [delete];
    [discriminate|].
  destruct fs as [|es]; [discriminate|].
  destruct (lookup c es) as [x|] eqn:E; [|discriminate].
  destruct d as [|c2 d].
  - destruct (ok x); [|discriminate]. intros [= <-].
    apply height_Dir_le. intros e' Hin. apply filter_In in Hin.
    exists e'. split; [tauto | apply Nat.le_refl].
  - destruct (delete ok (c2 :: d) x) as [x'|] eqn:D; [|discriminate].
    intros [= <-]. apply height_Dir_le. intros [n y] Hin.
    apply In_set_entry in Hin. destruct Hin as [Hin | [Hn ->]].
    + exists (n, y). split; [assumption | apply Nat.le_refl].
    + exists (c, x). split; [now apply lookup_In|]. cbn [snd]. now apply (IH x).
Qed.

(** Removing empty directories on the way to [p] changes nothing that is not
    itself on that way. *)
Lemma remove_empties_frame (p : str) (ds : list str) (fs fs' : node) :
  remove_empties ds fs = Some fs' -> Forall (on_the_way p) ds ->
  (wf fs = true -> wf fs' = true) /\ height fs' <= height fs /\
  forall q, is_prefix q (components p) = false -> kind_at q fs' = kind_at q fs.
Proof.
  revert fs; induction ds as [|d ds IH]; intros fs Hr Hall; cbn [remove_empties] in Hr.
  - injection Hr as <-. auto.
  - destruct (os_listdir d fs) as [[|n names]|]; try discriminate.
    destruct (os_rmdir d fs) as [fs1|] eqn:R; [|discriminate].
    inversion Hall as [|? ? [Hd (r & Hdr)] Hall']; subst.
    destruct (os_rmdir_inv _ _ _ R) as [Hdel _].
    destruct (IH fs1 Hr Hall') as (Hwf & Hh & Hk).
    split; [|split].
    + intros H. apply Hwf. eapply delete_wf; eauto.
    + pose proof (delete_height _ _ _ _ Hdel). lia.
    + intros q Hq. rewrite (Hk q Hq).
      destruct (is_prefix (components d) q) eqn:P.
      * assert (Hne : q <> components d).
        { intros ->. rewrite Hdr in Hq.
          enough (is_prefix (components d) (components d ++ r) = true) by congruence.
          apply is_prefix_iff. now exists r. }
        unfold kind_at.
        rewrite (delete_gone _ _ _ _ Hdel q P).
        now rewrite (delete_empty_below _ _ _ Hdel q P Hne).
      * eapply delete_kind_other; eauto.
Qed.

Lemma prune_parents_frame (fuel : nat) (self : RSyncBackup) (p : str) (fs fs' : node) :
  final (prune_parents fuel self p fs) = Some fs' ->
  (wf fs = true -> wf fs' = true) /\ height fs' <= height fs /\
  forall q, is_prefix q (components p) = false -> kind_at q fs' = kind_at q fs.
Proof.
  intros H. apply prune_parents_sequence in H. destruct H as (ds & Hr & Hall).
  eapply remove_empties_frame; eauto.
Qed.

(** The removal step either raises before it changed anything, or returns
    having unlinked exactly the selected path. *)
Lemma remove_path_outcome (fuel : nat) (pk : pathRemover) (p : str) (fs : node) :
  wf fs = true -> height fs < fuel -> dirsToRemove pk = [] ->
  components p <> [] ->
  remove_path fuel pk p fs = Raised OSError fs \/
  exists ok fs', remove_path fuel pk p fs = Done pk fs' /\
                 delete ok (components p) fs = Some fs'.
Proof.
  intros Hwf Hf Hpk Hne.
  destruct (stat p fs) as [t|] eqn:S; [|left; now apply remove_path_missing].
  assert (Hp : resolve p = Some (components p)).
  { destruct p; [discriminate|reflexivity]. }
  unfold stat in S. rewrite Hp in S. right. destruct t as [|es].
  - destruct (delete_total is_file _ File fs S eq_refl Hne) as (fs' & Hdel).
    exists is_file, fs'. split; auto.
    unfold remove_path, bind, peek, os_path_isdir, stat. rewrite Hp, S.
    unfold sys, os_remove. now rewrite Hp, Hdel.
  - pose proof (wf_find _ _ _ Hwf S) as Hwft.
    pose proof (height_find _ _ _ S) as Hht.
    pose proof (graft_same _ (Dir es) fs Hwf S) as Hsame.
    pose proof (pathRemover_os_path_walk fuel p _ fs (Dir es) es pk Hp S Hwft
                  ltac:(lia)) as Hwalk.
    rewrite Hsame, Hpk in Hwalk. cbn [app] in Hwalk.
    pose proof (rmdir_all_walk_dirs (Dir es) p _ fs (Dir es) Hp S Hwft) as Hrm.
    cbn beta iota in Hrm.
    destruct (delete_any_total _ (Dir es) fs S Hne) as (fs3 & Hdel).
    exists (fun _ => true), fs3. split; auto.
    unfold remove_path, bind, peek, os_path_isdir, stat. rewrite Hp, S.
    unfold pathRemover_walk, bind. rewrite Hwalk. cbn [dirsToRemove].
    rewrite Hrm. cbn [ret]. unfold sys, os_rmdir. rewrite Hp.
    rewrite (delete_at_graft is_empty_dir _ (Dir []) (Dir es) fs S eq_refl), Hdel.
    now rewrite (pathRemover_empty pk Hpk).
Qed.

(** One round of the loop of [trimArchives]. *)
Lemma trim_one_frame (fuel : nat) (self : RSyncBackup) (rp : bool) (p : str)
      (pk : pathRemover) (fs : node) :
  wf fs = true -> height fs < fuel -> dirsToRemove pk = [] ->
  components p <> [] ->
  match trim_one fuel self rp p pk fs with
  | Done pk' fs' =>
      pk' = pk /\ wf fs' = true /\ height fs' <= height fs /\
      forall q, apart (components p) q = true -> kind_at q fs' = kind_at q fs
  | Raised _ fs' =>
      forall q, apart (components p) q = true -> kind_at q fs' = kind_at q fs
  | Timeout => True
  end.
Proof.
  intros Hwf Hf Hpk Hne. unfold trim_one. unfold bind at 1.
  assert (Step : forall fs1,
    wf fs1 = true -> height fs1 <= height fs ->
    (forall q, apart (components p) q = true -> kind_at q fs1 = kind_at q fs) ->
    match (if rp then prune_parents fuel self p else ret tt) ;;; ret pk with
    | f => match f fs1 with
           | Done pk' fs' =>
               pk' = pk /\ wf fs' = true /\ height fs' <= height fs /\
               forall q, apart (components p) q = true -> kind_at q fs' = kind_at q fs
           | Raised _ fs' =>
               forall q, apart (components p) q = true -> kind_at q fs' = kind_at q fs
           | Timeout => True
           end
    end).
  { intros fs1 Hwf1 Hh1 Hk1. unfold bind. destruct rp; cbn [ret]; [|auto].
    destruct (prune_parents fuel self p fs1) as [u fs2|e fs2|] eqn:P; auto.
    - destruct (prune_parents_frame fuel self p fs1 fs2) as (W & H & K);
        [now rewrite P|].
      repeat split; auto; [lia|].
      intros q Hq. rewrite K, Hk1; auto.
      unfold apart in Hq. apply andb_true_iff in Hq. destruct Hq as [_ Hq].
      now apply negb_true_iff in Hq.
    - destruct (prune_parents_frame fuel self p fs1 fs2) as (W & H & K);
        [now rewrite P|].
      intros q Hq. rewrite K, Hk1; auto.
      unfold apart in Hq. apply andb_true_iff in Hq. destruct Hq as [_ Hq].
      now apply negb_true_iff in Hq. }
  destruct (testRun self).
  - cbn [ret]. apply Step; auto.
  - destruct (remove_path_outcome fuel pk p fs Hwf Hf Hpk Hne)
      as [-> | (ok & fs1 & -> & Hdel)]; [auto|].
    apply Step.
    + eapply delete_wf; eauto.
    + eapply delete_height; eauto.
    + intros q Hq. eapply delete_kind_other; eauto.
      unfold apart in Hq. apply andb_true_iff in Hq. destruct Hq as [Hq _].
      now apply negb_true_iff in Hq.
Qed.




(** ** Further properties: what a real run removes *)

(** The root cannot be removed: the removal step never returns for it. *)
Lemma remove_path_root (fuel : nat) (pk pk' : pathRemover) (p : str) (fs fs' : node) :
  components p = [] -> remove_path fuel pk p fs <> Done pk' fs'.
Proof.
  intros Hp.
  assert (Hrm : forall fs0, os_rmdir p fs0 = None).
  { intros fs0. unfold os_rmdir. destruct (resolve p) as [cs|] eqn:R; auto.
    apply resolve_some in R. destruct R as [_ ->]. rewrite Hp. reflexivity. }
  assert (Hre : forall fs0, os_remove p fs0 = None).
  { intros fs0. unfold os_remove. destruct (resolve p) as [cs|] eqn:R; auto.
    apply resolve_some in R. destruct R as [_ ->]. rewrite Hp. reflexivity. }
  unfold remove_path, bind, peek. destruct (os_path_isdir p fs).
  - destruct (pathRemover_walk fuel pk p fs) as [pk1 fs1|e fs1|]; try discriminate.
    unfold sys. rewrite Hrm. discriminate.
  - unfold sys. rewrite Hre. discriminate.
Qed.

Lemma remove_empties_gone_stays (ds : list str) (fs fs' : node) (q : list str) :
  remove_empties ds fs = Some fs' -> find q fs = None -> find q fs' = None.
Proof.
  revert fs; induction ds as [|d ds IH]; intros fs H Hq; cbn [remove_empties] in H.
  - now injection H as <-.
  - destruct (os_listdir d fs) as [[|n names]|]; try discriminate.
    destruct (os_rmdir d fs) as [fs1|] eqn:R; [|discriminate].
    destruct (os_rmdir_inv _ _ _ R) as [Hdel _].
    apply (IH fs1 H).
    destruct (find q fs1) eqn:F; auto.
    elim (delete_was_there _ _ q _ _ Hdel); [congruence | assumption].
Qed.

(** One round of the loop in a real run: when it returns, the selected path
    is gone, and nothing that was absent has appeared. *)
Lemma trim_one_removes (fuel : nat) (self : RSyncBackup) (rp : bool) (p : str)
      (pk pk1 : pathRemover) (fs fs1 : node) :
  testRun self = false ->
  wf fs = true -> height fs < fuel -> dirsToRemove pk = [] ->
  trim_one fuel self rp p pk fs = Done pk1 fs1 ->
  components p <> [] /\ find (components p) fs1 = None /\
  forall q, find q fs = None -> find q fs1 = None.
Proof.
  intros Hlive Hwf Hf Hpk H. unfold trim_one in H. rewrite Hlive in H.
  unfold bind at 1 in H.
  destruct (remove_path fuel pk p fs) as [pk0 fs0|e fs0|] eqn:R; try discriminate.
  assert (Hne : components p <> []).
  { intros E. now apply (remove_path_root fuel pk pk0 p fs fs0 E). }
  destruct (remove_path_outcome fuel pk p fs Hwf Hf Hpk Hne)
    as [R' | (ok & fs0' & R' & Hdel)]; [congruence|].
  rewrite R' in R. injection R as <- <-.
  assert (G0 : find (components p) fs0' = None).
  { eapply delete_gone; eauto. apply is_prefix_refl. }
  assert (M0 : forall q, find q fs = None -> find q fs0' = None).
  { intros q Hq. destruct (find q fs0') eqn:F; auto.
    elim (delete_was_there _ _ q _ _ Hdel); [congruence | assumption]. }
  unfold bind in H. destruct rp.
  - destruct (prune_parents fuel self p fs0') as [u fs2|e fs2|] eqn:P; try discriminate.
    cbn [ret] in H. injection H as <- <-.
    assert (F : final (prune_parents fuel self p fs0') = Some fs2) by now rewrite P.
    apply prune_parents_sequence in F. destruct F as (ds & Hr & _).
    split; [assumption|]. split.
    + eapply remove_empties_gone_stays; eauto.
    + intros q Hq. eapply remove_empties_gone_stays; eauto.
  - cbn [ret] in H. injection H as <- <-. auto.
Qed.

Lemma trim_loop_removes (fuel : nat) (self : RSyncBackup) (rp : bool) (sel : list str) :
  forall (pk pk' : pathRemover) (fs fs' : node),
  testRun self = false ->
  wf fs = true -> height fs < fuel -> dirsToRemove pk = [] ->
  for_each sel (trim_one fuel self rp) pk fs = Done pk' fs' ->
  (forall q, find q fs = None -> find q fs' = None) /\
  (forall p, In p sel -> find (components p) fs' = None).
Proof.
  induction sel as [|p sel IH]; intros pk pk' fs fs' Hlive Hwf Hf Hpk; cbn [for_each].
  - cbn [ret]. intros [= <- <-]. split; [auto | intros p []].
  - unfold bind. destruct (trim_one fuel self rp p pk fs) as [pk1 fs1|e fs1|] eqn:T;
      try discriminate.
    intros H.
    destruct (trim_one_removes fuel self rp p pk pk1 fs fs1 Hlive Hwf Hf Hpk T)
      as (Hne & Hgone & Hmono).
    pose proof (trim_one_frame fuel self rp p pk fs Hwf Hf Hpk Hne) as Fr.
    rewrite T in Fr. destruct Fr as (-> & Hwf1 & Hh1 & _).
    destruct (IH pk pk' fs1 fs' Hlive Hwf1 ltac:(lia) Hpk H) as [Hm Hs].
    split.
    + intros q Hq. auto.
    + intros p' [<- | Hin]; auto.
Qed.

(** X14.  A real run of [trimArchives] that returns has removed every
    selected path: none of them names a file or a directory afterwards. *)
Theorem trimArchives_removes_the_selected_paths
        (fuel : nat) (self : RSyncBackup) (archiveDir : str) (filter : option pattern)
        (entriesToKeep : Z) (removeParentIfEmpty : bool) (sel : list str)
        (fs fs' : node) (p : str) :
  testRun self = false ->
  wf fs = true -> height fs < fuel ->
  trim_select fuel self archiveDir filter entriesToKeep fs = Done sel fs ->
  trimArchives fuel self archiveDir filter entriesToKeep removeParentIfEmpty fs
    = Done tt fs' ->
  In p sel ->
  stat p fs' = None.
Proof.
  intros Hlive Hwf Hf Hsel H Hin. unfold trimArchives in H. unfold bind at 1 in H.
  rewrite Hsel in H. unfold bind in H.
  destruct (for_each sel (trim_one fuel self removeParentIfEmpty) new_pathRemover fs)
    as [pk' fs1|e fs1|] eqn:L; try discriminate.
  cbn [ret] in H. injection H as <-.
  destruct (trim_loop_removes fuel self removeParentIfEmpty sel new_pathRemover pk'
              fs fs1 Hlive Hwf Hf eq_refl L) as [_ Hs].
  unfold stat. destruct (resolve p) as [cs|] eqn:R; auto.
  apply resolve_some in R. destruct R as [_ ->]. now apply Hs.
Qed.

Lemma trimArchives_removes_the_selected_paths_witness :
  stat snapshot2 three_fs_trimmed = None.
Proof.
  apply (trimArchives_removes_the_selected_paths 80 live (s "/arch") None 1 true
           [snapshot1; snapshot2] three_fs three_fs_trimmed snapshot2).
  - reflexivity.
  - vm_compute. reflexivity.
  - vm_compute. lia.
  - vm_compute. reflexivity.
  - vm_compute. reflexivity.
  - right. left. reflexivity.
Defined.
